(** * LinkedIn command center: pipeline, event fan-out and publish client

    A shallow embedding of the Python sources

      - [app/models/schemas.py]            (the data model),
      - [app/services/websocket_manager.py] (the event fan-out),
      - [app/agents/publisher_agent.py]     (publish client and Publish stage),
      - [app/agents/trend_agent.py], [app/agents/writer_agent.py] and
        [app/agents/orchestrator.py]        (the three-stage pipeline),
      - [app/services/redis_service.py]     (the storage of finished campaigns),

    followed by the properties established about them.

    Python objects that are mutated in place live in an explicit store; every
    call that leaves the process (HTTP, web socket, vector store, language
    model) is answered by an environment that sees the whole history of
    earlier calls, so that a statement quantified over all worlds covers every
    sequential behaviour of the collaborators.  Exceptions are values of a
    sum type, and a coroutine is a state-and-exception computation. *)

From stdpp Require Import base option list functions gmap strings pretty.
From Stdlib Require Import ZArith QArith.

Local Open Scope Z_scope.
Local Open Scope nat_scope.

(** ** Python strings and lists *)

(** [s[:n]] *)
Fixpoint str_take (n : nat) (s : string) : string :=
  match n, s with
  | S n', String c s' => String c (str_take n' s')
  | _, _ => EmptyString
  end.

(** [sep.join(l)] *)
Fixpoint str_join (sep : string) (l : list string) : string :=
  match l with
  | [] => ""
  | [x] => x
  | x :: l' => x +:+ sep +:+ str_join sep l'
  end.

(** ["A" * n] *)
Fixpoint str_repeat (c : Ascii.ascii) (n : nat) : string :=
  match n with
  | O => EmptyString
  | S n' => String c (str_repeat c n')
  end.

(** Truthiness of a string: [if s:] *)
Definition truthy (s : string) : bool :=
  match s with EmptyString => false | _ => true end.

(** Truthiness of an optional string: [None] and [""] are both falsy. *)
Definition truthy_opt (o : option string) : bool :=
  match o with Some s => truthy s | None => false end.

(** [l.remove(x)]: drops the first occurrence; [None] stands for the
    [ValueError] Python raises when [x] does not occur. *)
Fixpoint list_remove {A} `{EqDecision A} (x : A) (l : list A) : option (list A) :=
  match l with
  | [] => None
  | y :: l' => if decide (x = y) then Some l' else (y ::.) <$> list_remove x l'
  end.

(** ** Exceptions *)

Inductive Exn :=
  | HTTPError (msg : string)        (* httpx.HTTPError and its subclasses *)
  | ValueError (msg : string)       (* also json.JSONDecodeError *)
  | KeyError (key : string)
  | RuntimeError (msg : string).    (* any other subclass of Exception *)

Definition is_HTTPError (e : Exn) : bool :=
  match e with HTTPError _ => true | _ => false end.


Inductive Outcome (A : Type) :=
  | Returned (a : A)
  | Raised (e : Exn).
Arguments Returned {A} a.
Arguments Raised {A} e.

(** ** Data model ([app/models/schemas.py]) *)

Inductive Platform := LINKEDIN.

Definition platform_value (p : Platform) : string :=
  match p with LINKEDIN => "linkedin" end.

Inductive AgentStatus := QUEUED | RUNNING | COMPLETED | FAILED.

Inductive AgentName := TREND | WRITER | PUBLISHER.

#[global] Instance AgentName_eq_dec : EqDecision AgentName.
Proof. solve_decision. Defined.


(** The values the program puts into an event's [data] dictionary. *)
Inductive JsonValue :=
  | JBool (b : bool)
  | JStr (s : string)
  | JStrList (l : list string).

Record AgentEvent := {
  campaign_id : string;
  agent : AgentName;
  status : AgentStatus;
  platform : option Platform;
  message : string;
  data : option (list (string * JsonValue));
}.

Record ContentPiece := {
  piece_platform : Platform;
  content : string;
  hashtags : list string;
  scheduled_time : option string;
  published : bool;
}.

(** [piece.published = True] *)
Definition set_published (p : ContentPiece) : ContentPiece :=
  {| piece_platform := piece_platform p; content := content p;
     hashtags := hashtags p; scheduled_time := scheduled_time p;
     published := true |}.

(** A [ContentPiece] object is referred to by its address in the store. *)
Definition loc := nat.

Record CampaignResponse := {
  resp_campaign_id : string;
  resp_topic : string;
  resp_status : string;
  resp_content : list loc;
  trend_insights : option string;
}.

(** ** The outside world *)

Definition WebSocket := nat.

Record Response := {
  status_code : Z;
  text : string;
  json : Outcome (gmap string string);   (* [resp.json()], which may raise *)
}.

Record SearchHit := {
  hit_platform : string;
  hit_engagement : Z;
  hit_text : string;
}.

(** What the writer obtains from a model reply (lines 85-95 of
    [writer_agent.py]): a JSON object, the fallback taken on
    [JSONDecodeError]/[IndexError], or an exception of another class. *)
Inductive Parsed :=
  | ParsedJson (content_field : option string) (hashtags_field : option (list string))
  | ParseFallback
  | ParseRaises (e : Exn).

(** Every interaction with a collaborator, with the answer it received.
    [AEnter] marks the entry into an agent's [run]; the [piece] of an
    [APost] is the object whose text the request carries.  Both are there
    for the statements only: no reply is computed from them by the code. *)
Inductive Action :=
  | AEnter (a : AgentName)
  | AAccept (ws : WebSocket) (reply : Outcome unit)
  | ASend (ws : WebSocket) (payload : AgentEvent) (reply : Outcome unit)
  | ASleep (seconds : Q)
  | APost (piece : loc) (author authorization commentary : string)
          (reply : Outcome Response)
  | AToken (refresh_token client_id client_secret : string)
           (reply : Outcome Response)
  | AUserinfo (authorization : string) (reply : Outcome Response)
  | AStore (cid plat body : string) (reply : Outcome unit)
  | ASearch (query : string) (top_k : nat) (reply : Outcome (list SearchHit))
  | AInvoke (a : AgentName) (inputs : list (string * string)) (reply : Outcome string)
  | AUuid (reply : string).

(** The collaborators: each answer may depend on the request and on
    everything that happened before it. *)
Record Env := {
  accept_reply : list Action → WebSocket → Outcome unit;
  send_reply : list Action → WebSocket → AgentEvent → Outcome unit;
  post_reply : list Action → string → string → string → Outcome Response;
  token_reply : list Action → string → string → string → Outcome Response;
  userinfo_reply : list Action → string → Outcome Response;
  store_reply : list Action → string → string → string → Outcome unit;
  search_reply : list Action → string → nat → Outcome (list SearchHit);
  invoke_reply : list Action → AgentName → list (string * string) → Outcome string;
  parse_reply : string → Parsed;
  uuid_reply : list Action → string;
}.

(** [app/config.py], the fields the core reads or writes. *)
Record Settings := {
  LINKEDIN_ACCESS_TOKEN : string;
  LINKEDIN_REFRESH_TOKEN : string;
  LINKEDIN_CLIENT_ID : string;
  LINKEDIN_CLIENT_SECRET : string;
}.

(** The attributes of the [PublisherAgent] singleton. *)
Record PublisherAgent := {
  _cached_user_urn : option string;
  _access_token : string;
}.

Record World := {
  env : Env;
  heap : loc → ContentPiece;
  next_loc : loc;
  publisher_agent : PublisherAgent;
  settings : Settings;
  environ : gmap string string;
  active_connections : gmap string (list WebSocket);
  trace : list Action;
}.

Definition with_heap (h : loc → ContentPiece) (n : loc) (w : World) : World :=
  {| env := env w; heap := h; next_loc := n;
     publisher_agent := publisher_agent w; settings := settings w;
     environ := environ w; active_connections := active_connections w;
     trace := trace w |}.

Definition with_publisher (p : PublisherAgent) (w : World) : World :=
  {| env := env w; heap := heap w; next_loc := next_loc w;
     publisher_agent := p; settings := settings w;
     environ := environ w; active_connections := active_connections w;
     trace := trace w |}.

Definition with_settings (s : Settings) (e : gmap string string) (w : World) : World :=
  {| env := env w; heap := heap w; next_loc := next_loc w;
     publisher_agent := publisher_agent w; settings := s;
     environ := e; active_connections := active_connections w;
     trace := trace w |}.

Definition with_connections (c : gmap string (list WebSocket)) (w : World) : World :=
  {| env := env w; heap := heap w; next_loc := next_loc w;
     publisher_agent := publisher_agent w; settings := settings w;
     environ := environ w; active_connections := c;
     trace := trace w |}.

Definition with_trace (t : list Action) (w : World) : World :=
  {| env := env w; heap := heap w; next_loc := next_loc w;
     publisher_agent := publisher_agent w; settings := settings w;
     environ := environ w; active_connections := active_connections w;
     trace := t |}.

(** ** Coroutines: state and exceptions *)

Definition M (A : Type) : Type := World → Outcome A * World.

#[global] Instance M_ret : MRet M := λ A a w, (Returned a, w).

#[global] Instance M_bind : MBind M := λ A B f m w,
  match m w with
  | (Returned a, w') => f a w'
  | (Raised e, w') => (Raised e, w')
  end.

Definition raise {A} (e : Exn) : M A := λ w, (Raised e, w).

(** [try: body  except <class>: handler], for the classes selected by [catches]. *)
Definition try_except {A} (body : M A) (catches : Exn → bool) (handler : Exn → M A) : M A :=
  λ w, match body w with
       | (Raised e, w') => if catches e then handler e w' else (Raised e, w')
       | r => r
       end.

Definition Exception (e : Exn) : bool := true.

Definition gets {A} (f : World → A) : M A := λ w, (Returned (f w), w).

Definition modify (f : World → World) : M unit := λ w, (Returned (), f w).

(** A call to a collaborator: ask the environment, record question and answer. *)
Definition call {A} (ask : Env → list Action → Outcome A) (record : Outcome A → Action) : M A :=
  λ w, let r := ask (env w) (trace w) in
       (r, with_trace (trace w ++ [record r]) w).

(** A step that cannot fail, recorded for the history. *)
Definition note (a : Action) : M unit :=
  modify (λ w, with_trace (trace w ++ [a]) w).

(** [await asyncio.sleep(seconds)] *)
Definition sleep (seconds : Q) : M unit := note (ASleep seconds).

(** [for x in l: body x] *)
Fixpoint for_each {A} (l : list A) (body : A → M unit) : M unit :=
  match l with
  | [] => mret ()
  | x :: l' => body x;; for_each l' body
  end.

(** ** Event fan-out ([app/services/websocket_manager.py]) *)

(** [await websocket.accept()] *)
Definition accept (websocket : WebSocket) : M unit :=
  call (λ e h, accept_reply e h websocket) (AAccept websocket).

(** [await ws.send_text(payload)]: the payload is the event itself; its
    rendering as JSON text is the transport's framing. *)
Definition send_text (ws : WebSocket) (payload : AgentEvent) : M unit :=
  call (λ e h, send_reply e h ws payload) (ASend ws payload).

Definition connect (websocket : WebSocket) (cid : string) : M unit :=
  accept websocket;;
  modify (λ w,
    let conns := active_connections w in
    let conns := match conns !! cid with
                 | None => <[cid := []]> conns
                 | Some _ => conns
                 end in
    with_connections (<[cid := default [] (conns !! cid) ++ [websocket]]> conns) w).

Definition disconnect (websocket : WebSocket) (cid : string) : M unit :=
  conns ← gets active_connections;
  match conns !! cid with
  | Some l =>
      match list_remove websocket l with
      | None => raise (ValueError "list.remove(x): x not in list")
      | Some l' =>
          if bool_decide (l' = [])
          then modify (λ w, with_connections (delete cid (active_connections w)) w)
          else modify (λ w, with_connections (<[cid := l']> (active_connections w)) w)
      end
  | None => mret ()
  end.

(** The first loop of [broadcast_event]: every socket is tried, and the
    ones whose send raises are collected. *)
Fixpoint send_all (payload : AgentEvent) (l : list WebSocket) (dead : list WebSocket)
  : M (list WebSocket) :=
  match l with
  | [] => mret dead
  | ws :: l' =>
      failed ← try_except (send_text ws payload;; mret false) Exception (λ _, mret true);
      send_all payload l' (if failed : bool then dead ++ [ws] else dead)
  end.

Definition broadcast_event (event : AgentEvent) : M unit :=
  let cid := campaign_id event in
  conns ← gets active_connections;
  match conns !! cid with
  | Some l =>
      let payload := event in
      dead ← send_all payload l [];
      for_each dead (λ ws, disconnect ws cid)
  | None => mret ()
  end.

(** ** Publish client ([app/agents/publisher_agent.py]) *)

Definition newline : string := String (Ascii.ascii_of_nat 10) EmptyString.

(** [f"Bearer {token}"] *)
Definition bearer (token : string) : string := "Bearer " +:+ token.

(** [resp.json()] *)
Definition json_of (resp : Response) : M (gmap string string) :=
  λ w, (json resp, w).

(** [client.post("https://api.linkedin.com/rest/posts", headers, json)] *)
Definition post_rest_posts (piece : loc) (author authorization commentary : string)
  : M Response :=
  call (λ e h, post_reply e h author authorization commentary)
       (APost piece author authorization commentary).

(** [client.post("https://www.linkedin.com/oauth/v2/accessToken", data)] *)
Definition post_access_token (refresh_token client_id client_secret : string) : M Response :=
  call (λ e h, token_reply e h refresh_token client_id client_secret)
       (AToken refresh_token client_id client_secret).

(** [client.get("https://api.linkedin.com/v2/userinfo", headers)] *)
Definition get_userinfo (authorization : string) : M Response :=
  call (λ e h, userinfo_reply e h authorization) (AUserinfo authorization).

(** [pinecone_service.store_campaign_results(...)] *)
Definition store_campaign_results (cid plat body : string) : M unit :=
  call (λ e h, store_reply e h cid plat body) (AStore cid plat body).

Definition set_access_token (tok : string) (w : World) : World :=
  with_publisher {| _cached_user_urn := _cached_user_urn (publisher_agent w);
                    _access_token := tok |} w.

Definition set_cached_user_urn (urn : option string) (w : World) : World :=
  with_publisher {| _cached_user_urn := urn;
                    _access_token := _access_token (publisher_agent w) |} w.

Definition set_LINKEDIN_REFRESH_TOKEN (v : string) (w : World) : World :=
  let s := settings w in
  with_settings {| LINKEDIN_ACCESS_TOKEN := LINKEDIN_ACCESS_TOKEN s;
                   LINKEDIN_REFRESH_TOKEN := v;
                   LINKEDIN_CLIENT_ID := LINKEDIN_CLIENT_ID s;
                   LINKEDIN_CLIENT_SECRET := LINKEDIN_CLIENT_SECRET s |}
                (<["LINKEDIN_REFRESH_TOKEN" := v]> (environ w)) w.

Definition set_LINKEDIN_ACCESS_TOKEN (v : string) (w : World) : World :=
  let s := settings w in
  with_settings {| LINKEDIN_ACCESS_TOKEN := v;
                   LINKEDIN_REFRESH_TOKEN := LINKEDIN_REFRESH_TOKEN s;
                   LINKEDIN_CLIENT_ID := LINKEDIN_CLIENT_ID s;
                   LINKEDIN_CLIENT_SECRET := LINKEDIN_CLIENT_SECRET s |}
                (<["LINKEDIN_ACCESS_TOKEN" := v]> (environ w)) w.

Definition _refresh_token : M bool :=
  s ← gets settings;
  if negb (truthy (LINKEDIN_REFRESH_TOKEN s)) || negb (truthy (LINKEDIN_CLIENT_ID s))
  then mret false
  else
    try_except
      (resp ← post_access_token (LINKEDIN_REFRESH_TOKEN s) (LINKEDIN_CLIENT_ID s)
                                (LINKEDIN_CLIENT_SECRET s);
       if negb (status_code resp =? 200)%Z then mret false
       else
         data ← json_of resp;
         match data !! "access_token" with
         | None => raise (KeyError "access_token")
         | Some tok =>
             modify (set_access_token tok);;
             let new_refresh := data !! "refresh_token" in
             (if truthy_opt new_refresh
              then modify (set_LINKEDIN_REFRESH_TOKEN (default "" new_refresh))
              else mret ());;
             modify (set_LINKEDIN_ACCESS_TOKEN tok);;
             modify (set_cached_user_urn None);;
             mret true
         end)
      is_HTTPError (λ _, mret false).

Definition _get_user_urn : M (option string) :=
  p ← gets publisher_agent;
  if truthy_opt (_cached_user_urn p) then mret (_cached_user_urn p)
  else
    try_except
      (resp ← get_userinfo (bearer (_access_token p));
       if negb (status_code resp =? 200)%Z then mret None
       else
         data ← json_of resp;
         let user_sub := default "" (data !! "sub") in
         (if truthy user_sub
          then modify (set_cached_user_urn (Some ("urn:li:person:" +:+ user_sub)))
          else mret ());;
         gets (λ w, _cached_user_urn (publisher_agent w)))
      is_HTTPError (λ _, mret None).

(** Lines 155-161: the text that goes into the request. *)
Definition outgoing_text (piece : ContentPiece) : string :=
  let text := content piece in
  let text :=
    match hashtags piece with
    | [] => text
    | _ =>
        let tags := str_join " " ((λ t, "#" +:+ t) <$> hashtags piece) in
        text +:+ newline +:+ newline +:+ tags
    end in
  str_take 3000 text.

(** The variables of [_publish_linkedin] that its loop reads and assigns:
    [payload["author"]], [headers["Authorization"]] and [token_refreshed]. *)
Record Locals := {
  author : string;
  authorization : string;
  token_refreshed : bool;
}.

(** How one pass through the loop body ends. *)
Inductive Flow :=
  | Return (b : bool)     (* [return b] *)
  | Continue              (* [continue] *)
  | Next.                 (* the end of the [try] statement is reached *)

Definition is_success (code : Z) : bool :=
  bool_decide (code = 200%Z) || bool_decide (code = 201%Z).

(** Lines 191-225, the body of the [try] statement. *)
Definition try_body (piece : loc) (commentary : string) (st : Locals)
  : M (Flow * Locals) :=
  resp ← post_rest_posts piece (author st) (authorization st) commentary;
  if is_success (status_code resp) then mret (Return true, st)
  else if bool_decide (status_code resp = 401%Z) && negb (token_refreshed st) then
    refreshed ← _refresh_token;
    if refreshed : bool then
      p ← gets publisher_agent;
      a ← _get_user_urn;
      mret (Continue,
            {| author := if truthy_opt a then default "" a else author st;
               authorization := bearer (_access_token p);
               token_refreshed := true |})
    else mret (Return false, st)
  else if bool_decide (status_code resp = 403%Z) then mret (Return false, st)
  else mret (Next, st).

(** Lines 189-235: [for attempt in range(1, max_retries + 1)] and the
    final [return False].  An [httpx.HTTPError] reaches the handler only
    from the POST itself, before any local is assigned (see
    [_refresh_token_no_HTTPError] and [_get_user_urn_no_HTTPError]). *)
Fixpoint publish_loop (piece : loc) (max_retries : nat) (commentary : string)
    (attempts : list nat) (st : Locals) : M bool :=
  match attempts with
  | [] => mret false
  | attempt :: rest =>
      r ← try_except (try_body piece commentary st) is_HTTPError (λ _, mret (Next, st));
      match r.1 with
      | Return b => mret b
      | Continue => publish_loop piece max_retries commentary rest r.2
      | Next =>
          (if bool_decide (attempt < max_retries)
           then sleep (inject_Z (2 ^ Z.of_nat attempt))
           else mret ());;
          publish_loop piece max_retries commentary rest r.2
      end
  end.

Definition _publish_linkedin (piece : loc) (max_retries : nat) : M bool :=
  p ← gets publisher_agent;
  if negb (truthy (_access_token p)) then mret false
  else
    obj ← gets (λ w, heap w piece);
    let text := outgoing_text obj in
    a ← _get_user_urn;
    if negb (truthy_opt a) then mret false
    else
      p ← gets publisher_agent;
      publish_loop piece max_retries text (seq 1 max_retries)
        {| author := default "" a;
           authorization := bearer (_access_token p);
           token_refreshed := false |}.

Definition mark_published (piece : loc) (w : World) : World :=
  with_heap (<[piece := set_published (heap w piece)]> (heap w)) (next_loc w) w.

Definition publisher_event (cid : string) (st : AgentStatus) (p : Platform)
    (msg : string) : AgentEvent :=
  {| campaign_id := cid; agent := PUBLISHER; status := st;
     platform := Some p; message := msg; data := None |}.

(** The body of the loop of [PublisherAgent.run]. *)
Definition publish_piece (cid : string) (auto_publish : bool) (piece : loc) : M unit :=
  p ← gets (λ w, piece_platform (heap w piece));
  (if auto_publish then
     broadcast_event (publisher_event cid RUNNING p "📤 Publishing to LinkedIn...");;
     sleep (1 # 2);;
     success ← _publish_linkedin piece 3;
     if success : bool then
       modify (mark_published piece);;
       broadcast_event (publisher_event cid COMPLETED p "✅ Published to LinkedIn!")
     else
       broadcast_event (publisher_event cid FAILED p
                          "⚠️ Failed to publish to LinkedIn. Saved as draft.")
   else
     broadcast_event (publisher_event cid COMPLETED p
                        "💾 LinkedIn content saved as draft (auto-publish off)"));;
  body ← gets (λ w, content (heap w piece));
  store_campaign_results cid (platform_value p) body.

Definition PublisherAgent_run (cid : string) (content_pieces : list loc)
    (auto_publish : bool) : M (list loc) :=
  note (AEnter PUBLISHER);;
  for_each content_pieces (publish_piece cid auto_publish);;
  mret content_pieces.

(** ** Research stage ([app/agents/trend_agent.py]) *)

(** [pinecone_service.search_similar(query, top_k)] *)
Definition search_similar (query : string) (top_k : nat) : M (list SearchHit) :=
  call (λ e h, search_reply e h query top_k) (ASearch query top_k).

(** [chain.ainvoke(inputs)] followed by [.content] *)
Definition ainvoke (a : AgentName) (inputs : list (string * string)) : M string :=
  call (λ e h, invoke_reply e h a inputs) (AInvoke a inputs).

Definition format_hit (r : SearchHit) : string :=
  "- [Platform: " +:+ hit_platform r +:+ ", Engagement: "
    +:+ pretty (hit_engagement r) +:+ "] " +:+ str_take 200 (hit_text r).

Definition trend_event (cid : string) (st : AgentStatus) (msg : string)
    (d : option (list (string * JsonValue))) : AgentEvent :=
  {| campaign_id := cid; agent := TREND; status := st;
     platform := None; message := msg; data := d |}.

Definition TrendAgent_run (cid topic target_audience tone : string)
    (platforms : list string) : M string :=
  note (AEnter TREND);;
  broadcast_event (trend_event cid RUNNING
    ("🔍 Searching past content for '" +:+ topic +:+ "'...") None);;
  sleep 1;;
  past_results ← search_similar topic 5;
  let past_content_str :=
    match past_results with
    | [] => "No past content found — this is a fresh topic."
    | _ => str_join newline (format_hit <$> past_results)
    end in
  broadcast_event (trend_event cid RUNNING
    ("📊 Found " +:+ pretty (length past_results)
       +:+ " similar past posts. Analyzing trends...") None);;
  sleep 1;;
  brief ← ainvoke TREND [("topic", topic); ("target_audience", target_audience);
                         ("tone", tone); ("platforms", str_join ", " platforms);
                         ("past_content", past_content_str)];
  broadcast_event (trend_event cid COMPLETED
    "✅ Trend analysis complete. Strategic brief ready."
    (Some [("brief_preview", JStr (str_take 200 brief))]));;
  mret brief.

(** ** Draft stage ([app/agents/writer_agent.py]) *)

Definition LINKEDIN_RULES_max_chars : nat := 3000.

Definition LINKEDIN_RULES_style : string :=
  "Professional, thought-leadership. Use line breaks for readability. Start with a hook. End with a CTA or question.".

(** [ContentPiece(...)]: a new object in the store. *)
Definition new_piece (p : ContentPiece) : M loc :=
  λ w, let l := next_loc w in
       (Returned l, with_heap (<[l := p]> (heap w)) (S l) w).

Definition writer_event (cid : string) (st : AgentStatus) (p : Platform)
    (msg : string) (d : option (list (string * JsonValue))) : AgentEvent :=
  {| campaign_id := cid; agent := WRITER; status := st;
     platform := Some p; message := msg; data := d |}.

(** The body of the loop of [WriterAgent.run]; [content_pieces] is the
    list built so far. *)
Definition write_piece (cid topic tone target_audience brief : string)
    (p : Platform) (content_pieces : list loc) : M (list loc) :=
  broadcast_event (writer_event cid RUNNING p "✍️ Writing LinkedIn post..." None);;
  sleep (1 # 2);;
  result ← ainvoke WRITER [("platform_rules", LINKEDIN_RULES_style);
                           ("max_chars", pretty LINKEDIN_RULES_max_chars);
                           ("brief", brief); ("topic", topic); ("tone", tone);
                           ("target_audience", target_audience)];
  parse ← gets (λ w, parse_reply (env w) result);
  parsed ← match parse with
           | ParsedJson c h => mret (default "" c, default [] h)
           | ParseFallback => mret (result, [])
           | ParseRaises e => raise e
           end;
  let content_text := parsed.1 in
  let content_text :=
    if bool_decide (LINKEDIN_RULES_max_chars < String.length content_text)
    then str_take LINKEDIN_RULES_max_chars content_text
    else content_text in
  piece ← new_piece {| piece_platform := p; content := content_text;
                       hashtags := parsed.2; scheduled_time := None;
                       published := false |};
  broadcast_event (writer_event cid COMPLETED p
    ("✅ LinkedIn content ready (" +:+ pretty (String.length content_text) +:+ " chars)")
    (Some [("preview", JStr (str_take 150 content_text));
           ("hashtags", JStrList parsed.2)]));;
  mret (content_pieces ++ [piece]).

Fixpoint write_pieces (cid topic tone target_audience brief : string)
    (platforms : list Platform) (content_pieces : list loc) : M (list loc) :=
  match platforms with
  | [] => mret content_pieces
  | p :: rest =>
      content_pieces ← write_piece cid topic tone target_audience brief p content_pieces;
      write_pieces cid topic tone target_audience brief rest content_pieces
  end.

Definition WriterAgent_run (cid topic tone target_audience : string)
    (platforms : list Platform) (brief : string) : M (list loc) :=
  note (AEnter WRITER);;
  write_pieces cid topic tone target_audience brief platforms [].

(** ** Orchestrator ([app/agents/orchestrator.py]) *)




(** ** Campaign storage ([app/services/redis_service.py]) *)

Module RedisService.

(** [CampaignResponse] as it is stored: a snapshot, with the pieces by value. *)
Record CampaignResponse := {
  campaign_id : string;
  topic : string;
  status : string;
  content : list ContentPiece;
  trend_insights : option string;
}.

(** A [redis.Redis] object. *)
Definition Client := nat.

(** Every request to the Redis library, with its answer.  A scan is
    answered by the keys the iteration yields, in order, and by the
    exception it ends with, if any. *)
Inductive Action :=
  | AFromUrl (url : string) (reply : Outcome Client)
  | APing (client : Client) (reply : Outcome unit)
  | AClose (client : Client) (reply : Outcome unit)
  | ASet (client : Client) (key data : string) (ex : Z) (reply : Outcome unit)
  | AGet (client : Client) (key : string) (reply : Outcome (option string))
  | AScan (client : Client) (pattern : string) (count : Z)
          (reply : list string * option Exn).

(** The Redis library and Pydantic's serialisation of [CampaignResponse]. *)
Record Env := {
  from_url_reply : list Action → string → Outcome Client;
  ping_reply : list Action → Client → Outcome unit;
  aclose_reply : list Action → Client → Outcome unit;
  set_reply : list Action → Client → string → string → Z → Outcome unit;
  get_reply : list Action → Client → string → Outcome (option string);
  scan_reply : list Action → Client → string → Z → list string * option Exn;
  model_dump_json : CampaignResponse → string;
  model_validate_json : string → Outcome CampaignResponse;
}.

(** The [RedisService] singleton, [settings.REDIS_URL] and the history. *)
Record State := {
  env : Env;
  REDIS_URL : string;
  _client : option Client;
  trace : list Action;
}.

Definition with_client (c : option Client) (s : State) : State :=
  {| env := env s; REDIS_URL := REDIS_URL s; _client := c; trace := trace s |}.

Definition with_trace (t : list Action) (s : State) : State :=
  {| env := env s; REDIS_URL := REDIS_URL s; _client := _client s; trace := t |}.

(** Coroutines of the service: state and exceptions. *)
Definition R (A : Type) : Type := State → Outcome A * State.

#[local] Instance R_ret : MRet R := λ A a s, (Returned a, s).

#[local] Instance R_bind : MBind R := λ A B f m s,
  match m s with
  | (Returned a, s') => f a s'
  | (Raised e, s') => (Raised e, s')
  end.

(** [try: body  except Exception: handler] *)
Definition try_except {A} (body : R A) (handler : Exn → R A) : R A :=
  λ s, match body s with
       | (Raised e, s') => handler e s'
       | r => r
       end.

Definition gets {A} (f : State → A) : R A := λ s, (Returned (f s), s).

Definition call {A} (ask : Env → list Action → Outcome A) (record : Outcome A → Action)
  : R A :=
  λ s, let r := ask (env s) (trace s) in
       (r, with_trace (trace s ++ [record r]) s).

(** [self._client = c] *)
Definition set_client (c : option Client) : R unit :=
  λ s, (Returned (), with_client c s).

(** [redis.from_url(url, decode_responses=True)] *)
Definition from_url (url : string) : R Client :=
  call (λ e h, from_url_reply e h url) (AFromUrl url).

(** [await client.ping()] *)
Definition ping (c : Client) : R unit :=
  call (λ e h, ping_reply e h c) (APing c).

(** [await client.aclose()] *)
Definition aclose (c : Client) : R unit :=
  call (λ e h, aclose_reply e h c) (AClose c).

(** [await client.set(key, data, ex=ex)] *)
Definition set (c : Client) (key data : string) (ex : Z) : R unit :=
  call (λ e h, set_reply e h c key data ex) (ASet c key data ex).

(** [await client.get(key)] *)
Definition get (c : Client) (key : string) : R (option string) :=
  call (λ e h, get_reply e h c key) (AGet c key).

(** [CampaignResponse.model_validate_json(data)] *)
Definition validate (data : string) : R CampaignResponse :=
  λ s, (model_validate_json (env s) data, s).

Definition CAMPAIGN_KEY_PREFIX : string := "campaign:".

Definition CAMPAIGN_TTL : Z := 60 * 60 * 24 * 7.

Definition connect : R unit :=
  try_except
    (url ← gets REDIS_URL;
     c ← from_url url;
     set_client (Some c);;
     ping c;;
     mret ())
    (λ _, set_client None).

Definition disconnect : R unit :=
  client ← gets _client;
  match client with
  | Some c => aclose c;; set_client None
  | None => mret ()
  end.

Definition is_healthy : R bool :=
  client ← gets _client;
  match client with
  | None => mret false
  | Some c => try_except (ping c;; mret true) (λ _, mret false)
  end.

Definition store_campaign (campaign : CampaignResponse) : R unit :=
  client ← gets _client;
  match client with
  | None => mret ()
  | Some c =>
      let key := CAMPAIGN_KEY_PREFIX +:+ campaign_id campaign in
      data ← gets (λ s, model_dump_json (env s) campaign);
      set c key data CAMPAIGN_TTL
  end.

Definition get_campaign (campaign_id : string) : R (option CampaignResponse) :=
  client ← gets _client;
  match client with
  | None => mret None
  | Some c =>
      let key := CAMPAIGN_KEY_PREFIX +:+ campaign_id in
      data ← get c key;
      if negb (truthy_opt data) then mret None
      else campaign ← validate (default "" data); mret (Some campaign)
  end.

(** The first loop of [list_campaigns]: the keys the scan yields are
    collected until there are [limit] of them; [failure] is the exception
    the iteration ends with, if it is driven that far. *)
Fixpoint scan_keys (limit : Z) (yielded : list string) (failure : option Exn)
    (keys : list string) : Outcome (list string) :=
  match yielded with
  | [] => match failure with Some e => Raised e | None => Returned keys end
  | key :: yielded' =>
      let keys := keys ++ [key] in
      if (limit <=? Z.of_nat (length keys))%Z then Returned keys
      else scan_keys limit yielded' failure keys
  end.

(** The second loop of [list_campaigns]. *)
Fixpoint fetch (c : Client) (keys : list string) (campaigns : list CampaignResponse)
  : R (list CampaignResponse) :=
  match keys with
  | [] => mret campaigns
  | key :: keys' =>
      data ← get c key;
      if truthy_opt data
      then campaign ← validate (default "" data); fetch c keys' (campaigns ++ [campaign])
      else fetch c keys' campaigns
  end.

Definition list_campaigns (limit : Z) : R (list CampaignResponse) :=
  client ← gets _client;
  match client with
  | None => mret []
  | Some c =>
      let pattern := CAMPAIGN_KEY_PREFIX +:+ "*" in
      keys ← (λ s, let r := scan_reply (env s) (trace s) c pattern 100 in
                   (scan_keys limit r.1 r.2 [],
                    with_trace (trace s ++ [AScan c pattern 100 r]) s));
      fetch c keys []
  end.

End RedisService.

(** * Vocabulary of the statements *)

(** ** Runs *)

(** A coroutine that always returns. *)
Definition total {A} (m : M A) : Prop := ∀ w, ∃ a w', m w = (Returned a, w').

(** Properties of a run that compose along a computation: a preorder on
    worlds that every step respects. *)
Definition along (R : relation World) {A} (m : M A) : Prop :=
  ∀ w r w', m w = (r, w') → R w w'.

(** The run adds to the history only actions that satisfy [Q], and leaves
    the field [f] of the world alone. *)
Definition grows {B} (f : World → B) (Q : Action → Prop) (w w' : World) : Prop :=
  f w' = f w ∧ ∃ delta, trace w' = trace w ++ delta ∧ Forall Q delta.

(** What a run added to the history. *)
Definition new_actions (w w' : World) : list Action :=
  drop (length (trace w)) (trace w').

(** ** The event fan-out *)

Definition is_raised {A} (r : Outcome A) : bool :=
  match r with Raised _ => true | Returned _ => false end.

(** The sockets registered for a campaign. *)
Definition subscribers (cid : string) (w : World) : list WebSocket :=
  default [] (active_connections w !! cid).

(** The sockets among [l] whose send raised, given the replies in order. *)
Definition failed_of (l : list WebSocket) (replies : list (Outcome unit)) : list WebSocket :=
  (filter (λ a, is_raised a.2 = true) (zip l replies)).*1.

(** [for ws in dead: l.remove(ws)] on a plain list. *)
Fixpoint remove_each (dead l : list WebSocket) : option (list WebSocket) :=
  match dead with
  | [] => Some l
  | ws :: dead' => list_remove ws l ≫= remove_each dead'
  end.

(** ** The publish client as a state machine *)

(** The pause the loop takes after a failed attempt. *)
Definition backoff (max_retries attempt : nat) : list Action :=
  if bool_decide (attempt < max_retries)
  then [ASleep (inject_Z (2 ^ Z.of_nat attempt))]
  else [].

(** Replies after which the loop goes on to its next attempt: a transport
    error, or a status that is neither 200/201 nor 403, nor a 401 that
    still calls for a refresh. *)
Definition retryable (refreshed : bool) (reply : Outcome Response) : Prop :=
  match reply with
  | Raised e => is_HTTPError e = true
  | Returned resp =>
      is_success (status_code resp) = false ∧
      status_code resp ≠ 403%Z ∧
      (status_code resp = 401%Z → refreshed = true)
  end.

(** What [_refresh_token] makes of the token endpoint's reply. *)
Definition refresh_outcome (reply : Outcome Response) : Outcome bool :=
  match reply with
  | Raised e => if is_HTTPError e then Returned false else Raised e
  | Returned resp =>
      if negb (status_code resp =? 200)%Z then Returned false
      else match json resp with
           | Raised e => if is_HTTPError e then Returned false else Raised e
           | Returned body =>
               match body !! "access_token" with
               | None => Raised (KeyError "access_token")
               | Some _ => Returned true
               end
           end
  end.

(** What [_get_user_urn] makes of the userinfo endpoint's reply: whether
    it ends normally (with or without an identity) or raises. *)
Definition urn_outcome (reply : Outcome Response) : Outcome unit :=
  match reply with
  | Raised e => if is_HTTPError e then Returned () else Raised e
  | Returned resp =>
      if negb (status_code resp =? 200)%Z then Returned ()
      else match json resp with
           | Raised e => if is_HTTPError e then Returned () else Raised e
           | Returned _ => Returned ()
           end
  end.

(** The replies that make the Publish stage raise: a POST that fails with
    something else than a transport error, a token or userinfo reply
    whose handling raises (a 200 with an unusable body), and a vector
    store that raises.  Publish failures are not among them. *)
Definition faulty (a : Action) : bool :=
  match a with
  | APost _ _ _ _ (Raised e) => negb (is_HTTPError e)
  | AToken _ _ _ reply => is_raised (refresh_outcome reply)
  | AUserinfo _ reply => is_raised (urn_outcome reply)
  | AStore _ _ _ reply => is_raised reply
  | _ => false
  end.

Inductive refresh_run : list Action → Outcome bool → Prop :=
  | refresh_unconfigured : refresh_run [] (Returned false)
  | refresh_exchange rt ci cs reply :
      refresh_run [AToken rt ci cs reply] (refresh_outcome reply).

Inductive urn_run : list Action → Prop :=
  | urn_cached : urn_run []
  | urn_fetched az reply : urn_run [AUserinfo az reply].

(** The shapes the history of one run of the retry loop can take, for the
    attempt numbers still to come and the refresh flag, with the run's result. *)
Inductive publish_run (piece : loc) (commentary : string) (max_retries : nat)
  : list nat → bool → list Action → Outcome bool → Prop :=
  | run_exhausted refreshed :
      publish_run piece commentary max_retries [] refreshed [] (Returned false)
  | run_succeeded k rest refreshed au az resp :
      is_success (status_code resp) = true →
      publish_run piece commentary max_retries (k :: rest) refreshed
        [APost piece au az commentary (Returned resp)] (Returned true)
  | run_forbidden k rest refreshed au az resp :
      status_code resp = 403%Z →
      publish_run piece commentary max_retries (k :: rest) refreshed
        [APost piece au az commentary (Returned resp)] (Returned false)
  | run_crashed k rest refreshed au az e :
      is_HTTPError e = false →
      publish_run piece commentary max_retries (k :: rest) refreshed
        [APost piece au az commentary (Raised e)] (Raised e)
  | run_retried k rest refreshed au az reply delta r :
      retryable refreshed reply →
      publish_run piece commentary max_retries rest refreshed delta r →
      publish_run piece commentary max_retries (k :: rest) refreshed
        (APost piece au az commentary reply :: backoff max_retries k ++ delta) r
  | run_refresh_failed k rest au az resp tr r :
      status_code resp = 401%Z →
      refresh_run tr r → r ≠ Returned true →
      publish_run piece commentary max_retries (k :: rest) false
        (APost piece au az commentary (Returned resp) :: tr) r
  | run_refreshed_crashed k rest au az resp tr tu e :
      status_code resp = 401%Z →
      refresh_run tr (Returned true) → urn_run tu →
      Exists (λ a, faulty a = true) tu →
      publish_run piece commentary max_retries (k :: rest) false
        (APost piece au az commentary (Returned resp) :: tr ++ tu) (Raised e)
  | run_refreshed k rest au az resp tr tu delta r :
      status_code resp = 401%Z →
      refresh_run tr (Returned true) → urn_run tu →
      publish_run piece commentary max_retries rest true delta r →
      publish_run piece commentary max_retries (k :: rest) false
        (APost piece au az commentary (Returned resp) :: tr ++ tu ++ delta) r.

(** One call of [_publish_linkedin]: nothing at all without a token, else
    the identity lookup followed, when it yields an author, by the loop. *)
Inductive publish_call (piece : loc) (commentary : string) (max_retries : nat)
  : list Action → Outcome bool → Prop :=
  | call_no_token : publish_call piece commentary max_retries [] (Returned false)
  | call_no_author tu r :
      urn_run tu → r ≠ Returned true →
      (∀ e, r = Raised e → Exists (λ a, faulty a = true) tu) →
      publish_call piece commentary max_retries tu r
  | call_attempts tu delta r :
      urn_run tu →
      publish_run piece commentary max_retries (seq 1 max_retries) false delta r →
      publish_call piece commentary max_retries (tu ++ delta) r.

(** The parts of the world the publish client never writes. *)
Definition untouched (w : World) : Env * (loc → ContentPiece) * loc * gmap string (list WebSocket) :=
  (env w, heap w, next_loc w, active_connections w).

(** One pass through the body of the [try] statement: the reply to the
    POST, what was done about it, and how the pass ends. *)
Inductive attempt_step (st : Locals)
  : Outcome Response → list Action → Outcome (Flow * Locals) → Prop :=
  | step_success resp :
      is_success (status_code resp) = true →
      attempt_step st (Returned resp) [] (Returned (Return true, st))
  | step_forbidden resp :
      status_code resp = 403%Z →
      attempt_step st (Returned resp) [] (Returned (Return false, st))
  | step_raised e :
      attempt_step st (Raised e) [] (Raised e)
  | step_other resp :
      retryable (token_refreshed st) (Returned resp) →
      attempt_step st (Returned resp) [] (Returned (Next, st))
  | step_refresh_failed resp tr :
      status_code resp = 401%Z → token_refreshed st = false →
      refresh_run tr (Returned false) →
      attempt_step st (Returned resp) tr (Returned (Return false, st))
  | step_refresh_raised resp tr e :
      status_code resp = 401%Z → token_refreshed st = false →
      refresh_run tr (Raised e) →
      attempt_step st (Returned resp) tr (Raised e)
  | step_refreshed resp tr tu st' :
      status_code resp = 401%Z → token_refreshed st = false →
      refresh_run tr (Returned true) → urn_run tu →
      token_refreshed st' = true →
      attempt_step st (Returned resp) (tr ++ tu) (Returned (Continue, st'))
  | step_refreshed_raised resp tr tu e :
      status_code resp = 401%Z → token_refreshed st = false →
      refresh_run tr (Returned true) → urn_run tu →
      is_HTTPError e = false →
      Exists (λ a, faulty a = true) tu →
      attempt_step st (Returned resp) (tr ++ tu) (Raised e).

(** ** Reading a history *)

Definition post_replies (h : list Action) : list (Outcome Response) :=
  omap (λ a, match a with APost _ _ _ _ r => Some r | _ => None end) h.

Definition commentaries (h : list Action) : list string :=
  omap (λ a, match a with APost _ _ _ c _ => Some c | _ => None end) h.

Definition token_replies (h : list Action) : list (Outcome Response) :=
  omap (λ a, match a with AToken _ _ _ r => Some r | _ => None end) h.

Definition sleeps (h : list Action) : list Q :=
  omap (λ a, match a with ASleep s => Some s | _ => None end) h.

Definition stores (h : list Action) : list (string * string * string * Outcome unit) :=
  omap (λ a, match a with AStore c p b r => Some (c, p, b, r) | _ => None end) h.


(** The pauses the loop may take over the given attempt numbers. *)
Definition backoffs (max_retries : nat) (attempts : list nat) : list Q :=
  attempts ≫= λ k, sleeps (backoff max_retries k).

(** ** Sample worlds *)

Definition response (code : Z) (body : list (string * string)) : Response :=
  {| status_code := code; text := ""; json := Returned (list_to_map body) |}.

(** Collaborators that all work; the [k]-th POST to the platform is
    answered with the [k]-th status of [script], and with [otherwise]
    once the script is used up. *)
Definition scripted (script : list Z) (otherwise : Z) : Env :=
  {| accept_reply := λ _ _, Returned ();
     send_reply := λ _ _ _, Returned ();
     post_reply := λ h _ _ _,
       Returned (response (nth (length (post_replies h)) script otherwise) []);
     token_reply := λ _ _ _ _, Returned (response 200 [("access_token", "fresh-token")]);
     userinfo_reply := λ _ _, Returned (response 200 [("sub", "test123")]);
     store_reply := λ _ _ _ _, Returned ();
     search_reply := λ _ _ _, Returned [];
     invoke_reply := λ _ _ _, Returned "A strategic brief.";
     parse_reply := λ _, ParseFallback;
     uuid_reply := λ _, "3f2a9c1e-7b1d-4c55-9a3e-5d2f8e6b0a17" |}.

(** The piece of [tests/test_publisher.py]. *)
Definition sample_piece : ContentPiece :=
  {| piece_platform := LINKEDIN;
     content := "This is a test LinkedIn post about AI trends.";
     hashtags := ["AI"; "LinkedIn"];
     scheduled_time := None;
     published := false |}.

(** A process with credentials configured, an identity cached, one piece
    at every address and nobody watching. *)
Definition configured (e : Env) : World :=
  {| env := e;
     heap := λ _, sample_piece;
     next_loc := 0;
     publisher_agent := {| _cached_user_urn := Some "urn:li:person:test123";
                           _access_token := "expired-token" |};
     settings := {| LINKEDIN_ACCESS_TOKEN := "expired-token";
                    LINKEDIN_REFRESH_TOKEN := "refresh-token";
                    LINKEDIN_CLIENT_ID := "client-id";
                    LINKEDIN_CLIENT_SECRET := "client-secret" |};
     environ := ∅;
     active_connections := ∅;
     trace := [] |}.

(** ** Statements about the publish client *)

(** The trailer that carries the hashtags: nothing for a piece without
    hashtags, else a blank line and the tags, each with its [#]. *)
Definition hashtag_trailer (tags : list string) : string :=
  match tags with
  | [] => ""
  | _ => newline +:+ newline +:+ str_join " " ((λ t, "#" +:+ t) <$> tags)
  end.

(** The pause after attempt [k]. *)
Definition delay (k : nat) : Q := inject_Z (2 ^ Z.of_nat k).

Definition is_post (a : Action) : Prop :=
  match a with APost _ _ _ _ _ => True | _ => False end.

Definition is_token (a : Action) : Prop :=
  match a with AToken _ _ _ _ => True | _ => False end.



(** ** The Publish stage *)

(** Some POST made for the object [l] was answered 200 or 201. *)
Definition has_success (l : loc) (h : list Action) : bool :=
  existsb (λ a, match a with
                | APost l' _ _ _ (Returned resp) =>
                    bool_decide (l' = l) && is_success (status_code resp)
                | _ => false
                end) h.

(** A request to the publishing platform or to its OAuth service. *)
Definition is_linkedin_call (a : Action) : bool :=
  match a with
  | APost _ _ _ _ _ | AToken _ _ _ _ | AUserinfo _ _ => true
  | _ => false
  end.

(** Steps that stay inside the process or go to the observers. *)
Definition is_event (a : Action) : Prop :=
  match a with AEnter _ | ASend _ _ _ | ASleep _ => True | _ => False end.

Definition returned_true (r : Outcome bool) : bool :=
  match r with Returned true => true | _ => false end.

(** What the stage stores for a piece. *)
Definition stored (cid : string) (w : World) (l : loc) : string * string * string :=
  (cid, platform_value (piece_platform (heap w l)), content (heap w l)).

(** The parts of the world that neither a broadcast nor a pause touches. *)
Definition kept (w : World) : Env * (loc → ContentPiece) * loc * PublisherAgent * Settings :=
  (env w, heap w, next_loc w, publisher_agent w, settings w).

(** What a stretch of the stage does to the world: [live] are the pieces
    it may have published, [done] the ones it has handed to the store. *)
Definition stage_run (cid : string) (auto : bool) (live done : list loc)
    (w : World) (r : Outcome unit) (w' : World) : Prop :=
  env w' = env w ∧ next_loc w' = next_loc w ∧
  ∃ delta,
    trace w' = trace w ++ delta ∧
    (∀ l, heap w' l = if has_success l delta then set_published (heap w l) else heap w l) ∧
    (∀ l, has_success l delta = true → l ∈ live ∧ auto = true) ∧
    (auto = false →
       Forall (λ a, is_linkedin_call a = false) delta ∧
       publisher_agent w' = publisher_agent w ∧ settings w' = settings w) ∧
    (Forall (λ a, faulty a = false) delta →
       r = Returned () ∧ (λ s, s.1) <$> stores delta = stored cid w <$> done).

(** ** The orchestrator *)





(** ** The registry of sockets *)

(** Every campaign in the registry has at least one socket. *)
Definition no_empty_entry (w : World) : Prop :=
  ∀ cid, active_connections w !! cid ≠ Some [].

(** What a campaign may do to the observers, seen from the world [w]: an
    event it sends carries the identifier [cid] and goes to a socket
    registered for [cid]; it accepts no socket. *)
Definition to_watchers (cid : string) (w : World) (a : Action) : Prop :=
  match a with
  | ASend ws event _ => campaign_id event = cid ∧ ws ∈ subscribers cid w
  | AAccept _ _ => False
  | _ => True
  end.


(** A run during which the registry can only lose sockets of [cid], and
    the observers see only events of [cid]. *)
Definition observed (cid : string) (w w' : World) : Prop :=
  (∀ c, c ≠ cid → active_connections w' !! c = active_connections w !! c) ∧
  subscribers cid w' `sublist_of` subscribers cid w ∧
  ∃ delta, trace w' = trace w ++ delta ∧ Forall (to_watchers cid w) delta.

(** ** Credentials *)

(** Whether the refresh credentials [_refresh_token] needs are there. *)
Definition can_refresh (s : Settings) : bool :=
  truthy (LINKEDIN_REFRESH_TOKEN s) && truthy (LINKEDIN_CLIENT_ID s).

(** The credentials a process holds: the agent's attributes, the settings
    and the environment variables. *)
Definition credentials (w : World) : PublisherAgent * Settings * gmap string string :=
  (publisher_agent w, settings w, environ w).

(** The agent's access token. *)
Definition access_token (w : World) : string := _access_token (publisher_agent w).

(** The access token a token exchange installs, when it succeeds. *)
Definition granted_token (reply : Outcome Response) : option string :=
  match reply with
  | Returned resp =>
      if (status_code resp =? 200)%Z then
        match json resp with
        | Returned body => body !! "access_token"
        | Raised _ => None
        end
      else None
  | Raised _ => None
  end.

(** The access token in force after a history that began with [tok]. *)
Fixpoint token_after (tok : string) (h : list Action) : string :=
  match h with
  | [] => tok
  | AToken _ _ _ reply :: h' => token_after (default tok (granted_token reply)) h'
  | _ :: h' => token_after tok h'
  end.

(** Every POST of the history presents the access token in force when it
    is made: [tok] until a token exchange succeeds, the granted one after. *)
Fixpoint presents_token (tok : string) (h : list Action) : Prop :=
  match h with
  | [] => True
  | APost _ _ az _ _ :: h' => az = bearer tok ∧ presents_token tok h'
  | AToken _ _ _ reply :: h' => presents_token (default tok (granted_token reply)) h'
  | _ :: h' => presents_token tok h'
  end.

(** What one step of the client does to the access token: the history
    grows by [delta], whose POSTs present the token in force, and the
    agent ends up with the token the history leaves in force. *)
Definition token_step (w w' : World) : Prop :=
  ∃ delta, trace w' = trace w ++ delta ∧
           presents_token (access_token w) delta ∧
           access_token w' = token_after (access_token w) delta.

(** The [Authorization] headers of the POSTs of a history. *)
Definition authorizations (h : list Action) : list string :=
  omap (λ a, match a with APost _ _ az _ _ => Some az | _ => None end) h.

(** A run of a process that holds no access token: as long as that is so,
    the credentials stay as they are and nothing is sent to the platform. *)
Definition offline (w w' : World) : Prop :=
  access_token w = "" →
  grows credentials (λ a, is_linkedin_call a = false) w w'.

(** A run of a process that cannot refresh its token: as long as that is
    so, the settings stay as they are and no token is asked for. *)
Definition stale (w w' : World) : Prop :=
  can_refresh (settings w) = false →
  grows settings (λ a, ¬ is_token a) w w'.

(** The part of the credentials the stages before Publish could touch. *)
Definition signed_in (w : World) : PublisherAgent * Settings :=
  (publisher_agent w, settings w).

(** An action that does not reach the publishing platform. *)
Definition offstage (a : Action) : Prop := is_linkedin_call a = false.

(** ** The Research and Draft stages *)

Definition searches (h : list Action) : list (string * nat * Outcome (list SearchHit)) :=
  omap (λ a, match a with ASearch q k r => Some (q, k, r) | _ => None end) h.

(** The calls of the language model made for the agent [a]: what it was
    given and what it answered. *)
Definition invocations (a : AgentName) (h : list Action)
  : list (list (string * string) * Outcome string) :=
  omap (λ x, match x with
             | AInvoke a' inputs r => if decide (a' = a) then Some (inputs, r) else None
             | _ => None
             end) h.

(** The replies of the language model to the agent [a]. *)
Definition model_replies (a : AgentName) (h : list Action) : list (Outcome string) :=
  omap (λ x, match x with
             | AInvoke a' _ r => if decide (a' = a) then Some r else None
             | _ => None
             end) h.

(** The piece the Draft stage makes of a model reply for the platform [p]:
    the [content] field of the JSON object it parses to (or the whole
    reply when it is not JSON), cut to 3000 characters, with the
    [hashtags] field (or none), unpublished and unscheduled. *)
Definition drafted (e : Env) (p : Platform) (reply : Outcome string)
    (piece : ContentPiece) : Prop :=
  ∃ result, reply = Returned result ∧
    piece_platform piece = p ∧ published piece = false ∧
    scheduled_time piece = None ∧
    match parse_reply e result with
    | ParsedJson c h =>
        content piece = str_take 3000 (default "" c) ∧ hashtags piece = default [] h
    | ParseFallback => content piece = str_take 3000 result ∧ hashtags piece = []
    | ParseRaises _ => False
    end.

(** ** A whole campaign *)



(** ** Campaign storage *)

(** What a run of the storage service added to its history. *)
Definition requests (s s' : RedisService.State) : list RedisService.Action :=
  drop (length (RedisService.trace s)) (RedisService.trace s').

(** The keys read with [GET] in a history. *)
Definition keys_read (h : list RedisService.Action) : list string :=
  omap (λ a, match a with RedisService.AGet _ key _ => Some key | _ => None end) h.

(** What a dictionary holds under [key] after the writes of the history [h]. *)
Fixpoint held (key : string) (h : list RedisService.Action) : option string :=
  match h with
  | [] => None
  | RedisService.ASet _ key' data _ (Returned _) :: h' =>
      match held key h' with
      | Some later => Some later
      | None => if decide (key' = key) then Some data else None
      end
  | _ :: h' => held key h'
  end.

(** A server that behaves as a dictionary (the mock of
    [tests/test_redis_service.py]): writes succeed and a read returns
    what was last written under the key. *)
Definition remembers (e : RedisService.Env) : Prop :=
  (∀ h c key data ex, RedisService.set_reply e h c key data ex = Returned ()) ∧
  (∀ h c key, RedisService.get_reply e h c key = Returned (held key h)).

(** The number of campaigns [list_campaigns] reads at most. *)
Definition list_bound (limit : Z) : nat := Z.to_nat (Z.max 1 limit).

(** A service that has no connection. *)
Definition degraded (s : RedisService.State) : Prop := RedisService._client s = None.

(** A request of [connect] that was answered by an exception. *)
Definition refused (a : RedisService.Action) : Prop :=
  match a with
  | RedisService.AFromUrl _ (Raised _) | RedisService.APing _ (Raised _) => True
  | _ => False
  end.

(** A codec and a dictionary-like server, for the examples. *)
Definition sample_store : RedisService.Env :=
  {| RedisService.from_url_reply := λ _ _, Returned 7;
     RedisService.ping_reply := λ _ _, Returned ();
     RedisService.aclose_reply := λ _ _, Returned ();
     RedisService.set_reply := λ _ _ _ _ _, Returned ();
     RedisService.get_reply := λ h _ key, Returned (held key h);
     RedisService.scan_reply := λ _ _ _ _, (["campaign:a1"; "campaign:a2"], None);
     RedisService.model_dump_json := RedisService.campaign_id;
     RedisService.model_validate_json := λ data,
       Returned {| RedisService.campaign_id := data; RedisService.topic := "AI agents";
                   RedisService.status := "completed"; RedisService.content := [];
                   RedisService.trend_insights := Some "Use hooks" |} |}.

(** As [sample_store], but the server cannot be reached. *)
Definition unreachable_store : RedisService.Env :=
  {| RedisService.from_url_reply := RedisService.from_url_reply sample_store;
     RedisService.ping_reply := λ _ _, Raised (RuntimeError "connection refused");
     RedisService.aclose_reply := RedisService.aclose_reply sample_store;
     RedisService.set_reply := RedisService.set_reply sample_store;
     RedisService.get_reply := RedisService.get_reply sample_store;
     RedisService.scan_reply := RedisService.scan_reply sample_store;
     RedisService.model_dump_json := RedisService.model_dump_json sample_store;
     RedisService.model_validate_json := RedisService.model_validate_json sample_store |}.

Definition sample_campaign : RedisService.CampaignResponse :=
  {| RedisService.campaign_id := "test1"; RedisService.topic := "AI agents";
     RedisService.status := "completed"; RedisService.content := [];
     RedisService.trend_insights := Some "Use hooks" |}.

(** A fresh [RedisService()]. *)
Definition fresh_service (e : RedisService.Env) : RedisService.State :=
  {| RedisService.env := e; RedisService.REDIS_URL := "redis://localhost:6379/0";
     RedisService._client := None; RedisService.trace := [] |}.

(** As [sample_store], but the scan breaks off after its first key. *)
Definition interrupted_store : RedisService.Env :=
  {| RedisService.from_url_reply := RedisService.from_url_reply sample_store;
     RedisService.ping_reply := RedisService.ping_reply sample_store;
     RedisService.aclose_reply := RedisService.aclose_reply sample_store;
     RedisService.set_reply := RedisService.set_reply sample_store;
     RedisService.get_reply := RedisService.get_reply sample_store;
     RedisService.scan_reply := λ _ _ _ _,
       (["campaign:a1"], Some (RuntimeError "connection lost"));
     RedisService.model_dump_json := RedisService.model_dump_json sample_store;
     RedisService.model_validate_json := RedisService.model_validate_json sample_store |}.

(** A service that holds a client. *)
Definition connected_service (e : RedisService.Env) : RedisService.State :=
  {| RedisService.env := e; RedisService.REDIS_URL := "redis://localhost:6379/0";
     RedisService._client := Some 7; RedisService.trace := [] |}.

(** * Reasoning about coroutines *)

Lemma with_trace_trace w : with_trace (trace w) w = w.
Proof. by destruct w. Qed.

Lemma with_trace_twice t1 t2 w : with_trace t2 (with_trace t1 w) = with_trace t2 w.
Proof. done. Qed.

Lemma with_connections_twice c1 c2 w :
  with_connections c2 (with_connections c1 w) = with_connections c2 w.
Proof. done. Qed.

Lemma with_connections_same w : with_connections (active_connections w) w = w.
Proof. by destruct w. Qed.

Lemma bind_run {A B} (m : M A) (f : A → M B) w :
  (m ≫= f) w = match m w with
               | (Returned a, w') => f a w'
               | (Raised e, w') => (Raised e, w')
               end.
Proof. done. Qed.

Lemma bind_returned {A B} (m : M A) (f : A → M B) w a w' :
  m w = (Returned a, w') → (m ≫= f) w = f a w'.
Proof. intros H. by rewrite bind_run, H. Qed.

Lemma bind_raised {A B} (m : M A) (f : A → M B) w e w' :
  m w = (Raised e, w') → (m ≫= f) w = (Raised e, w').
Proof. intros H. by rewrite bind_run, H. Qed.

Lemma bind_inv {A B} (m : M A) (f : A → M B) w r w' :
  (m ≫= f) w = (r, w') →
  (∃ a w1, m w = (Returned a, w1) ∧ f a w1 = (r, w')) ∨
  (∃ e, m w = (Raised e, w') ∧ r = Raised e).
Proof.
  rewrite bind_run. destruct (m w) as [[a|e] w1]; intros H.
  - left. by exists a, w1.
  - right. exists e. by inversion H.
Qed.

Lemma try_except_inv {A} (body : M A) catches handler w r w' :
  try_except body catches handler w = (r, w') →
  (∃ a, body w = (Returned a, w') ∧ r = Returned a) ∨
  (∃ e, body w = (Raised e, w') ∧ catches e = false ∧ r = Raised e) ∨
  (∃ e w1, body w = (Raised e, w1) ∧ catches e = true ∧ handler e w1 = (r, w')).
Proof.
  unfold try_except. destruct (body w) as [[a|e] w1]; intros H.
  - left. exists a. by inversion H.
  - right. destruct (catches e) eqn:Hc.
    + right. by exists e, w1.
    + left. exists e. by inversion H.
Qed.

Lemma total_ret {A} (a : A) : total (mret a).
Proof. intros w. by exists a, w. Qed.

Lemma total_bind {A B} (m : M A) (f : A → M B) :
  total m → (∀ a, total (f a)) → total (m ≫= f).
Proof.
  intros Hm Hf w. destruct (Hm w) as (a & w1 & H1).
  destruct (Hf a w1) as (b & w2 & H2). exists b, w2.
  by rewrite (bind_returned _ _ _ _ _ H1).
Qed.

Lemma total_try_Exception {A} (body : M A) handler :
  (∀ e, total (handler e)) → total (try_except body Exception handler).
Proof.
  intros Hh w. unfold try_except. destruct (body w) as [[a|e] w1].
  - by exists a, w1.
  - apply Hh.
Qed.

Section Along.
Context (R : relation World) `{!PreOrder R}.

Lemma along_ret {A} (a : A) : along R (mret a).
Proof. intros w r w' [= <- <-]. reflexivity. Qed.

Lemma along_raise {A} e : along R (@raise A e).
Proof. intros w r w' [= <- <-]. reflexivity. Qed.

Lemma along_gets {A} (f : World → A) : along R (gets f).
Proof. intros w r w' [= <- <-]. reflexivity. Qed.

Lemma along_json_of resp : along R (json_of resp).
Proof. intros w r w' [= <- <-]. reflexivity. Qed.

Lemma along_bind {A B} (m : M A) (f : A → M B) :
  along R m → (∀ a, along R (f a)) → along R (m ≫= f).
Proof.
  intros Hm Hf w r w' H.
  destruct (bind_inv _ _ _ _ _ H) as [(a & w1 & H1 & H2)|(e & H1 & _)].
  - etrans; [by eapply Hm | by eapply Hf].
  - by eapply Hm.
Qed.

Lemma along_try_except {A} (body : M A) catches handler :
  along R body → (∀ e, along R (handler e)) → along R (try_except body catches handler).
Proof.
  intros Hb Hh w r w' H.
  destruct (try_except_inv _ _ _ _ _ _ H)
    as [(a & H1 & _)|[(e & H1 & _)|(e & w1 & H1 & _ & H2)]].
  - by eapply Hb.
  - by eapply Hb.
  - etrans; [by eapply Hb | by eapply Hh].
Qed.

Lemma along_modify (g : World → World) : (∀ w, R w (g w)) → along R (modify g).
Proof. intros Hg w r w' [= <- <-]. apply Hg. Qed.

Lemma along_call {A} ask (record : Outcome A → Action) :
  (∀ w r, R w (with_trace (trace w ++ [record r]) w)) → along R (call ask record).
Proof. intros Hc w r w' [= <- <-]. apply Hc. Qed.

Lemma along_for_each {A} (l : list A) body :
  (∀ x, along R (body x)) → along R (for_each l body).
Proof.
  intros Hb. induction l as [|x l IH]; simpl.
  - apply along_ret.
  - apply along_bind; [apply Hb | intros _; apply IH].
Qed.
End Along.

#[global] Instance grows_preorder {B} (f : World → B) Q : PreOrder (grows f Q).
Proof.
  split.
  - intros w. split; [done|]. exists []. by rewrite app_nil_r.
  - intros w1 w2 w3 [Hf1 (d1 & Ht1 & HQ1)] [Hf2 (d2 & Ht2 & HQ2)]. split.
    + congruence.
    + exists (d1 ++ d2). rewrite Ht2, Ht1, app_assoc. split; [done|].
      by apply Forall_app.
Qed.

Lemma new_actions_app w w' delta :
  trace w' = trace w ++ delta → new_actions w w' = delta.
Proof. intros H. unfold new_actions. by rewrite H, drop_app_length. Qed.

(** * The event fan-out *)

Lemma list_remove_Some {A} `{EqDecision A} (x : A) l l' :
  list_remove x l = Some l' → l ≡ₚ x :: l'.
Proof.
  revert l'. induction l as [|y l IH]; intros l' H; simpl in H; [done|].
  destruct (decide (x = y)) as [->|Hne].
  - by inversion H.
  - destruct (list_remove x l) as [l1|] eqn:E; simplify_eq/=.
    rewrite (IH l1 eq_refl). apply Permutation_swap.
Qed.

Lemma list_remove_elem_of {A} `{EqDecision A} (x : A) l :
  x ∈ l → is_Some (list_remove x l).
Proof.
  induction l as [|y l IH]; intros Hin; simpl.
  - by apply elem_of_nil in Hin.
  - destruct (decide (x = y)); [by eexists|].
    apply elem_of_cons in Hin as [?|Hin]; [done|].
    destruct (IH Hin) as [l1 ->]. by eexists.
Qed.

Lemma list_remove_None {A} `{EqDecision A} (x : A) l :
  x ∉ l → list_remove x l = None.
Proof.
  induction l as [|y l IH]; intros Hnin; simpl; [done|].
  apply not_elem_of_cons in Hnin as [Hne Hnin].
  rewrite decide_False by done. by rewrite IH.
Qed.

Lemma remove_each_submseteq dead l :
  dead ⊆+ l → ∃ rest, remove_each dead l = Some rest ∧ l ≡ₚ dead ++ rest.
Proof.
  revert l. induction dead as [|ws dead IH]; intros l Hsub; simpl.
  - by exists l.
  - apply submseteq_cons_l in Hsub as (k & Hk & Hsub).
    assert (ws ∈ l) as Hin by (rewrite Hk; left).
    destruct (list_remove_elem_of _ _ Hin) as [l1 Hl1]. rewrite Hl1. simpl.
    apply list_remove_Some in Hl1.
    assert (k ≡ₚ l1) as Hkl by (apply (inj (cons ws)); by rewrite <- Hk).
    rewrite Hkl in Hsub. destruct (IH l1 Hsub) as (rest & Hr & Hp).
    exists rest. split; [done|]. by rewrite Hl1, Hp.
Qed.

Lemma failed_of_sublist l replies : failed_of l replies `sublist_of` l.
Proof.
  unfold failed_of. revert replies.
  induction l as [|ws l IH]; intros [|r replies]; simpl; try done.
  - apply sublist_nil_l.
  - rewrite filter_cons. destruct (decide _); simpl.
    + by apply sublist_skip.
    + by apply sublist_cons.
Qed.

Lemma failed_of_cons_ok ws l replies :
  failed_of (ws :: l) (Returned () :: replies) = failed_of l replies.
Proof. done. Qed.

Lemma failed_of_cons_raised ws l e replies :
  failed_of (ws :: l) (Raised e :: replies) = ws :: failed_of l replies.
Proof. done. Qed.

Lemma send_all_spec payload l dead w :
  ∃ replies,
    length replies = length l ∧
    send_all payload l dead w =
      (Returned (dead ++ failed_of l replies),
       with_trace (trace w ++ zip_with (λ ws r, ASend ws payload r) l replies) w).
Proof.
  revert dead w. induction l as [|ws l IH]; intros dead w.
  - exists []. split; [done|]. simpl.
    unfold failed_of; simpl. by rewrite !app_nil_r, with_trace_trace.
  - simpl. rewrite bind_run. unfold try_except at 1.
    rewrite bind_run. unfold send_text, call.
    set (r := send_reply (env w) (trace w) ws payload).
    set (w1 := with_trace (trace w ++ [ASend ws payload r]) w).
    destruct r as [[]|e] eqn:Hr.
    + simpl. destruct (IH dead w1) as (replies & Hlen & ->).
      exists (Returned () :: replies). split; [simpl; lia|].
      rewrite failed_of_cons_ok. subst w1. simpl. by rewrite <- app_assoc.
    + simpl. destruct (IH (dead ++ [ws]) w1) as (replies & Hlen & ->).
      exists (Raised e :: replies). split; [simpl; lia|].
      rewrite failed_of_cons_raised. subst w1. simpl. by rewrite <- !app_assoc.
Qed.

Lemma evict_spec cid dead l rest w :
  active_connections w !! cid = Some l →
  remove_each dead l = Some rest →
  for_each dead (λ ws, disconnect ws cid) w =
    (Returned (),
     with_connections
       (match dead, rest with
        | [], _ => active_connections w
        | _, [] => delete cid (active_connections w)
        | _, _ => <[cid := rest]> (active_connections w)
        end) w).
Proof.
  revert l w. induction dead as [|ws dead IH]; intros l w Hl Hrest.
  - simpl. by rewrite with_connections_same.
  - simpl in Hrest. destruct (list_remove ws l) as [l1|] eqn:Hrm; [|done].
    simpl in Hrest. cbn [for_each]. rewrite bind_run.
    unfold disconnect at 1. rewrite bind_run. unfold gets. rewrite Hl, Hrm.
    case_bool_decide as Hnil.
    + subst l1. destruct dead as [|ws' dead]; [|done].
      simpl in Hrest. simplify_eq. done.
    + unfold modify.
      erewrite IH; [|simpl; apply lookup_insert_eq|done].
      rewrite with_connections_twice. simpl. f_equal. f_equal.
      destruct dead as [|ws' dead].
      * simpl in Hrest. simplify_eq. by destruct rest.
      * destruct rest; [by rewrite delete_insert_eq|by rewrite insert_insert_eq].
Qed.

Lemma broadcast_event_spec event w :
  ∃ replies rest,
    let subs := subscribers (campaign_id event) w in
    let dead := failed_of subs replies in
    length replies = length subs ∧
    remove_each dead subs = Some rest ∧
    subs ≡ₚ dead ++ rest ∧
    broadcast_event event w =
      (Returned (),
       with_connections
         (match dead, rest with
          | [], _ => active_connections w
          | _, [] => delete (campaign_id event) (active_connections w)
          | _, _ => <[campaign_id event := rest]> (active_connections w)
          end)
         (with_trace (trace w ++ zip_with (λ ws r, ASend ws event r) subs replies) w)).
Proof.
  unfold broadcast_event, subscribers. rewrite bind_run. unfold gets.
  destruct (active_connections w !! campaign_id event) as [l|] eqn:Hl; simpl.
  - destruct (send_all_spec event l [] w) as (replies & Hlen & Hsend).
    destruct (remove_each_submseteq (failed_of l replies) l) as (rest & Hrest & Hperm).
    { apply sublist_submseteq, failed_of_sublist. }
    exists replies, rest. repeat split; try done.
    rewrite bind_run, Hsend. simpl.
    by erewrite evict_spec.
  - exists [], []. repeat split; try done. simpl.
    by rewrite app_nil_r, with_trace_trace, with_connections_same.
Qed.

Lemma total_broadcast_event event : total (broadcast_event event).
Proof.
  intros w. destruct (broadcast_event_spec event w) as (replies & rest & _ & _ & _ & H).
  eauto.
Qed.

Lemma Forall_sends (Q : Action → Prop) event l replies :
  (∀ ws r, Q (ASend ws event r)) →
  Forall Q (zip_with (λ ws r, ASend ws event r) l replies).
Proof.
  intros HQ. revert replies.
  induction l as [|ws l IH]; intros [|r replies]; simpl; constructor; auto.
Qed.

(** A broadcast touches the registry and the history, nothing else, and
    the history gains only sends of this event. *)
Lemma along_broadcast_event {B} (f : World → B) (Q : Action → Prop) event :
  (∀ c t w, f (with_connections c (with_trace t w)) = f w) →
  (∀ ws r, Q (ASend ws event r)) →
  along (grows f Q) (broadcast_event event).
Proof.
  intros Hf HQ w r w' Hrun.
  destruct (broadcast_event_spec event w) as (replies & rest & _ & _ & _ & H).
  rewrite H in Hrun. inversion Hrun; subst. split; [apply Hf|].
  eexists. split; [done|]. by apply Forall_sends.
Qed.

Lemma subscribers_after cid (conns : gmap string (list WebSocket)) dead rest l :
  conns !! cid = Some l ∨ (conns !! cid = None ∧ l = []) →
  remove_each dead l = Some rest →
  default [] (match dead, rest with
              | [], _ => conns
              | _, [] => delete cid conns
              | _, _ => <[cid := rest]> conns
              end !! cid) = rest ∧
  ∀ c, c ≠ cid →
       match dead, rest with
       | [], _ => conns
       | _, [] => delete cid conns
       | _, _ => <[cid := rest]> conns
       end !! c = conns !! c.
Proof.
  intros Hl Hrest. destruct dead as [|d dead].
  - simpl in Hrest. simplify_eq. split; [|done].
    by destruct Hl as [->|[-> ->]].
  - destruct rest as [|x rest].
    + split; [by rewrite lookup_delete_eq|]. intros c Hc. by rewrite lookup_delete_ne.
    + split; [by rewrite lookup_insert_eq|]. intros c Hc. by rewrite lookup_insert_ne.
Qed.

(** C8: a broadcast always returns to its caller, whatever the sends do.
    Every socket registered for the event's campaign is sent the event, in
    registration order; the registrations whose send raised are exactly
    the ones dropped from the registry (so, with each socket registered
    once, a socket whose send failed is gone and every other one is still
    subscribed and has been sent the event); other campaigns are not
    touched; and with no subscriber the world is left as it was. *)
Theorem broadcast_event_delivers_or_evicts (event : AgentEvent) (w : World) :
  ∃ w' replies,
    let cid := campaign_id event in
    let subs := subscribers cid w in
    let dead := failed_of subs replies in
    broadcast_event event w = (Returned (), w') ∧
    length replies = length subs ∧
    new_actions w w' = zip_with (λ ws r, ASend ws event r) subs replies ∧
    subs ≡ₚ dead ++ subscribers cid w' ∧
    (NoDup subs → ∀ ws, ws ∈ subs →
       (ws ∈ dead → ws ∉ subscribers cid w') ∧
       (ws ∉ dead → ws ∈ subscribers cid w')) ∧
    (∀ c, c ≠ cid → active_connections w' !! c = active_connections w !! c) ∧
    (subs = [] → w' = w).
Proof.
  destruct (broadcast_event_spec event w) as (replies & rest & Hlen & Hrest & Hperm & Hrun).
  eexists _, replies. cbn zeta. split; [exact Hrun|].
  set (cid := campaign_id event) in *. set (subs := subscribers cid w) in *.
  set (dead := failed_of subs replies) in *.
  destruct (subscribers_after cid (active_connections w) dead rest subs) as [Hsub Hother].
  { unfold subs, subscribers. destruct (active_connections w !! cid); eauto. }
  { done. }
  assert (subscribers cid
            (with_connections
               match dead, rest with
               | [], _ => active_connections w
               | _, [] => delete cid (active_connections w)
               | _, _ => <[cid := rest]> (active_connections w)
               end
               (with_trace (trace w ++ zip_with (λ ws r, ASend ws event r) subs replies) w))
          = rest) as Hsubs by exact Hsub.
  rewrite Hsubs. repeat split.
  - done.
  - by apply new_actions_app.
  - done.
  - intros Hin Hrestin.
    rewrite Hperm in H. apply NoDup_app in H as (_ & Hdisj & _). by eapply Hdisj.
  - intros Hnd. rewrite Hperm in H0. apply elem_of_app in H0 as [?|?]; done.
  - exact Hother.
  - intros Hnil.
    assert (replies = []) as Hr by (rewrite Hnil in Hlen; by destruct replies).
    assert (dead = []) as Hd by (unfold dead; by rewrite Hnil).
    rewrite Hd, Hnil, Hr. simpl.
    by rewrite app_nil_r, with_trace_trace, with_connections_same.
Qed.

Lemma disconnect_absent_campaign ws cid w :
  active_connections w !! cid = None → disconnect ws cid w = (Returned (), w).
Proof. intros H. unfold disconnect. rewrite bind_run. unfold gets. by rewrite H. Qed.

Lemma disconnect_missing_socket ws cid l w :
  active_connections w !! cid = Some l → ws ∉ l →
  disconnect ws cid w = (Raised (ValueError "list.remove(x): x not in list"), w).
Proof.
  intros H Hnin. unfold disconnect. rewrite bind_run. unfold gets.
  by rewrite H, (list_remove_None _ _ Hnin).
Qed.

(** * The publish client as a state machine *)

Lemma _refresh_token_run w r w' :
  _refresh_token w = (r, w') →
  untouched w' = untouched w ∧ ∃ tr, trace w' = trace w ++ tr ∧ refresh_run tr r.
Proof.
  unfold _refresh_token.
  cbv [mbind M_bind mret M_ret gets try_except post_access_token call json_of modify raise].
  destruct (negb _ || negb _); cbv beta.
  { intros [= <- <-]. split; [done|]. exists []. split; [by rewrite app_nil_r | constructor]. }
  intros H. repeat (case_match; simplify_eq/=);
    (split; [done|]);
    (eexists; split; [done|]);
    match goal with
    | |- refresh_run [AToken _ _ _ ?reply] ?o =>
        replace o with (refresh_outcome reply);
        [ constructor
        | simpl;
          repeat (match goal with Hx : ?l = _ |- context [?l] => rewrite Hx end; simpl);
          done ]
    end.
Qed.

Lemma refresh_run_no_HTTPError tr e :
  refresh_run tr (Raised e) → is_HTTPError e = false.
Proof.
  inversion 1 as [|rt ci cs reply Htr Hr]. unfold refresh_outcome in Hr.
  repeat (case_match; simplify_eq/=); done.
Qed.

Lemma _refresh_token_no_HTTPError w e w' :
  _refresh_token w = (Raised e, w') → is_HTTPError e = false.
Proof.
  intros H. apply _refresh_token_run in H as (_ & tr & _ & Hr).
  by eapply refresh_run_no_HTTPError.
Qed.

Lemma _get_user_urn_run w r w' :
  _get_user_urn w = (r, w') →
  untouched w' = untouched w ∧
  (∀ e, r = Raised e → is_HTTPError e = false) ∧
  ∃ tu, trace w' = trace w ++ tu ∧ urn_run tu ∧
        (∀ e, r = Raised e → Exists (λ a, faulty a = true) tu).
Proof.
  unfold _get_user_urn.
  cbv [mbind M_bind mret M_ret gets try_except get_userinfo call json_of modify raise].
  destruct (truthy_opt _); cbv beta.
  { intros [= <- <-]. repeat split; [done|].
    exists []. split; [by rewrite app_nil_r|]. split; [constructor|done]. }
  intros H. repeat (case_match; simplify_eq/=);
    (split; [done|]); (split; [by intros ? [= <-]|]);
    (eexists; split; [done|]); (split; [constructor|]);
    intros e0 [= <-]; apply Exists_cons_hd; simpl;
    repeat (match goal with Hx : ?l = _ |- context [?l] => rewrite Hx end; simpl);
    done.
Qed.

Lemma _get_user_urn_no_HTTPError w e w' :
  _get_user_urn w = (Raised e, w') → is_HTTPError e = false.
Proof. intros H. apply _get_user_urn_run in H as (_ & He & _). by apply He. Qed.

Lemma is_success_spec code :
  is_success code = true ↔ code = 200%Z ∨ code = 201%Z.
Proof.
  unfold is_success. rewrite orb_true_iff, !bool_decide_eq_true. done.
Qed.

Lemma try_body_run piece commentary st w r w' :
  try_body piece commentary st w = (r, w') →
  untouched w' = untouched w ∧
  ∃ reply tail,
    trace w' =
      trace w ++ APost piece (author st) (authorization st) commentary reply :: tail ∧
    attempt_step st reply tail r.
Proof.
  unfold try_body. intros H.
  apply bind_inv in H as [(resp & w1 & Hpost & H)|(e & Hpost & ->)];
    unfold post_rest_posts, call in Hpost; inversion Hpost as [[Hreply Hw1]]; clear Hpost.
  2: { split; [done|]. eexists _, []. split; [reflexivity|]. rewrite Hreply. constructor. }
  rewrite Hreply in Hw1.
  destruct (is_success (status_code resp)) eqn:Hok.
  { inversion H; subst. split; [done|]. eexists _, []. split; [reflexivity|]. by constructor. }
  destruct (bool_decide (status_code resp = 401%Z)) eqn:H401;
    [apply bool_decide_eq_true in H401|apply bool_decide_eq_false in H401];
    destruct (token_refreshed st) eqn:Hrefreshed; simpl in H.
  2: { (* 401 and no refresh yet *)
    apply bind_inv in H as [(refreshed & w2 & Href & H)|(e & Href & ->)];
      apply _refresh_token_run in Href as (Hu2 & tr & Ht2 & Hrr).
    2: { split; [by rewrite Hu2, <- Hw1|]. eexists _, tr.
         rewrite Ht2, <- Hw1. simpl. rewrite <- app_assoc. split; [reflexivity|].
         by constructor. }
    destruct refreshed.
    2: { inversion H; subst w'. subst r. split; [by rewrite Hu2, <- Hw1|]. eexists _, tr.
         rewrite Ht2, <- Hw1. simpl. rewrite <- app_assoc. split; [reflexivity|].
         by constructor. }
    apply bind_inv in H as [(p & w3 & Hp & H)|(e & Hp & ->)];
      unfold gets in Hp; inversion Hp; subst w3. clear Hp.
    apply bind_inv in H as [(a & w4 & Hurn & H)|(e & Hurn & ->)];
      apply _get_user_urn_run in Hurn as (Hu4 & He & tu & Ht4 & Hur & Hblame).
    - inversion H; subst w'. subst r.
      split; [by rewrite Hu4, Hu2, <- Hw1|]. eexists _, (tr ++ tu).
      rewrite Ht4, Ht2, <- Hw1. simpl. rewrite <- !app_assoc. split; [reflexivity|].
      by constructor.
    - split; [by rewrite Hu4, Hu2, <- Hw1|]. eexists _, (tr ++ tu).
      rewrite Ht4, Ht2, <- Hw1. simpl. rewrite <- !app_assoc. split; [reflexivity|].
      apply step_refreshed_raised; eauto. }
  all: destruct (bool_decide (status_code resp = 403%Z)) eqn:H403;
    [apply bool_decide_eq_true in H403|apply bool_decide_eq_false in H403];
    inversion H; subst; (split; [done|]); eexists _, []; (split; [reflexivity|]).
  all: try by constructor.
  all: apply step_other; simpl; rewrite Hrefreshed; repeat split; auto; done.
Qed.

Lemma sleep_run s w : sleep s w = (Returned (), with_trace (trace w ++ [ASleep s]) w).
Proof. done. Qed.

Lemma backoff_run max_retries attempt w :
  (if bool_decide (attempt < max_retries)
   then sleep (inject_Z (2 ^ Z.of_nat attempt))
   else mret ()) w
  = (Returned (), with_trace (trace w ++ backoff max_retries attempt) w).
Proof.
  unfold backoff. case_bool_decide; [done|].
  by rewrite app_nil_r, with_trace_trace.
Qed.

Lemma publish_loop_run piece max_retries commentary attempts st w r w' :
  publish_loop piece max_retries commentary attempts st w = (r, w') →
  untouched w' = untouched w ∧
  ∃ delta,
    trace w' = trace w ++ delta ∧
    publish_run piece commentary max_retries attempts (token_refreshed st) delta r.
Proof.
  revert st w. induction attempts as [|k rest IH]; intros st w H.
  { inversion H; subst. split; [done|]. exists []. rewrite app_nil_r. split; [done|].
    constructor. }
  cbn [publish_loop] in H.
  apply bind_inv in H as [([flow st'] & w1 & Hstep & H)|(e & Hstep & ->)];
    apply try_except_inv in Hstep
      as [(a & Hbody & Ha)|[(e' & Hbody & Hcatch & He)|(e' & w0 & Hbody & Hcatch & Hh)]];
    simplify_eq/=;
    apply try_body_run in Hbody as (Hu & reply & tail & Ht & Hshape).
  - (* the body returned *)
    inversion Hshape as [resp Hok|resp H403|e0|resp Hretry|resp tr H401 Href Hrr|resp tr e0 H401 Href Hrr|resp tr tu st2 H401 Href Hrr Hur Hst2|resp tr tu e0 H401 Href Hrr Hur He0 Hblame]; subst; simpl in H.
    + inversion H; subst. split; [done|]. eexists. split; [exact Ht|]. by constructor.
    + inversion H; subst. split; [done|]. eexists. split; [exact Ht|]. by constructor.
    + rewrite bind_run, backoff_run in H.
      apply IH in H as (Hu' & delta & Ht' & Hrun). split; [by rewrite Hu'|].
      exists (APost piece (author st') (authorization st') commentary (Returned resp)
                :: backoff max_retries k ++ delta).
      split.
      * rewrite Ht'. simpl. rewrite Ht. by rewrite <- !app_assoc.
      * by constructor.
    + inversion H; subst. split; [done|]. eexists. split; [exact Ht|].
      rewrite Href. by apply run_refresh_failed.
    + apply IH in H as (Hu' & delta & Ht' & Hrun). split; [by rewrite Hu'|].
      exists (APost piece (author st) (authorization st) commentary (Returned resp)
                :: tr ++ tu ++ delta).
      split.
      * rewrite Ht', Ht. by repeat (rewrite <- ?app_assoc; simpl).
      * rewrite Href. rewrite Hst2 in Hrun. by constructor.
  - (* the handler ran: a transport error of the POST *)
    inversion Hh; subst. simpl in H. rewrite bind_run, backoff_run in H.
    inversion Hshape as [resp Hok|resp H403|e0|resp Hretry|resp tr H401 Href Hrr|resp tr e0 H401 Href Hrr|resp tr tu st2 H401 Href Hrr Hur Hst2|resp tr tu e0 H401 Href Hrr Hur He0 Hblame]; subst.
    + apply IH in H as (Hu' & delta & Ht' & Hrun). split; [by rewrite Hu'|].
      exists (APost piece (author st') (authorization st') commentary (Raised e')
                :: backoff max_retries k ++ delta).
      split.
      * rewrite Ht'. simpl. rewrite Ht. by rewrite <- !app_assoc.
      * by constructor.
    + by rewrite (refresh_run_no_HTTPError _ _ Hrr) in Hcatch.
    + by rewrite He0 in Hcatch.
  - (* the body raised something else *)
    split; [done|]. eexists. split; [exact Ht|].
    inversion Hshape as [resp Hok|resp H403|e0|resp Hretry|resp tr H401 Href Hrr|resp tr e0 H401 Href Hrr|resp tr tu st2 H401 Href Hrr Hur Hst2|resp tr tu e0 H401 Href Hrr Hur He0 Hblame]; subst.
    + by constructor.
    + rewrite Href. by apply run_refresh_failed.
    + rewrite Href. by apply run_refreshed_crashed.
Qed.

Lemma _publish_linkedin_run piece max_retries w r w' :
  _publish_linkedin piece max_retries w = (r, w') →
  untouched w' = untouched w ∧
  ∃ delta,
    trace w' = trace w ++ delta ∧
    publish_call piece (outgoing_text (heap w piece)) max_retries delta r.
Proof.
  unfold _publish_linkedin. rewrite bind_run. unfold gets at 1.
  destruct (negb (truthy _)).
  { intros [= <- <-]. split; [done|]. exists []. rewrite app_nil_r. split; [done|].
    constructor. }
  rewrite bind_run. unfold gets at 1. intros H.
  apply bind_inv in H as [(a & w1 & Hurn & H)|(e & Hurn & ->)];
    apply _get_user_urn_run in Hurn as (Hu & _ & tu & Ht & Hur & Hblame).
  2: { split; [done|]. exists tu. split; [done|].
       apply call_no_author; [done|done|]. intros e0 [= <-]. by apply (Hblame e). }
  destruct (negb (truthy_opt a)).
  { inversion H; subst. split; [done|]. exists tu. split; [done|].
    apply call_no_author; [done|done|by intros ? [=]]. }
  rewrite bind_run in H. unfold gets at 1 in H.
  apply publish_loop_run in H as (Hu' & delta & Ht' & Hrun).
  split; [by rewrite Hu'|]. exists (tu ++ delta). split.
  - by rewrite Ht', Ht, <- app_assoc.
  - by apply call_attempts.
Qed.

(** * What the state machine allows *)

Lemma post_replies_app h1 h2 : post_replies (h1 ++ h2) = post_replies h1 ++ post_replies h2.
Proof. apply omap_app. Qed.

Lemma commentaries_app h1 h2 : commentaries (h1 ++ h2) = commentaries h1 ++ commentaries h2.
Proof. apply omap_app. Qed.

Lemma token_replies_app h1 h2 :
  token_replies (h1 ++ h2) = token_replies h1 ++ token_replies h2.
Proof. apply omap_app. Qed.

Lemma sleeps_app h1 h2 : sleeps (h1 ++ h2) = sleeps h1 ++ sleeps h2.
Proof. apply omap_app. Qed.

Lemma backoff_quiet max_retries k :
  post_replies (backoff max_retries k) = [] ∧
  commentaries (backoff max_retries k) = [] ∧
  token_replies (backoff max_retries k) = [].
Proof. unfold backoff. by case_bool_decide. Qed.

Lemma refresh_run_quiet tr r :
  refresh_run tr r →
  post_replies tr = [] ∧ commentaries tr = [] ∧ sleeps tr = [] ∧
  length (token_replies tr) ≤ 1.
Proof. destruct 1; simpl; auto. Qed.

Lemma urn_run_quiet tu :
  urn_run tu →
  post_replies tu = [] ∧ commentaries tu = [] ∧ sleeps tu = [] ∧ token_replies tu = [].
Proof. by destruct 1. Qed.

(** Rewrites a goal about a history built by the state machine into one
    about its parts. *)
Ltac read_history :=
  repeat match goal with
  | H : refresh_run _ _ |- _ =>
      let H1 := fresh in let H2 := fresh in let H3 := fresh in let H4 := fresh in
      pose proof (refresh_run_quiet _ _ H) as (H1 & H2 & H3 & H4); clear H
  | H : urn_run _ |- _ =>
      let H1 := fresh in let H2 := fresh in let H3 := fresh in let H4 := fresh in
      pose proof (urn_run_quiet _ H) as (H1 & H2 & H3 & H4); clear H
  end;
  simpl;
  rewrite ?post_replies_app, ?commentaries_app, ?token_replies_app, ?sleeps_app,
    ?(proj1 (backoff_quiet _ _)), ?(proj1 (proj2 (backoff_quiet _ _))),
    ?(proj2 (proj2 (backoff_quiet _ _)));
  repeat match goal with H : _ = [] |- _ => rewrite !H end;
  simpl.

Section PublishRun.
Context (piece : loc) (commentary : string) (max_retries : nat).

Lemma publish_run_attempts attempts refreshed delta r :
  publish_run piece commentary max_retries attempts refreshed delta r →
  length (post_replies delta) ≤ length attempts.
Proof. induction 1; read_history; rewrite ?length_app; simpl; lia. Qed.

Lemma publish_run_commentaries attempts refreshed delta r :
  publish_run piece commentary max_retries attempts refreshed delta r →
  Forall (λ c, c = commentary) (commentaries delta).
Proof. induction 1; read_history; repeat constructor; auto. Qed.

Lemma publish_run_one_refresh attempts refreshed delta r :
  publish_run piece commentary max_retries attempts refreshed delta r →
  length (token_replies delta) ≤ (if refreshed then 0 else 1).
Proof.
  induction 1; read_history; rewrite ?length_app; simpl in *;
    try destruct refreshed; lia.
Qed.

Lemma publish_run_sleeps attempts refreshed delta r :
  publish_run piece commentary max_retries attempts refreshed delta r →
  sleeps delta `sublist_of` backoffs max_retries attempts.
Proof.
  unfold backoffs.
  induction 1; read_history; try apply sublist_nil_l.
  - by apply sublist_app.
  - by apply sublist_inserts_l.
Qed.

Lemma publish_run_exhausts attempts refreshed delta r :
  publish_run piece commentary max_retries attempts refreshed delta r →
  Forall (retryable false) (post_replies delta) →
  length (post_replies delta) = length attempts ∧
  sleeps delta = backoffs max_retries attempts ∧
  r = Returned false.
Proof.
  unfold backoffs.
  induction 1 as [|k rest refreshed au az resp Hok|k rest refreshed au az resp H403
                  |k rest refreshed au az e He|k rest refreshed au az reply delta r Hretry Hrun IH
                  |k rest au az resp tr r H401|k rest au az resp tr tu e H401
                  |k rest au az resp tr tu delta r H401];
    read_history; intros Hall; try apply Forall_cons in Hall as [Hfirst Hall].
  - done.
  - destruct Hfirst as (Hno & _). congruence.
  - by destruct Hfirst as (_ & Hno & _).
  - simpl in Hfirst. congruence.
  - destruct (IH Hall) as (-> & -> & ->). done.
  - destruct Hfirst as (_ & _ & Hno). by specialize (Hno H401).
  - destruct Hfirst as (_ & _ & Hno). by specialize (Hno H401).
  - destruct Hfirst as (_ & _ & Hno). by specialize (Hno H401).
Qed.

Lemma publish_run_true attempts refreshed delta r :
  publish_run piece commentary max_retries attempts refreshed delta r →
  r = Returned true →
  ∃ pre au az resp,
    delta = pre ++ [APost piece au az commentary (Returned resp)] ∧
    is_success (status_code resp) = true.
Proof.
  induction 1 as [|k rest refreshed au az resp Hok|k rest refreshed au az resp H403
                  |k rest refreshed au az e He|k rest refreshed au az reply delta r Hretry Hrun IH
                  |k rest au az resp tr r H401 Hrr Hne|k rest au az resp tr tu e H401
                  |k rest au az resp tr tu delta r H401 Hrr Hur Hrun IH];
    intros Hr; try done.
  - by exists [], au, az, resp.
  - destruct (IH Hr) as (pre & au' & az' & resp' & -> & Hok).
    exists (APost piece au az commentary reply :: backoff max_retries k ++ pre), au', az', resp'.
    split; [|done]. by repeat (rewrite <- ?app_assoc; simpl).
  - destruct (IH Hr) as (pre & au' & az' & resp' & -> & Hok).
    exists (APost piece au az commentary (Returned resp) :: tr ++ tu ++ pre), au', az', resp'.
    split; [|done]. by repeat (rewrite <- ?app_assoc; simpl).
Qed.

End PublishRun.

Lemma str_take_length n s : String.length (str_take n s) = n `min` String.length s.
Proof.
  revert s. induction n as [|n IH]; intros [|c s]; simpl; try done.
  by rewrite IH.
Qed.

Lemma str_append_cons c s t : String c s +:+ t = String c (s +:+ t).
Proof. done. Qed.

Lemma str_append_empty s : s +:+ "" = s.
Proof. induction s as [|c s IH]; [done|]. by rewrite str_append_cons, IH. Qed.

Lemma str_append_assoc s1 s2 s3 : (s1 +:+ s2) +:+ s3 = s1 +:+ (s2 +:+ s3).
Proof. induction s1 as [|c s1 IH]; [done|]. by rewrite !str_append_cons, IH. Qed.

Lemma str_append_length s1 s2 :
  String.length (s1 +:+ s2) = String.length s1 + String.length s2.
Proof. induction s1 as [|c s1 IH]; [done|]. rewrite str_append_cons. simpl. by rewrite IH. Qed.

Lemma outgoing_text_eq p :
  outgoing_text p = str_take 3000 (content p +:+ hashtag_trailer (hashtags p)).
Proof.
  unfold outgoing_text, hashtag_trailer. destruct (hashtags p).
  - by rewrite str_append_empty.
  - done.
Qed.

Lemma backoffs_seq max_retries a n :
  a + n = S max_retries →
  backoffs max_retries (seq a n) = delay <$> seq a (n - 1).
Proof.
  unfold backoffs. revert a. induction n as [|n IH]; intros a Ha; [done|].
  cbn [seq mbind list_bind]. unfold backoff at 1. destruct n as [|n].
  - rewrite bool_decide_eq_false_2 by lia. done.
  - rewrite bool_decide_eq_true_2 by lia.
    rewrite (IH (S a)) by lia. simpl. by rewrite Nat.sub_0_r.
Qed.

Lemma _publish_linkedin_call piece max_retries w :
  let run := _publish_linkedin piece max_retries w in
  untouched run.2 = untouched w ∧
  trace run.2 = trace w ++ new_actions w run.2 ∧
  publish_call piece (outgoing_text (heap w piece)) max_retries
    (new_actions w run.2) run.1.
Proof.
  cbn zeta. destruct (_publish_linkedin piece max_retries w) as [r w'] eqn:H.
  apply _publish_linkedin_run in H as (Hu & delta & Ht & Hcall).
  simpl. by rewrite (new_actions_app _ _ _ Ht).
Qed.

Section PublishCall.
Context (piece : loc) (commentary : string) (max_retries : nat).
Context (delta : list Action) (r : Outcome bool).
Context (Hcall : publish_call piece commentary max_retries delta r).

Lemma publish_call_attempts : length (post_replies delta) ≤ max_retries.
Proof.
  destruct Hcall as [|tu r Hur _|tu delta r Hur Hrun]; read_history; [lia..|].
  apply publish_run_attempts in Hrun. by rewrite length_seq in Hrun.
Qed.

Lemma publish_call_commentaries : Forall (λ c, c = commentary) (commentaries delta).
Proof.
  destruct Hcall as [|tu r Hur _|tu delta r Hur Hrun]; read_history; [done..|].
  by eapply publish_run_commentaries.
Qed.

Lemma publish_call_one_refresh : length (token_replies delta) ≤ 1.
Proof.
  destruct Hcall as [|tu r Hur _|tu delta r Hur Hrun]; read_history; [lia..|].
  by apply publish_run_one_refresh in Hrun.
Qed.

Lemma publish_call_sleeps : sleeps delta `sublist_of` delay <$> seq 1 (max_retries - 1).
Proof.
  destruct Hcall as [|tu r Hur _|tu delta r Hur Hrun]; read_history;
    [apply sublist_nil_l..|].
  apply publish_run_sleeps in Hrun. by rewrite backoffs_seq in Hrun by lia.
Qed.

Lemma publish_call_exhausts :
  post_replies delta ≠ [] →
  Forall (retryable false) (post_replies delta) →
  length (post_replies delta) = max_retries ∧
  sleeps delta = delay <$> seq 1 (max_retries - 1) ∧
  r = Returned false.
Proof.
  destruct Hcall as [|tu r Hur _|tu delta r Hur Hrun]; read_history; [done..|].
  intros _ Hall. apply publish_run_exhausts in Hrun as (Hlen & Hsl & ->); [|done].
  by rewrite Hlen, Hsl, length_seq, backoffs_seq by lia.
Qed.

Lemma publish_call_true :
  r = Returned true →
  ∃ pre au az resp,
    delta = pre ++ [APost piece au az commentary (Returned resp)] ∧
    is_success (status_code resp) = true.
Proof.
  destruct Hcall as [|tu r Hur Hne|tu delta r Hur Hrun]; intros Hr; [done..|].
  destruct (publish_run_true _ _ _ _ _ _ _ Hrun Hr) as (pre & au & az & resp & -> & Hok).
  exists (tu ++ pre), au, az, resp. by rewrite <- app_assoc.
Qed.

End PublishCall.

(** C4: one call makes at most three POSTs; the pauses it takes are, in
    order, among 2 s (after the first attempt) and 4 s (after the second),
    the delay doubling with the attempt number; when every attempt fails
    in a way that calls for a retry (a transport error, or a status other
    than 200, 201, 401 and 403), all three attempts are made, with both
    pauses, and the call returns false; and the call returns true only
    when its last POST was answered 200 or 201. *)
Theorem publish_attempts_bounded (piece : loc) (w : World) :
  let run := _publish_linkedin piece 3 w in
  let delta := new_actions w run.2 in
  length (post_replies delta) ≤ 3 ∧
  sleeps delta `sublist_of` [delay 1; delay 2] ∧
  delay 1 = inject_Z 2 ∧ delay 2 = inject_Z 4 ∧
  (post_replies delta ≠ [] →
   Forall (retryable false) (post_replies delta) →
   length (post_replies delta) = 3 ∧
   sleeps delta = [delay 1; delay 2] ∧
   run.1 = Returned false) ∧
  (run.1 = Returned true →
   ∃ resp, last (post_replies delta) = Some (Returned resp) ∧
           is_success (status_code resp) = true).
Proof.
  cbn zeta. destruct (_publish_linkedin_call piece 3 w) as (_ & _ & Hcall).
  split; [by eapply publish_call_attempts|].
  split; [by eapply (publish_call_sleeps _ _ 3)|].
  split; [done|]. split; [done|].
  split; [by eapply (publish_call_exhausts _ _ 3)|].
  intros Hr. destruct (publish_call_true _ _ _ _ _ Hcall Hr) as (pre & au & az & resp & -> & Hok).
  exists resp. rewrite post_replies_app. simpl. by rewrite last_snoc.
Qed.

(** C5: the text sent is the body followed by the hashtag trailer, cut to
    its first 3000 characters; it is never longer than 3000 characters;
    every POST of the call carries exactly this text; and a body of 3500
    characters goes out as 3000 characters. *)
Theorem outgoing_text_truncated (piece : loc) (max_retries : nat) (w : World) :
  let obj := heap w piece in
  let run := _publish_linkedin piece max_retries w in
  outgoing_text obj = str_take 3000 (content obj +:+ hashtag_trailer (hashtags obj)) ∧
  String.length (outgoing_text obj) ≤ 3000 ∧
  Forall (λ c, c = outgoing_text obj) (commentaries (new_actions w run.2)) ∧
  (String.length (content obj) = 3500 → String.length (outgoing_text obj) = 3000).
Proof.
  cbn zeta. destruct (_publish_linkedin_call piece max_retries w) as (_ & _ & Hcall).
  split; [apply outgoing_text_eq|].
  split; [rewrite outgoing_text_eq, str_take_length; lia|].
  split; [by eapply publish_call_commentaries|].
  intros Hlen. rewrite outgoing_text_eq, str_take_length, str_append_length. lia.
Qed.

(** * Locating an attempt inside a run *)

Lemma app_split_after (P : Action → Prop) x pre a post rest :
  Forall (λ b, ¬ P b) x → P a →
  pre ++ a :: post = x ++ rest →
  ∃ pre', pre = x ++ pre' ∧ pre' ++ a :: post = rest.
Proof.
  intros Hx Ha. revert pre. induction Hx as [|b x Hb Hx IH]; intros pre Heq.
  - by exists pre.
  - destruct pre as [|b' pre]; simplify_eq/=; [done|].
    destruct (IH pre) as (pre' & -> & <-); [done|]. by exists pre'.
Qed.

Lemma backoff_no P max_retries k :
  (∀ s, ¬ P (ASleep s)) → Forall (λ b, ¬ P b) (backoff max_retries k).
Proof. intros HP. unfold backoff. case_bool_decide; repeat constructor. apply HP. Qed.

Lemma refresh_run_no_post tr r : refresh_run tr r → Forall (λ b, ¬ is_post b) tr.
Proof. destruct 1; repeat constructor; auto. Qed.

Lemma urn_run_no_post tu : urn_run tu → Forall (λ b, ¬ is_post b) tu.
Proof. destruct 1; repeat constructor; auto. Qed.

Lemma urn_run_no_token tu : urn_run tu → Forall (λ b, ¬ is_token b) tu.
Proof. destruct 1; repeat constructor; auto. Qed.

Lemma is_success_not_auth code :
  is_success code = true → code ≠ 403%Z ∧ code ≠ 401%Z.
Proof. intros [-> | ->]%is_success_spec; done. Qed.

(** Closes a case whose assumptions about a reply contradict each other. *)
Ltac status_clash :=
  exfalso;
  repeat match goal with
  | H : retryable _ (Returned _) |- _ => destruct H as (? & ? & ?)
  | H : retryable _ (Raised _) |- _ => simpl in H
  | H : ?c = 401%Z → _ = true, H' : ?c = 401%Z |- _ => specialize (H H')
  end;
  first
    [ congruence
    | repeat match goal with
      | H : is_success _ = true |- _ => apply is_success_not_auth in H; destruct H
      end;
      first [ congruence | by auto ] ].

Section Locate.
Context (piece : loc) (commentary : string) (max_retries : nat).


(** The part of a run that starts at one of its POSTs is itself a run,
    from the attempt that POST belongs to. *)
Lemma publish_run_at attempts refreshed delta r :
  publish_run piece commentary max_retries attempts refreshed delta r →
  ∀ pre a post, is_post a → delta = pre ++ a :: post →
  ∃ earlier k rest refreshed',
    attempts = earlier ++ k :: rest ∧
    length earlier = length (post_replies pre) ∧
    (refreshed = false → token_replies pre = [] → refreshed' = false) ∧
    publish_run piece commentary max_retries (k :: rest) refreshed' (a :: post) r.
Proof.
  induction 1 as [|k rest refreshed au az resp Hok|k rest refreshed au az resp H403
                  |k rest refreshed au az e He|k rest refreshed au az reply delta r Hretry Hrun IH
                  |k rest au az resp tr r H401 Hrr Hne|k rest au az resp tr tu e H401 Hrr Hur
                  |k rest au az resp tr tu delta r H401 Hrr Hur Hrun IH];
    intros pre a post Ha Heq;
    (destruct pre as [|b pre]; simpl in Heq;
     [try (injection Heq as <- <-)|try (injection Heq as <- Heq)]);
    try done.
  - exists [], k, rest, refreshed. repeat split; auto. by constructor.
  - by destruct pre.
  - exists [], k, rest, refreshed. repeat split; auto. by constructor.
  - by destruct pre.
  - exists [], k, rest, refreshed. repeat split; auto. by constructor.
  - by destruct pre.
  - exists [], k, rest, refreshed. repeat split; auto. by constructor.
  - destruct (app_split_after is_post (backoff max_retries k) pre a post delta)
      as (pre' & -> & <-); [apply backoff_no; by intros ? []|done..|].
    destruct (IH pre' a post Ha eq_refl)
      as (earlier & k' & rest' & refreshed' & -> & Hlen & Hflag & Hsub).
    exists (k :: earlier), k', rest', refreshed'. read_history.
    repeat split; auto.
  - exists [], k, rest, false. repeat split; auto. by constructor.
  - exfalso. apply refresh_run_no_post in Hrr. rewrite Heq in Hrr.
    rewrite Forall_app in Hrr. destruct Hrr as [_ Hrr].
    by apply Forall_cons in Hrr as [? _].
  - exists [], k, rest, false. repeat split; auto. by apply run_refreshed_crashed.
  - exfalso. apply refresh_run_no_post in Hrr. apply urn_run_no_post in Hur.
    assert (Forall (λ b, ¬ is_post b) (pre ++ a :: post)) as Hall
      by (rewrite <- Heq; by apply Forall_app).
    rewrite Forall_app in Hall. destruct Hall as [_ Hall].
    by apply Forall_cons in Hall as [? _].
  - exists [], k, rest, false. repeat split; auto. by apply run_refreshed.
  - rewrite app_assoc in Heq.
    destruct (app_split_after is_post (tr ++ tu) pre a post delta)
      as (pre' & -> & <-);
      [apply Forall_app; split;
         [by eapply refresh_run_no_post|by apply urn_run_no_post]|done..|].
    destruct (IH pre' a post Ha eq_refl)
      as (earlier & k' & rest' & refreshed' & -> & Hlen & Hflag & Hsub).
    exists (k :: earlier), k', rest', refreshed'.
    repeat split; auto.
    + revert Hlen. read_history. by intros ->.
    + intros _ Ht. exfalso. revert Ht. inversion Hrr; subst. done.
Qed.

(** What follows a POST, by the reply it received. *)
Lemma publish_run_head k rest refreshed l au az c reply post r :
  publish_run piece commentary max_retries (k :: rest) refreshed
    (APost l au az c reply :: post) r →
  l = piece ∧ c = commentary ∧
  (∀ resp, reply = Returned resp → is_success (status_code resp) = true →
     post = [] ∧ r = Returned true) ∧
  (∀ resp, reply = Returned resp → status_code resp = 403%Z →
     post = [] ∧ r = Returned false) ∧
  (retryable false reply →
     ∃ delta, post = backoff max_retries k ++ delta ∧
              publish_run piece commentary max_retries rest refreshed delta r) ∧
  (∀ resp, reply = Returned resp → status_code resp = 401%Z → refreshed = false →
     (∃ tr, refresh_run tr (Returned true) ∧
            ((∃ tu delta, post = tr ++ tu ++ delta ∧ urn_run tu ∧
                 publish_run piece commentary max_retries rest true delta r) ∨
             (∃ tu e, post = tr ++ tu ∧ urn_run tu ∧ r = Raised e)))
     ∨ (refresh_run post r ∧ r ≠ Returned true)).
Proof.
  inversion 1 as [|k0 rest0 refreshed0 au0 az0 resp Hok|k0 rest0 refreshed0 au0 az0 resp H403
                  |k0 rest0 refreshed0 au0 az0 e He|k0 rest0 refreshed0 au0 az0 reply0 delta r0 Hretry Hrun
                  |k0 rest0 au0 az0 resp tr r0 H401 Hrr Hne|k0 rest0 au0 az0 resp tr tu e H401 Hrr Hur
                  |k0 rest0 au0 az0 resp tr tu delta r0 H401 Hrr Hur Hrun];
    subst; (split; [done|]); (split; [done|]);
    repeat split; intros; simplify_eq; try (by status_clash).
  - by exists delta.
  - by right.
  - left. exists tr. split; [done|]. right. by exists tu, e.
  - left. exists tr. split; [done|]. left. by exists tu, delta.
Qed.

End Locate.





Lemma refresh_run_true tr :
  refresh_run tr (Returned true) →
  ∃ rt ci cs reply, tr = [AToken rt ci cs reply] ∧ refresh_outcome reply = Returned true.
Proof. inversion 1 as [|rt ci cs reply Htr Hr]. by exists rt, ci, cs, reply. Qed.






Lemma publish_attempts_bounded_witness :
  let w := configured (scripted [] 500) in
  let run := _publish_linkedin 0 3 w in
  length (post_replies (new_actions w run.2)) = 3 ∧
  sleeps (new_actions w run.2) = [inject_Z 2; inject_Z 4] ∧
  run.1 = Returned false.
Proof.
  cbn zeta.
  destruct (publish_attempts_bounded 0 (configured (scripted [] 500)))
    as (_ & _ & _ & _ & Hall & _).
  apply Hall.
  - by vm_compute.
  - vm_compute. repeat constructor; done.
Defined.

Lemma outgoing_text_truncated_witness :
  let long := {| piece_platform := LINKEDIN; content := str_repeat (Ascii.ascii_of_nat 65) 3500;
                 hashtags := ["AI"]; scheduled_time := None; published := false |} in
  String.length (outgoing_text long) = 3000.
Proof.
  cbn zeta.
  set (w := with_heap (λ _, {| piece_platform := LINKEDIN; content := str_repeat (Ascii.ascii_of_nat 65) 3500;
                               hashtags := ["AI"]; scheduled_time := None;
                               published := false |}) 0
              (configured (scripted [] 201))).
  destruct (outgoing_text_truncated 0 3 w) as (_ & _ & _ & Hlen).
  apply Hlen. by vm_compute.
Defined.

(** * Unsubscribing twice *)

(** C9 at work: two sockets watch campaign ["c1"]; the first disconnect of
    socket 1 returns and leaves socket 2 registered; the second one
    raises [ValueError], because the campaign is still in the registry
    and [list.remove] does not find the socket. *)
Lemma disconnect_twice_raises :
  let w := with_connections {["c1" := [1; 2]]} (configured (scripted [] 201)) in
  ∃ w1,
    disconnect 1 "c1" w = (Returned (), w1) ∧
    subscribers "c1" w1 = [2] ∧
    disconnect 1 "c1" w1 = (Raised (ValueError "list.remove(x): x not in list"), w1).
Proof.
  cbn zeta. eexists. split; [reflexivity|]. split; [by vm_compute|].
  eapply disconnect_missing_socket; [by vm_compute|].
  by intros ?%list_elem_of_singleton.
Qed.

(** Once the last socket of a campaign is gone, further disconnects are
    no-ops: the guard on the campaign key covers this case only. *)
Lemma disconnect_twice_last_subscriber ws cid w w1 :
  subscribers cid w = [ws] →
  disconnect ws cid w = (Returned (), w1) →
  disconnect ws cid w1 = (Returned (), w1).
Proof.
  unfold subscribers, disconnect. rewrite !bind_run. unfold gets.
  destruct (active_connections w !! cid) as [l|] eqn:Hl; simpl; [|done].
  intros ->. simpl. rewrite decide_True by done. simpl.
  intros [= <-]. simpl. by rewrite lookup_delete_eq.
Qed.

(** * The Publish stage *)

Lemma has_success_app l h1 h2 :
  has_success l (h1 ++ h2) = has_success l h1 || has_success l h2.
Proof. apply existsb_app. Qed.

Lemma stores_app h1 h2 : stores (h1 ++ h2) = stores h1 ++ stores h2.
Proof. apply omap_app. Qed.

Lemma has_success_spec l h :
  has_success l h = true ↔
  ∃ pre au az c resp post,
    h = pre ++ APost l au az c (Returned resp) :: post ∧
    (status_code resp = 200%Z ∨ status_code resp = 201%Z).
Proof.
  unfold has_success. rewrite existsb_exists. split.
  - intros (a & Hin & Ha).
    destruct a as [| | | |l' au az c [resp|]| | | | | |]; try done.
    apply andb_true_iff in Ha as [->%bool_decide_eq_true Hok%is_success_spec].
    apply list_elem_of_In, list_elem_of_split in Hin as (pre & post & ->).
    by exists pre, au, az, c, resp, post.
  - intros (pre & au & az & c & resp & post & -> & Hok).
    exists (APost l au az c (Returned resp)). split.
    + apply in_app_iff. right. by left.
    + apply andb_true_iff. split; [by apply bool_decide_eq_true|by apply is_success_spec].
Qed.

Lemma events_read d :
  Forall is_event d →
  (∀ l, has_success l d = false) ∧ stores d = [] ∧
  Forall (λ a, faulty a = false) d ∧ Forall (λ a, is_linkedin_call a = false) d.
Proof.
  induction 1 as [|a d Ha Hd (IH1 & IH2 & IH3 & IH4)]; [done|].
  destruct a; try done; simpl; repeat split; auto.
Qed.

Lemma refresh_run_read tr r :
  refresh_run tr r →
  (∀ l, has_success l tr = false) ∧
  (∀ e, r = Raised e → Exists (λ a, faulty a = true) tr).
Proof.
  destruct 1 as [|rt ci cs reply]; split; try done.
  intros e He. apply Exists_cons_hd. simpl. by rewrite He.
Qed.

Lemma urn_run_read tu : urn_run tu → ∀ l, has_success l tu = false.
Proof. by destruct 1. Qed.

Lemma backoff_read max_retries k l : has_success l (backoff max_retries k) = false.
Proof. unfold backoff. by case_bool_decide. Qed.

Lemma publish_run_success piece commentary max_retries attempts refreshed delta r :
  publish_run piece commentary max_retries attempts refreshed delta r →
  (∀ l, has_success l delta = bool_decide (l = piece) && returned_true r) ∧
  (∀ e, r = Raised e → Exists (λ a, faulty a = true) delta).
Proof.
  induction 1 as [|k rest refreshed au az resp Hok|k rest refreshed au az resp H403
                  |k rest refreshed au az e He|k rest refreshed au az reply delta r Hretry Hrun [IH1 IH2]
                  |k rest au az resp tr r H401 Hrr Hne|k rest au az resp tr tu e H401 Hrr Hur Hblame
                  |k rest au az resp tr tu delta r H401 Hrr Hur Hrun [IH1 IH2]].
  - split; [|done]. intros l. by rewrite andb_false_r.
  - split; [|done]. intros l. simpl. rewrite Hok, orb_false_r, !andb_true_r.
    apply bool_decide_ext. naive_solver.
  - split; [|done]. intros l. simpl.
    destruct (is_success (status_code resp)) eqn:Hok; [status_clash|].
    by rewrite !andb_false_r.
  - split.
    + intros l. simpl. by rewrite andb_false_r.
    + intros ? [= <-]. apply Exists_cons_hd. simpl. by rewrite He.
  - split.
    + intros l. cbn [has_success existsb]. fold (has_success l (backoff max_retries k ++ delta)).
      rewrite has_success_app, backoff_read, IH1. simpl.
      destruct reply as [resp|e]; [|done].
      destruct Hretry as (-> & _). by rewrite andb_false_r.
    + intros e He. apply Exists_cons_tl, Exists_app. right. by apply (IH2 e).
  - destruct (refresh_run_read _ _ Hrr) as [Hnone Hwho]. split.
    + intros l. cbn [has_success existsb]. fold (has_success l tr). rewrite Hnone.
      destruct (is_success (status_code resp)) eqn:Hok; [status_clash|].
      rewrite andb_false_r. simpl. destruct r as [[]|]; try done; simpl; by rewrite andb_false_r.
    + intros e He. apply Exists_cons_tl. by apply (Hwho e).
  - split.
    + intros l. cbn [has_success existsb]. fold (has_success l (tr ++ tu)).
      rewrite has_success_app, (proj1 (refresh_run_read _ _ Hrr)), (urn_run_read _ Hur).
      destruct (is_success (status_code resp)) eqn:Hok; [status_clash|].
      by rewrite !andb_false_r.
    + intros _ _. apply Exists_cons_tl, Exists_app. by right.
  - split.
    + intros l. cbn [has_success existsb]. fold (has_success l (tr ++ tu ++ delta)).
      rewrite !has_success_app, (proj1 (refresh_run_read _ _ Hrr)), (urn_run_read _ Hur), IH1.
      destruct (is_success (status_code resp)) eqn:Hok; [status_clash|].
      by rewrite andb_false_r.
    + intros e He. apply Exists_cons_tl, Exists_app. right. apply Exists_app. right.
      by apply (IH2 e).
Qed.

Lemma publish_run_no_store piece commentary max_retries attempts refreshed delta r :
  publish_run piece commentary max_retries attempts refreshed delta r →
  stores delta = [].
Proof.
  induction 1; simpl; rewrite ?stores_app;
    repeat match goal with
    | H : refresh_run _ _ |- _ => destruct H
    | H : urn_run _ |- _ => destruct H
    end;
    simpl; unfold backoff; try case_bool_decide; auto.
Qed.

Lemma publish_call_success piece commentary max_retries delta r :
  publish_call piece commentary max_retries delta r →
  (∀ l, has_success l delta = bool_decide (l = piece) && returned_true r) ∧
  (∀ e, r = Raised e → Exists (λ a, faulty a = true) delta) ∧
  stores delta = [].
Proof.
  destruct 1 as [|tu r Hur Hne Hblame|tu delta r Hur Hrun].
  - repeat split; try done. intros l. by rewrite andb_false_r.
  - repeat split; try done.
    + intros l. rewrite (urn_run_read _ Hur). destruct r as [[]|]; try done;
        by rewrite andb_false_r.
    + by destruct Hur.
  - destruct (publish_run_success _ _ _ _ _ _ _ Hrun) as [Hs Hb]. repeat split.
    + intros l. by rewrite has_success_app, (urn_run_read _ Hur), Hs.
    + intros e He. apply Exists_app. right. by apply (Hb e).
    + rewrite stores_app, (publish_run_no_store _ _ _ _ _ _ _ Hrun). by destruct Hur.
Qed.

Lemma broadcast_event_quiet event w r w' :
  broadcast_event event w = (r, w') →
  r = Returned () ∧ grows kept is_event w w'.
Proof.
  intros H. split.
  - destruct (total_broadcast_event event w) as ([] & w1 & H1). congruence.
  - by eapply (along_broadcast_event kept is_event event).
Qed.

Lemma stage_run_raised cid auto live1 live2 done1 done2 w e w1 :
  stage_run cid auto live1 done1 w (Raised e) w1 →
  stage_run cid auto (live1 ++ live2) (done1 ++ done2) w (Raised e) w1.
Proof.
  intros (He & Hn & delta & Ht & Hheap & Hwho & Hdraft & Hok).
  split; [done|]. split; [done|]. exists delta.
  split; [done|]. split; [done|]. split; [|split; [done|]].
  - intros l Hl. destruct (Hwho l Hl). split; [|done]. apply elem_of_app. by left.
  - intros Hall. by destruct (Hok Hall).
Qed.

Lemma stage_run_seq cid auto live1 live2 done1 done2 w w1 r w2 :
  stage_run cid auto live1 done1 w (Returned ()) w1 →
  stage_run cid auto live2 done2 w1 r w2 →
  stage_run cid auto (live1 ++ live2) (done1 ++ done2) w r w2.
Proof.
  intros (He1 & Hn1 & d1 & Ht1 & Hheap1 & Hwho1 & Hdraft1 & Hok1)
         (He2 & Hn2 & d2 & Ht2 & Hheap2 & Hwho2 & Hdraft2 & Hok2).
  split; [congruence|]. split; [congruence|]. exists (d1 ++ d2).
  split; [by rewrite Ht2, Ht1, app_assoc|].
  assert (∀ l, stored cid w1 l = stored cid w l) as Hstored.
  { intros l. unfold stored. rewrite Hheap1. by destruct (has_success l d1). }
  split; [|split; [|split]].
  - intros l. rewrite has_success_app, Hheap2, Hheap1.
    by destruct (has_success l d1), (has_success l d2).
  - intros l Hl. rewrite has_success_app in Hl.
    apply orb_true_iff in Hl as [Hl|Hl].
    + destruct (Hwho1 l Hl). split; [|done]. apply elem_of_app. by left.
    + destruct (Hwho2 l Hl). split; [|done]. apply elem_of_app. by right.
  - intros Hauto. destruct (Hdraft1 Hauto) as (Hq1 & Hp1 & Hs1).
    destruct (Hdraft2 Hauto) as (Hq2 & Hp2 & Hs2).
    split; [by apply Forall_app|]. split; congruence.
  - intros [Hall1 Hall2]%Forall_app.
    destruct (Hok1 Hall1) as [_ Hst1]. destruct (Hok2 Hall2) as [-> Hst2].
    split; [done|].
    rewrite stores_app, !fmap_app, Hst1, Hst2. f_equal.
    apply list_fmap_ext. intros _ l _. apply Hstored.
Qed.

(** A broadcast or a pause. *)
Lemma stage_run_quiet cid auto w w1 :
  grows kept is_event w w1 → stage_run cid auto [] [] w (Returned ()) w1.
Proof.
  intros [Hkept (delta & Ht & Hev)]. unfold kept in Hkept.
  destruct (events_read _ Hev) as (Hs & Hst & Hf & Hl).
  split; [congruence|]. split; [congruence|]. exists delta.
  split; [done|]. split; [|split; [|split]].
  - intros l. rewrite Hs. congruence.
  - intros l. by rewrite Hs.
  - intros _. split; [done|]. split; congruence.
  - intros _. by rewrite Hst.
Qed.

(** The publish call for a piece, with the assignment that follows it. *)
Lemma stage_run_publish cid piece w r w1 :
  _publish_linkedin piece 3 w = (r, w1) →
  stage_run cid true [piece] [] w
    (match r with Returned _ => Returned () | Raised e => Raised e end)
    (if returned_true r then mark_published piece w1 else w1).
Proof.
  intros H. apply _publish_linkedin_run in H as (Hu & delta & Ht & Hcall).
  unfold untouched in Hu.
  destruct (publish_call_success _ _ _ _ _ Hcall) as (Hs & Hb & Hst).
  assert (heap w1 = heap w) as Hheap by congruence.
  split; [destruct (returned_true r); simpl; congruence|].
  split; [destruct (returned_true r); simpl; congruence|].
  exists delta. split; [by destruct (returned_true r)|].
  split; [|split; [|split]].
  - intros l. rewrite Hs. destruct (returned_true r) eqn:Hr; simpl.
    + case_bool_decide as Hl; simpl.
      * subst l. by rewrite fn_lookup_insert, Hheap.
      * by rewrite fn_lookup_insert_ne, Hheap.
    + by rewrite andb_false_r, Hheap.
  - intros l. rewrite Hs. intros [Hl%bool_decide_eq_true _]%andb_true_iff.
    split; [|done]. subst l. by apply list_elem_of_singleton.
  - done.
  - intros Hall. rewrite Hst. split; [|done].
    destruct r as [b|e]; [done|]. exfalso.
    specialize (Hb e eq_refl). apply Exists_exists in Hb as (a & Hin & Ha).
    rewrite Forall_forall in Hall. specialize (Hall a Hin). congruence.
Qed.

(** The hand-over of a piece to the vector store. *)
Lemma stage_run_store cid auto piece w r w1 :
  store_campaign_results cid (platform_value (piece_platform (heap w piece)))
    (content (heap w piece)) w = (r, w1) →
  stage_run cid auto [] [piece] w r w1.
Proof.
  unfold store_campaign_results, call. intros [= <- <-].
  split; [done|]. split; [done|]. eexists [_]. split; [done|].
  split; [done|]. split; [done|].
  split; [intros _; split; [by repeat constructor|done]|].
  intros Hall. apply Forall_cons in Hall as [Hr _]. simpl in Hr.
  destruct (store_reply _ _ _ _ _) as [[]|e]; done.
Qed.

(** In draft mode a piece is in [live] without ever being published. *)
Lemma stage_run_draft cid auto live w w1 :
  grows kept is_event w w1 → stage_run cid auto live [] w (Returned ()) w1.
Proof.
  intros Hq. apply (stage_run_quiet cid auto) in Hq.
  destruct Hq as (He & Hn & delta & Ht & Hheap & Hwho & Hdraft & Hok).
  split; [done|]. split; [done|]. exists delta.
  split; [done|]. split; [done|]. split; [|done].
  intros l Hl. destruct (Hwho l Hl) as [Hin _]. by apply elem_of_nil in Hin.
Qed.

Lemma bind_broadcast {B} event (k : M B) w r w' :
  (broadcast_event event ≫= λ _, k) w = (r, w') →
  ∃ w1, grows kept is_event w w1 ∧ k w1 = (r, w').
Proof.
  intros H. apply bind_inv in H as [([] & w1 & Hb & H)|(e & Hb & ->)];
    apply broadcast_event_quiet in Hb as [Hr Hq]; [eauto|done].
Qed.

Lemma note_quiet a w : is_event a → grows kept is_event w (with_trace (trace w ++ [a]) w).
Proof. intros Ha. split; [done|]. exists [a]. split; [done|]. by constructor. Qed.

Lemma stage_run_platform cid auto live done w r w1 l :
  stage_run cid auto live done w r w1 →
  piece_platform (heap w1 l) = piece_platform (heap w l) ∧
  content (heap w1 l) = content (heap w l).
Proof.
  intros (_ & _ & delta & _ & Hheap & _). rewrite Hheap.
  by destruct (has_success l delta).
Qed.

Lemma publish_piece_stage cid auto piece w r w' :
  publish_piece cid auto piece w = (r, w') →
  stage_run cid auto [piece] [piece] w r w'.
Proof.
  unfold publish_piece. rewrite bind_run. unfold gets at 1. intros H.
  assert (∃ rA wA,
    stage_run cid auto [piece] [] w rA wA ∧
    match rA with
    | Returned _ =>
        store_campaign_results cid (platform_value (piece_platform (heap w piece)))
          (content (heap wA piece)) wA = (r, w')
    | Raised e => r = Raised e ∧ w' = wA
    end) as (rA & wA & HA & Hrest).
  { destruct auto.
    - apply bind_inv in H as [([] & wA & HA & H)|(e & HA & ->)].
      + exists (Returned ()), wA. split; [|exact H].
        apply bind_broadcast in HA as (w1 & Hq1 & HA).
        apply bind_inv in HA as [([] & w2 & Hs & HA)|(e & Hs & ?)]; [|done].
        inversion Hs; subst w2. clear Hs.
        apply bind_inv in HA as [(b & w3 & Hp & HA)|(e & Hp & ?)]; [|done].
        apply (stage_run_publish cid) in Hp. simpl in Hp.
        eapply (stage_run_seq _ _ [] [piece] [] []); [by apply stage_run_quiet|].
        eapply (stage_run_seq _ _ [] [piece] [] []);
          [by apply stage_run_quiet, (note_quiet (ASleep (1 # 2)))|].
        eapply (stage_run_seq _ _ [piece] [] [] []); [exact Hp|].
        destruct b; simpl in *.
        * unfold modify in HA at 1. rewrite bind_run in HA.
          apply broadcast_event_quiet in HA as [_ Hq]. by apply stage_run_quiet.
        * apply broadcast_event_quiet in HA as [_ Hq]. by apply stage_run_quiet.
      + exists (Raised e), w'. split; [|done].
        apply bind_broadcast in HA as (w1 & Hq1 & HA).
        apply bind_inv in HA as [([] & w2 & Hs & HA)|(e' & Hs & ?)]; [|done].
        inversion Hs; subst w2. clear Hs.
        apply bind_inv in HA as [(b & w3 & Hp & HA)|(e' & Hp & He)].
        * exfalso. destruct b; simpl in HA.
          -- unfold modify in HA at 1. rewrite bind_run in HA.
             by apply broadcast_event_quiet in HA as [? _].
          -- by apply broadcast_event_quiet in HA as [? _].
        * injection He as <-. apply (stage_run_publish cid) in Hp. simpl in Hp.
          eapply (stage_run_seq _ _ [] [piece] [] []); [by apply stage_run_quiet|].
          eapply (stage_run_seq _ _ [] [piece] [] []);
            [by apply stage_run_quiet, (note_quiet (ASleep (1 # 2)))|].
          exact Hp.
    - apply bind_broadcast in H as (w1 & Hq1 & H).
      exists (Returned ()), w1. split; [|exact H].
      apply (stage_run_draft cid false [piece] w w1 Hq1). }
  destruct rA as [[]|e].
  - destruct (stage_run_platform _ _ _ _ _ _ _ piece HA) as [Hp Hc].
    rewrite <- Hp in Hrest. apply (stage_run_store cid auto) in Hrest.
    apply (stage_run_seq _ _ [piece] [] [] [piece] _ _ _ _ HA Hrest).
  - destruct Hrest as [-> ->].
    apply (stage_run_raised _ _ [piece] [] [] [piece] _ _ _ HA).
Qed.

Lemma for_each_stage cid auto pieces w r w' :
  for_each pieces (publish_piece cid auto) w = (r, w') →
  stage_run cid auto pieces pieces w r w'.
Proof.
  revert w. induction pieces as [|piece pieces IH]; intros w H.
  - inversion H; subst. apply stage_run_quiet. reflexivity.
  - cbn [for_each] in H.
    apply bind_inv in H as [([] & w1 & Hp & H)|(e & Hp & ->)];
      apply publish_piece_stage in Hp.
    + apply IH in H. apply (stage_run_seq _ _ [piece] pieces [piece] pieces _ _ _ _ Hp H).
    + apply (stage_run_raised _ _ [piece] pieces [piece] pieces _ _ _ Hp).
Qed.

Lemma PublisherAgent_run_stage cid pieces auto w :
  let run := PublisherAgent_run cid pieces auto w in
  ∃ r, stage_run cid auto pieces pieces w r run.2 ∧
       run.1 = match r with Returned _ => Returned pieces | Raised e => Raised e end.
Proof.
  cbn zeta. unfold PublisherAgent_run. rewrite bind_run. unfold note, modify.
  set (w0 := with_trace (trace w ++ [AEnter PUBLISHER]) w).
  rewrite bind_run.
  destruct (for_each pieces (publish_piece cid auto) w0) as [[[]|e] w1] eqn:H;
    apply for_each_stage in H; simpl.
  - exists (Returned ()). split; [|done].
    apply (stage_run_seq _ _ [] pieces [] pieces w w0); [|done].
    by apply stage_run_quiet, (note_quiet (AEnter PUBLISHER)).
  - exists (Raised e). split; [|done].
    apply (stage_run_seq _ _ [] pieces [] pieces w w0); [|done].
    by apply stage_run_quiet, (note_quiet (AEnter PUBLISHER)).
Qed.

(** C6: a piece that entered the Publish stage unpublished comes out
    published only if auto-publish was on, the piece was in the batch, and
    a POST made for this very piece was answered 200 or 201 (the one case
    in which the publish call returns true). *)
Theorem published_only_on_success (cid : string) (pieces : list loc) (auto : bool)
    (w : World) (l : loc) :
  let run := PublisherAgent_run cid pieces auto w in
  published (heap w l) = false →
  published (heap run.2 l) = true →
  auto = true ∧ l ∈ pieces ∧
  ∃ pre au az c resp post,
    new_actions w run.2 = pre ++ APost l au az c (Returned resp) :: post ∧
    (status_code resp = 200%Z ∨ status_code resp = 201%Z).
Proof.
  cbn zeta. intros Hbefore Hafter.
  destruct (PublisherAgent_run_stage cid pieces auto w)
    as (r & (_ & _ & delta & Ht & Hheap & Hwho & _) & _).
  rewrite (new_actions_app _ _ _ Ht). rewrite Hheap in Hafter.
  destruct (has_success l delta) eqn:Hs; [|congruence].
  destruct (Hwho l Hs) as [Hin Hauto]. split; [done|]. split; [done|].
  by apply has_success_spec.
Qed.

(** C7: as long as no collaborator raises (publish failures, whatever
    their kind, do not count as that), the stage returns the very list it
    was given and has handed every piece of it, in order, to the store; a
    piece whose POSTs were all refused is exactly as it was (so still an
    unpublished draft), and a piece with a POST answered 200 or 201 is
    published, whatever happened to the others. *)
Theorem publish_failures_do_not_abort (cid : string) (pieces : list loc) (auto : bool)
    (w : World) :
  let run := PublisherAgent_run cid pieces auto w in
  let delta := new_actions w run.2 in
  Forall (λ a, faulty a = false) delta →
  run.1 = Returned pieces ∧
  (λ s, s.1) <$> stores delta = stored cid w <$> pieces ∧
  (∀ l, has_success l delta = false → heap run.2 l = heap w l) ∧
  (∀ l, has_success l delta = true → heap run.2 l = set_published (heap w l)).
Proof.
  cbn zeta.
  destruct (PublisherAgent_run_stage cid pieces auto w)
    as (r & (_ & _ & delta & Ht & Hheap & _ & _ & Hok) & Hr).
  rewrite (new_actions_app _ _ _ Ht). intros Hall.
  destruct (Hok Hall) as [-> Hst]. split; [done|]. split; [done|].
  split; intros l Hl; by rewrite Hheap, Hl.
Qed.

(** C10: with auto-publish off the stage sends nothing to the publishing
    platform or its OAuth service, leaves every piece and the credentials
    exactly as they were, can only return the list it was given, and does
    return it unless the vector store raises. *)
Theorem draft_mode_is_a_frame (cid : string) (pieces : list loc) (w : World) :
  let run := PublisherAgent_run cid pieces false w in
  let delta := new_actions w run.2 in
  Forall (λ a, is_linkedin_call a = false) delta ∧
  (∀ l, heap run.2 l = heap w l) ∧
  publisher_agent run.2 = publisher_agent w ∧
  settings run.2 = settings w ∧
  (∀ out, run.1 = Returned out → out = pieces) ∧
  (Forall (λ s, s.2 = Returned ()) (stores delta) → run.1 = Returned pieces).
Proof.
  cbn zeta.
  destruct (PublisherAgent_run_stage cid pieces false w)
    as (r & (_ & _ & delta & Ht & Hheap & Hwho & Hdraft & Hok) & Hr).
  rewrite (new_actions_app _ _ _ Ht).
  destruct (Hdraft eq_refl) as (Hquiet & Hagent & Hsettings).
  split; [done|]. split; [|split; [done|split; [done|split]]].
  - intros l. rewrite Hheap. destruct (has_success l delta) eqn:Hs; [|done].
    by destruct (Hwho l Hs).
  - intros out. rewrite Hr. destruct r; congruence.
  - intros Hstores. rewrite Hr.
    assert (Forall (λ a, faulty a = false) delta) as Hall.
    { clear -Hquiet Hstores. induction Hquiet as [|a d Ha Hd IH]; [done|].
      destruct a; try done; simpl in *.
      all: first
        [ apply Forall_cons in Hstores as [Hr Hstores]; simpl in Hr; subst;
          constructor; [done|by apply IH]
        | constructor; [done|by apply IH] ]. }
    by destruct (Hok Hall) as [-> _].
Qed.

Lemma published_only_on_success_witness :
  let w := configured (scripted [500; 500; 500]%Z 201) in
  let run := PublisherAgent_run "camp1" [0; 1] true w in
  ∃ pre au az c resp post,
    new_actions w run.2 = pre ++ APost 1 au az c (Returned resp) :: post ∧
    (status_code resp = 200%Z ∨ status_code resp = 201%Z).
Proof.
  cbn zeta.
  apply (published_only_on_success "camp1" [0; 1] true
           (configured (scripted [500; 500; 500]%Z 201)) 1).
  - reflexivity.
  - by vm_compute.
Defined.

Lemma publish_failures_do_not_abort_witness :
  let w := configured (scripted [500; 500; 500]%Z 201) in
  let run := PublisherAgent_run "camp1" [0; 1] true w in
  run.1 = Returned [0; 1] ∧
  published (heap run.2 0) = false ∧
  published (heap run.2 1) = true.
Proof.
  cbn zeta.
  destruct (publish_failures_do_not_abort "camp1" [0; 1] true
              (configured (scripted [500; 500; 500]%Z 201)))
    as (Hr & _ & Hfail & Hgood).
  { vm_compute. repeat constructor. }
  split; [exact Hr|]. split.
  - rewrite Hfail; [done|by vm_compute].
  - rewrite Hgood; [done|by vm_compute].
Defined.

Lemma draft_mode_is_a_frame_witness :
  let w := configured (scripted [] 201) in
  let run := PublisherAgent_run "camp1" [0; 1] false w in
  run.1 = Returned [0; 1] ∧ published (heap run.2 0) = false.
Proof.
  cbn zeta.
  destruct (draft_mode_is_a_frame "camp1" [0; 1] (configured (scripted [] 201)))
    as (_ & Hheap & _ & _ & _ & Hr).
  split.
  - apply Hr. vm_compute. repeat constructor.
  - by rewrite Hheap.
Defined.

Lemma broadcast_event_delivers_or_evicts_witness :
  let event := publisher_event "c1" RUNNING LINKEDIN "Publishing" in
  let w := with_connections {["c1" := [1; 2]]} (configured (scripted [] 201)) in
  ∃ w', broadcast_event event w = (Returned (), w') ∧ subscribers "c1" w' = [1; 2].
Proof.
  cbn zeta.
  destruct (broadcast_event_delivers_or_evicts
              (publisher_event "c1" RUNNING LINKEDIN "Publishing")
              (with_connections {["c1" := [1; 2]]} (configured (scripted [] 201))))
    as (w' & replies & Hrun & _).
  exists w'. split; [exact Hrun|].
  vm_compute in Hrun. injection Hrun as <-. by vm_compute.
Defined.

(** * The orchestrator *)








(** * The registry of sockets *)

Lemma list_remove_snoc {A} `{EqDecision A} (x : A) l :
  x ∉ l → list_remove x (l ++ [x]) = Some l.
Proof.
  induction l as [|y l IH]; intros Hnin; simpl.
  - by rewrite decide_True.
  - apply not_elem_of_cons in Hnin as [Hne Hnin].
    rewrite decide_False by done. by rewrite IH.
Qed.

Lemma list_remove_sublist {A} `{EqDecision A} (x : A) l l' :
  list_remove x l = Some l' → l' `sublist_of` l.
Proof.
  revert l'. induction l as [|y l IH]; intros l' H; simpl in H; [done|].
  destruct (decide (x = y)) as [->|Hne].
  - inversion H; subst. by apply sublist_cons.
  - destruct (list_remove x l) as [l1|] eqn:E; simplify_eq/=.
    apply sublist_skip. by apply IH.
Qed.

Lemma connect_run ws cid w :
  connect ws cid w =
    match accept_reply (env w) (trace w) ws with
    | Returned _ =>
        (Returned (),
         with_connections (<[cid := subscribers cid w ++ [ws]]> (active_connections w))
           (with_trace (trace w ++ [AAccept ws (Returned ())]) w))
    | Raised e => (Raised e, with_trace (trace w ++ [AAccept ws (Raised e)]) w)
    end.
Proof.
  unfold connect, accept, call, subscribers. rewrite bind_run.
  destruct (accept_reply (env w) (trace w) ws) as [[]|e]; [|done].
  unfold modify. simpl. f_equal. f_equal.
  destruct (active_connections w !! cid) as [l|] eqn:Hl; simpl.
  - by rewrite Hl.
  - by rewrite lookup_insert_eq, insert_insert_eq.
Qed.

Lemma disconnect_run ws cid w :
  disconnect ws cid w =
    match active_connections w !! cid with
    | None => (Returned (), w)
    | Some l =>
        match list_remove ws l with
        | None => (Raised (ValueError "list.remove(x): x not in list"), w)
        | Some [] => (Returned (), with_connections (delete cid (active_connections w)) w)
        | Some l' => (Returned (), with_connections (<[cid := l']> (active_connections w)) w)
        end
    end.
Proof.
  unfold disconnect. rewrite bind_run. unfold gets.
  destruct (active_connections w !! cid) as [l|]; [|done].
  destruct (list_remove ws l) as [[|x l']|]; done.
Qed.

Lemma disconnect_returns ws cid w l l' :
  active_connections w !! cid = Some l → list_remove ws l = Some l' →
  ∃ m, disconnect ws cid w = (Returned (), with_connections m w) ∧
       default [] (m !! cid) = l' ∧ m !! cid ≠ Some [] ∧
       (∀ c, c ≠ cid → m !! c = active_connections w !! c) ∧
       m = if bool_decide (l' = []) then delete cid (active_connections w)
           else <[cid := l']> (active_connections w).
Proof.
  intros Hl Hrm. unfold disconnect. rewrite bind_run. unfold gets. rewrite Hl, Hrm.
  case_bool_decide as Hnil; eexists; (split; [reflexivity|]).
  - subst l'. rewrite lookup_delete_eq. repeat split; try done.
    intros c Hc. by rewrite lookup_delete_ne.
  - rewrite lookup_insert_eq. repeat split; try done.
    + congruence.
    + intros c Hc. by rewrite lookup_insert_ne.
Qed.

(** X1: [connect] asks the socket to accept, and nothing else.  If the
    handshake returns, the socket becomes the last subscriber of the
    campaign (a campaign that had none gets its first entry); if it
    raises, the exception goes to the caller and the registry is as it
    was.  Other campaigns are never touched. *)
Theorem connect_registers_last (ws : WebSocket) (cid : string) (w : World) :
  let reply := accept_reply (env w) (trace w) ws in
  let run := connect ws cid w in
  run.1 = reply ∧
  new_actions w run.2 = [AAccept ws reply] ∧
  (∀ c, c ≠ cid → active_connections run.2 !! c = active_connections w !! c) ∧
  match reply with
  | Returned _ => active_connections run.2 !! cid = Some (subscribers cid w ++ [ws])
  | Raised _ => active_connections run.2 = active_connections w
  end.
Proof.
  cbn zeta. rewrite connect_run.
  destruct (accept_reply (env w) (trace w) ws) as [[]|e]; simpl.
  - split; [done|]. split; [by apply new_actions_app|].
    split; [|by rewrite lookup_insert_eq].
    intros c Hc. by rewrite lookup_insert_ne.
  - split; [done|]. split; [by apply new_actions_app|]. done.
Qed.

(** X2: [disconnect] raises exactly when the campaign is in the registry
    and the socket is not among its subscribers, and then changes nothing.
    For a subscribed socket it removes one registration, keeps the others
    in their order and never leaves an empty entry behind.  Other
    campaigns and the history are untouched. *)
Theorem disconnect_removes_one_registration (ws : WebSocket) (cid : string) (w : World) :
  let run := disconnect ws cid w in
  (is_raised run.1 = true ↔ active_connections w !! cid ≠ None ∧ ws ∉ subscribers cid w) ∧
  (is_raised run.1 = true → run.2 = w) ∧
  (ws ∈ subscribers cid w →
     subscribers cid w ≡ₚ ws :: subscribers cid run.2 ∧
     subscribers cid run.2 `sublist_of` subscribers cid w ∧
     active_connections run.2 !! cid ≠ Some []) ∧
  (∀ c, c ≠ cid → active_connections run.2 !! c = active_connections w !! c) ∧
  trace run.2 = trace w.
Proof.
  cbn zeta. unfold subscribers.
  destruct (active_connections w !! cid) as [l|] eqn:Hl; simpl.
  2: { rewrite disconnect_absent_campaign by done. simpl.
       split; [split; [done|by intros [? _]]|]. split; [done|].
       split; [by intros ?%elem_of_nil|done]. }
  destruct (list_remove ws l) as [l'|] eqn:Hrm.
  - assert (ws ∈ l) as Hin.
    { apply list_remove_Some in Hrm. rewrite Hrm. left. }
    pose proof (list_remove_Some _ _ _ Hrm) as Hperm.
    pose proof (list_remove_sublist _ _ _ Hrm) as Hsub.
    destruct (disconnect_returns _ _ _ _ _ Hl Hrm) as (m & -> & Hcid & Hne & Hother & _).
    simpl. rewrite Hcid.
    split; [split; [done|by intros [_ ?]]|]. split; [done|]. done.
  - assert (ws ∉ l) as Hnin.
    { intros Hin. apply list_remove_elem_of in Hin as [? ?]. congruence. }
    rewrite (disconnect_missing_socket _ _ _ _ Hl Hnin). simpl. rewrite Hl.
    split; [done|]. split; [done|]. done.
Qed.

(** X3: a socket that was connected can be disconnected: the call
    returns, and every campaign has the subscribers it had before the
    connect, up to their order; for a socket that was not subscribed
    already they are exactly the ones before, and so is the registry
    itself when it had no empty entry. *)
Theorem connect_then_disconnect (ws : WebSocket) (cid : string) (w w1 : World) :
  connect ws cid w = (Returned (), w1) →
  ∃ w2,
    disconnect ws cid w1 = (Returned (), w2) ∧
    (∀ c, subscribers c w2 ≡ₚ subscribers c w) ∧
    (ws ∉ subscribers cid w → ∀ c, subscribers c w2 = subscribers c w) ∧
    (ws ∉ subscribers cid w → no_empty_entry w →
     active_connections w2 = active_connections w).
Proof.
  rewrite connect_run.
  destruct (accept_reply (env w) (trace w) ws) as [[]|e]; [|done].
  intros [= <-].
  set (l := subscribers cid w).
  destruct (list_remove_elem_of ws (l ++ [ws])) as [l' Hrm].
  { apply elem_of_app. right. by left. }
  assert (l' ≡ₚ l) as Hperm.
  { apply list_remove_Some in Hrm. apply (inj (cons ws)).
    rewrite <- Hrm. by rewrite Permutation_app_comm. }
  assert (ws ∉ l → l' = l) as Hfresh.
  { intros Hnin. rewrite (list_remove_snoc _ _ Hnin) in Hrm. congruence. }
  destruct (disconnect_returns ws cid
              (with_connections (<[cid := l ++ [ws]]> (active_connections w))
                 (with_trace (trace w ++ [AAccept ws (Returned ())]) w))
              (l ++ [ws]) l')
    as (m & Hrun & Hcid & _ & Hother & Hm); [apply lookup_insert_eq|exact Hrm|].
  eexists. split; [exact Hrun|].
  assert (∀ c, default [] (m !! c) = if decide (c = cid) then l' else subscribers c w) as Hsubs.
  { intros c. destruct (decide (c = cid)) as [->|Hne]; [done|].
    rewrite (Hother c Hne). simpl. unfold subscribers. by rewrite lookup_insert_ne. }
  split; [|split].
  - intros c. unfold subscribers at 1. simpl. rewrite Hsubs.
    destruct (decide (c = cid)) as [->|]; done.
  - intros Hnin c. unfold subscribers at 1. simpl. rewrite Hsubs.
    destruct (decide (c = cid)) as [->|]; [by apply Hfresh|done].
  - intros Hnin Hinv. simpl. rewrite Hm. clear Hm. simpl. rewrite (Hfresh Hnin).
    specialize (Hinv cid). unfold l, subscribers in *.
    destruct (active_connections w !! cid) as [l0|] eqn:Hl0; simpl.
    + case_bool_decide as Hnil; [by rewrite Hnil in Hinv|].
      rewrite insert_insert_eq. by apply insert_id.
    + rewrite delete_insert_eq. by apply delete_id.
Qed.

Lemma connect_then_disconnect_witness :
  let w := with_connections {["c1" := [1; 2]]} (configured (scripted [] 201)) in
  ∃ w1 w2,
    connect 3 "c1" w = (Returned (), w1) ∧
    disconnect 3 "c1" w1 = (Returned (), w2) ∧
    active_connections w2 = active_connections w.
Proof.
  cbn zeta.
  destruct (connect 3 "c1" (with_connections {["c1" := [1; 2]]} (configured (scripted [] 201))))
    as [r w1] eqn:Hc.
  assert (r = Returned ()) as -> by (by vm_compute in Hc; injection Hc as <- _).
  destruct (connect_then_disconnect _ _ _ _ Hc) as (w2 & Hd & _ & _ & Hsame).
  exists w1, w2. split; [done|]. split; [done|]. apply Hsame.
  - vm_compute. intros H. repeat (apply elem_of_cons in H as [H|H]; [done|]).
    by apply elem_of_nil in H.
  - intros c. simpl. destruct (decide (c = "c1")) as [->|Hne].
    + by rewrite lookup_singleton_eq.
    + by rewrite lookup_singleton_ne.
Defined.

(** X4: no operation of the manager creates an empty entry: in a registry
    where every campaign has a subscriber, this is still so after
    [connect], after [disconnect] and after [broadcast_event], whatever
    their outcome. *)
Theorem registry_has_no_empty_entry (w : World) :
  no_empty_entry w →
  (∀ ws cid, no_empty_entry (connect ws cid w).2) ∧
  (∀ ws cid, no_empty_entry (disconnect ws cid w).2) ∧
  (∀ event, no_empty_entry (broadcast_event event w).2).
Proof.
  intros Hinv. split; [|split].
  - intros ws cid. rewrite connect_run.
    destruct (accept_reply (env w) (trace w) ws) as [[]|e]; [|done].
    intros c. simpl. destruct (decide (c = cid)) as [->|Hne].
    + rewrite lookup_insert_eq. intros [= H]. by apply app_nil in H as [_ ?].
    + rewrite lookup_insert_ne by done. apply Hinv.
  - intros ws cid.
    destruct (active_connections w !! cid) as [l|] eqn:Hl.
    2: { by rewrite disconnect_absent_campaign. }
    destruct (list_remove ws l) as [l'|] eqn:Hrm.
    + destruct (disconnect_returns _ _ _ _ _ Hl Hrm) as (m & -> & _ & Hne & Hother & _).
      intros c. simpl. destruct (decide (c = cid)) as [->|Hc]; [done|].
      rewrite Hother by done. apply Hinv.
    + rewrite (disconnect_missing_socket _ _ l); [done|done|].
      intros Hin. apply list_remove_elem_of in Hin as [? ?]. congruence.
  - intros event.
    destruct (broadcast_event_spec event w) as (replies & rest & _ & Hrest & _ & ->).
    simpl. intros c.
    destruct (failed_of (subscribers (campaign_id event) w) replies) as [|d dead];
      [apply Hinv|].
    destruct rest as [|x rest]; simpl.
    + destruct (decide (c = campaign_id event)) as [->|Hc].
      * by rewrite lookup_delete_eq.
      * rewrite lookup_delete_ne by done. apply Hinv.
    + destruct (decide (c = campaign_id event)) as [->|Hc].
      * by rewrite lookup_insert_eq.
      * rewrite lookup_insert_ne by done. apply Hinv.
Qed.

Lemma registry_has_no_empty_entry_witness :
  let w := with_connections {["c1" := [1]]} (configured (scripted [] 201)) in
  active_connections (disconnect 1 "c1" w).2 = ∅ ∧
  no_empty_entry (disconnect 1 "c1" w).2.
Proof.
  cbn zeta. split; [by vm_compute|].
  apply (registry_has_no_empty_entry
           (with_connections {["c1" := [1]]} (configured (scripted [] 201)))).
  intros c. simpl. destruct (decide (c = "c1")) as [->|Hne].
  - by rewrite lookup_singleton_eq.
  - by rewrite lookup_singleton_ne.
Defined.

(** * The credentials of the publish client *)

Lemma _refresh_token_eq w :
  _refresh_token w =
    let s := settings w in
    if can_refresh s then
      let reply := token_reply (env w) (trace w) (LINKEDIN_REFRESH_TOKEN s)
                     (LINKEDIN_CLIENT_ID s) (LINKEDIN_CLIENT_SECRET s) in
      let w1 := with_trace (trace w ++ [AToken (LINKEDIN_REFRESH_TOKEN s)
                     (LINKEDIN_CLIENT_ID s) (LINKEDIN_CLIENT_SECRET s) reply]) w in
      match refresh_outcome reply, reply with
      | Returned true, Returned resp =>
          match json resp with
          | Returned body =>
              let tok := default "" (body !! "access_token") in
              let new_refresh := body !! "refresh_token" in
              (Returned true,
               set_cached_user_urn None
                 (set_LINKEDIN_ACCESS_TOKEN tok
                    ((if truthy_opt new_refresh
                      then set_LINKEDIN_REFRESH_TOKEN (default "" new_refresh)
                      else id)
                       (set_access_token tok w1))))
          | Raised e => (Raised e, w1)
          end
      | r, _ => (r, w1)
      end
    else (Returned false, w).
Proof.
  unfold _refresh_token, can_refresh.
  cbv [mbind M_bind mret M_ret gets try_except post_access_token call json_of modify raise].
  rewrite <- negb_andb.
  destruct (truthy (LINKEDIN_REFRESH_TOKEN (settings w)) &&
            truthy (LINKEDIN_CLIENT_ID (settings w))); cbn [negb]; cbv beta iota zeta;
    [|done].
  set (reply := token_reply (env w) (trace w) _ _ _). clearbody reply.
  destruct reply as [resp|e]; simpl.
  2: { by destruct (is_HTTPError e). }
  destruct (negb (status_code resp =? 200)%Z); [done|].
  destruct (json resp) as [body|e]; simpl.
  2: { by destruct (is_HTTPError e). }
  destruct (body !! "access_token") as [tok|]; simpl; [|done].
  by destruct (truthy_opt (body !! "refresh_token")).
Qed.

Lemma refresh_outcome_true reply :
  refresh_outcome reply = Returned true →
  ∃ resp body tok,
    reply = Returned resp ∧ status_code resp = 200%Z ∧
    json resp = Returned body ∧ body !! "access_token" = Some tok.
Proof.
  unfold refresh_outcome. destruct reply as [resp|e]; [|by destruct (is_HTTPError e)].
  destruct (status_code resp =? 200)%Z eqn:Hcode; [|done].
  apply Z.eqb_eq in Hcode. simpl.
  destruct (json resp) as [body|e] eqn:Hjson; [|by destruct (is_HTTPError e)].
  destruct (body !! "access_token") as [tok|] eqn:Htok; [|done].
  intros _. by exists resp, body, tok.
Qed.


Lemma _get_user_urn_eq w :
  _get_user_urn w =
    let p := publisher_agent w in
    if truthy_opt (_cached_user_urn p) then (Returned (_cached_user_urn p), w)
    else
      let reply := userinfo_reply (env w) (trace w) (bearer (_access_token p)) in
      let w1 := with_trace (trace w ++ [AUserinfo (bearer (_access_token p)) reply]) w in
      match reply with
      | Raised e => (if is_HTTPError e then Returned None else Raised e, w1)
      | Returned resp =>
          if negb (status_code resp =? 200)%Z then (Returned None, w1)
          else
            match json resp with
            | Raised e => (if is_HTTPError e then Returned None else Raised e, w1)
            | Returned body =>
                let user_sub := default "" (body !! "sub") in
                if truthy user_sub
                then (Returned (Some ("urn:li:person:" +:+ user_sub)),
                      set_cached_user_urn (Some ("urn:li:person:" +:+ user_sub)) w1)
                else (Returned (_cached_user_urn p), w1)
            end
      end.
Proof.
  unfold _get_user_urn.
  cbv [mbind M_bind mret M_ret gets try_except get_userinfo call json_of modify raise].
  destruct (truthy_opt (_cached_user_urn (publisher_agent w))); cbv beta iota zeta; [done|].
  set (reply := userinfo_reply (env w) (trace w) _). clearbody reply.
  destruct reply as [resp|e]; simpl.
  2: { by destruct (is_HTTPError e). }
  destruct (negb (status_code resp =? 200)%Z); [done|].
  destruct (json resp) as [body|e]; simpl.
  2: { by destruct (is_HTTPError e). }
  by destruct (truthy (default "" (body !! "sub"))).
Qed.

(** X6: with an identity cached, [_get_user_urn] returns it and asks
    nothing; without one it makes one userinfo request, with the agent's
    token.  The token and the settings are never touched.  A non-empty
    result is cached, so that the next call returns it without a request;
    an empty result leaves the agent as it was. *)
Theorem user_urn_fetched_once (w : World) :
  let run := _get_user_urn w in
  let p := publisher_agent w in
  (truthy_opt (_cached_user_urn p) = true → run = (Returned (_cached_user_urn p), w)) ∧
  (truthy_opt (_cached_user_urn p) = false →
     ∃ reply, new_actions w run.2 = [AUserinfo (bearer (_access_token p)) reply]) ∧
  _access_token (publisher_agent run.2) = _access_token p ∧
  settings run.2 = settings w ∧
  ∀ a, run.1 = Returned a →
    if truthy_opt a
    then _cached_user_urn (publisher_agent run.2) = a ∧
         _get_user_urn run.2 = (Returned a, run.2)
    else publisher_agent run.2 = publisher_agent w.
Proof.
  cbn zeta. rewrite _get_user_urn_eq. cbn zeta.
  destruct (truthy_opt (_cached_user_urn (publisher_agent w))) eqn:Hcached.
  { split; [done|]. split; [done|]. split; [done|]. split; [done|].
    intros a [= <-]. rewrite Hcached. split; [done|].
    rewrite _get_user_urn_eq. cbn [snd]. cbn zeta. by rewrite Hcached. }
  split; [done|].
  set (reply := userinfo_reply (env w) (trace w) _).
  assert (∀ r w1,
    (∀ a, r = Returned a → truthy_opt a = false) →
    let run := (r, with_trace (trace w ++ [AUserinfo (bearer (_access_token (publisher_agent w))) reply]) w1) in
    publisher_agent w1 = publisher_agent w → settings w1 = settings w → trace w1 = trace w →
    (false = false → ∃ reply0, new_actions w run.2 = [AUserinfo (bearer (_access_token (publisher_agent w))) reply0]) ∧
    _access_token (publisher_agent run.2) = _access_token (publisher_agent w) ∧
    settings run.2 = settings w ∧
    ∀ a, run.1 = Returned a →
      if truthy_opt a
      then _cached_user_urn (publisher_agent run.2) = a ∧
           _get_user_urn run.2 = (Returned a, run.2)
      else publisher_agent run.2 = publisher_agent w) as Hquiet.
  { intros r w1 Hr run Hp Hs Ht. subst run. simpl.
    split; [intros _; exists reply; by apply new_actions_app|].
    split; [by rewrite Hp|]. split; [done|].
    intros a Ha. by rewrite (Hr a Ha). }
  destruct reply as [resp|e] eqn:Hreply.
  2: { apply Hquiet; try done. intros a. by destruct (is_HTTPError e); intros [= <-]. }
  destruct (negb (status_code resp =? 200)%Z).
  { apply Hquiet; try done. by intros a [= <-]. }
  destruct (json resp) as [body|e].
  2: { apply Hquiet; try done. intros a. by destruct (is_HTTPError e); intros [= <-]. }
  destruct (truthy (default "" (body !! "sub"))) eqn:Hsub.
  2: { apply Hquiet; try done. by intros a [= <-]. }
  clear Hquiet. simpl.
  split; [intros _; eexists; by apply new_actions_app|].
  split; [done|]. split; [done|]. intros a [= <-]. simpl.
  split; [done|]. by rewrite _get_user_urn_eq.
Qed.

Lemma token_after_app tok h1 h2 :
  token_after tok (h1 ++ h2) = token_after (token_after tok h1) h2.
Proof. revert tok. induction h1 as [|a h1 IH]; intros tok; [done|]. destruct a; simpl; auto. Qed.

Lemma presents_token_app tok h1 h2 :
  presents_token tok (h1 ++ h2) ↔
  presents_token tok h1 ∧ presents_token (token_after tok h1) h2.
Proof.
  revert tok. induction h1 as [|a h1 IH]; intros tok; [simpl; tauto|].
  destruct a; simpl; rewrite ?IH; tauto.
Qed.

#[global] Instance token_step_preorder : PreOrder token_step.
Proof.
  split.
  - intros w. exists []. by rewrite app_nil_r.
  - intros w1 w2 w3 (d1 & Ht1 & Hp1 & Ha1) (d2 & Ht2 & Hp2 & Ha2).
    exists (d1 ++ d2). split; [by rewrite Ht2, Ht1, app_assoc|].
    split.
    + apply presents_token_app. by rewrite <- Ha1.
    + by rewrite token_after_app, <- Ha1.
Qed.

Lemma granted_token_outcome reply :
  refresh_outcome reply = Returned true ↔ is_Some (granted_token reply).
Proof.
  unfold refresh_outcome, granted_token. destruct reply as [resp|e].
  2: { destruct (is_HTTPError e); split; try done; by intros [? ?]. }
  destruct (status_code resp =? 200)%Z; simpl.
  2: { split; try done; by intros [? ?]. }
  destruct (json resp) as [body|e].
  2: { destruct (is_HTTPError e); split; try done; by intros [? ?]. }
  destruct (body !! "access_token"); split; try done; by intros [? ?].
Qed.

Lemma _refresh_token_token_step w : token_step w (_refresh_token w).2.
Proof.
  rewrite _refresh_token_eq. cbn zeta.
  destruct (can_refresh (settings w)); [|reflexivity].
  set (reply := token_reply (env w) (trace w) _ _ _).
  assert (∀ (r : Outcome bool) w1, refresh_outcome reply ≠ Returned true →
            access_token w1 = access_token w →
            token_step w (r, with_trace (trace w ++ [AToken (LINKEDIN_REFRESH_TOKEN (settings w))
              (LINKEDIN_CLIENT_ID (settings w)) (LINKEDIN_CLIENT_SECRET (settings w)) reply]) w1).2)
    as Hfail.
  { intros r w1 Hne Ha. eexists [_]. simpl. split; [done|].
    destruct (granted_token reply) eqn:Hg.
    - exfalso. apply Hne. apply granted_token_outcome. by rewrite Hg.
    - by rewrite Hg. }
  destruct (refresh_outcome reply) as [[]|e] eqn:Hout.
  2,3: apply Hfail; try done; by rewrite Hout.
  destruct (refresh_outcome_true _ Hout) as (resp & body & tok & Hreply & Hcode & Hjson & Htok).
  rewrite Hreply, Hjson, Htok. eexists [_].
  split; [by destruct (truthy_opt (body !! "refresh_token"))|].
  apply Z.eqb_eq in Hcode. simpl. rewrite Hcode, Hjson, Htok.
  by destruct (truthy_opt (body !! "refresh_token")).
Qed.

Lemma _get_user_urn_token_step w : token_step w (_get_user_urn w).2.
Proof.
  pose proof (_get_user_urn_run w (_get_user_urn w).1 (_get_user_urn w).2) as H.
  destruct H as (_ & _ & tu & Ht & Hur & _); [by destruct (_get_user_urn w)|].
  exists tu. split; [done|].
  assert (access_token (_get_user_urn w).2 = access_token w) as Ha.
  { rewrite _get_user_urn_eq. cbn zeta. unfold access_token.
    repeat (case_match; simpl; try done). }
  rewrite Ha. by destruct Hur.
Qed.

Lemma _get_user_urn_access_token w :
  access_token (_get_user_urn w).2 = access_token w.
Proof.
  rewrite _get_user_urn_eq. cbn zeta. unfold access_token.
  repeat (case_match; simpl; try done).
Qed.

Lemma token_step_quiet w t :
  Forall is_event t → token_step w (with_trace (trace w ++ t) w).
Proof.
  intros Hq. exists t. split; [done|]. unfold access_token. simpl.
  generalize (_access_token (publisher_agent w)). intros tok.
  induction Hq as [|a t Ha Ht IH]; [done|]. destruct a; try done; simpl; tauto.
Qed.

Lemma try_body_token_step piece commentary st w r w' :
  authorization st = bearer (access_token w) →
  try_body piece commentary st w = (r, w') →
  token_step w w' ∧
  match r with
  | Returned (Return _, _) => True
  | Returned (_, st') => authorization st' = bearer (access_token w')
  | Raised e => is_HTTPError e = true → access_token w' = access_token w
  end.
Proof.
  intros Hauth H. unfold try_body in H.
  assert (∀ reply, token_step w
            (with_trace (trace w ++ [APost piece (author st) (authorization st)
                                       commentary reply]) w)) as Hpost.
  { intros reply. eexists [_]. split; [done|]. by rewrite Hauth. }
  apply bind_inv in H as [(resp & w1 & Hp & H)|(e & Hp & ->)];
    unfold post_rest_posts, call in Hp; inversion Hp as [[Hreply Hw1]]; clear Hp.
  2: { split; [apply Hpost|done]. }
  rewrite Hreply in Hw1.
  assert (token_step w w1) as H01 by (subst w1; apply Hpost).
  assert (access_token w1 = access_token w) as Ha1 by (by subst w1).
  destruct (is_success (status_code resp)).
  { inversion H; subst r w'. done. }
  destruct (bool_decide (status_code resp = 401%Z) && negb (token_refreshed st)).
  2: { destruct (bool_decide (status_code resp = 403%Z)); inversion H; subst r w'.
       - done.
       - split; [done|]. simpl. by rewrite Ha1. }
  apply bind_inv in H as [(refreshed & w2 & Href & H)|(e & Href & ->)].
  2: { split.
       - etrans; [exact H01|]. pose proof (_refresh_token_token_step w1) as Hs.
         by rewrite Href in Hs.
       - intros He. apply _refresh_token_no_HTTPError in Href. congruence. }
  assert (token_step w w2) as H02.
  { etrans; [exact H01|]. pose proof (_refresh_token_token_step w1) as Hs.
    by rewrite Href in Hs. }
  destruct refreshed; [|by inversion H; subst r w'].
  rewrite bind_run in H. unfold gets at 1 in H.
  pose proof (_get_user_urn_token_step w2) as Hs.
  pose proof (_get_user_urn_access_token w2) as Ha.
  apply bind_inv in H as [(a & w3 & Hurn & H)|(e & Hurn & ->)]; rewrite Hurn in Hs, Ha.
  - inversion H; subst r w'. split; [by etrans|]. simpl in *. by rewrite Ha.
  - split; [by etrans|]. intros He. apply _get_user_urn_no_HTTPError in Hurn. congruence.
Qed.

Lemma publish_loop_token_step piece max_retries commentary attempts st w :
  authorization st = bearer (access_token w) →
  token_step w (publish_loop piece max_retries commentary attempts st w).2.
Proof.
  revert st w. induction attempts as [|k rest IH]; intros st w Hauth; [reflexivity|].
  cbn [publish_loop]. rewrite bind_run. unfold try_except.
  destruct (try_body piece commentary st w) as [[[flow st']|e] w1] eqn:Hb;
    apply (try_body_token_step _ _ _ _ _ _ Hauth) in Hb as [H01 Hr].
  - destruct flow; simpl.
    + done.
    + etrans; [exact H01|]. by apply IH.
    + rewrite bind_run, backoff_run. etrans; [exact H01|].
      etrans; [apply (token_step_quiet w1 (backoff max_retries k))|by apply IH].
      unfold backoff. case_bool_decide; by repeat constructor.
  - destruct (is_HTTPError e) eqn:He; [|done]. simpl.
    rewrite bind_run, backoff_run. etrans; [exact H01|].
    etrans; [apply (token_step_quiet w1 (backoff max_retries k))|].
    { unfold backoff. case_bool_decide; by repeat constructor. }
    apply IH. simpl. unfold access_token in *. simpl. by rewrite Hr.
Qed.

Lemma _publish_linkedin_token_step piece max_retries w :
  token_step w (_publish_linkedin piece max_retries w).2.
Proof.
  unfold _publish_linkedin. rewrite bind_run. unfold gets at 1.
  destruct (negb (truthy _)); [reflexivity|].
  rewrite bind_run. unfold gets at 1. rewrite bind_run.
  pose proof (_get_user_urn_token_step w) as Hs.
  pose proof (_get_user_urn_access_token w) as Ha.
  destruct (_get_user_urn w) as [[a|e] w1]; [|done].
  destruct (negb (truthy_opt a)); [done|].
  rewrite bind_run. unfold gets at 1.
  etrans; [exact Hs|]. by apply publish_loop_token_step.
Qed.

#[global] Instance offline_preorder : PreOrder offline.
Proof.
  split.
  - intros w _. reflexivity.
  - intros w1 w2 w3 H12 H23 Htok. specialize (H12 Htok).
    etrans; [exact H12|]. apply H23.
    destruct H12 as [Hc _]. unfold credentials in Hc. unfold access_token in *.
    congruence.
Qed.

Lemma along_weaken (R1 R2 : relation World) {A} (m : M A) :
  (∀ w w', R1 w w' → R2 w w') → along R1 m → along R2 m.
Proof. intros Hw Hm w r w' H. eapply Hw, Hm, H. Qed.

Lemma presents_token_no_exchange tok h :
  token_replies h = [] → presents_token tok h →
  Forall (λ az, az = bearer tok) (authorizations h) ∧ token_after tok h = tok.
Proof.
  induction h as [|a h IH]; [done|].
  destruct a; simpl; try done; intros Hno Hp; try by apply IH.
  destruct Hp as [-> Hp]. destruct (IH Hno Hp) as [Hall ->]. split; [|done].
  by constructor.
Qed.

(** X7: every POST of a publish call presents the access token in force
    when it is made: the agent's token as long as no token exchange
    succeeded, the granted token after one; and the agent's token at the
    end of the call is the one the history leaves in force. *)
Theorem posts_present_current_token (piece : loc) (max_retries : nat) (w : World) :
  let run := _publish_linkedin piece max_retries w in
  let delta := new_actions w run.2 in
  presents_token (access_token w) delta ∧
  access_token run.2 = token_after (access_token w) delta ∧
  (token_replies delta = [] →
     Forall (λ az, az = bearer (access_token w)) (authorizations delta) ∧
     access_token run.2 = access_token w) ∧
  (∀ pre rt ci cs reply post,
     delta = pre ++ AToken rt ci cs reply :: post →
     Forall (λ az, az = bearer (access_token w)) (authorizations pre) ∧
     ∀ tok, granted_token reply = Some tok →
       Forall (λ az, az = bearer tok) (authorizations post) ∧
       access_token run.2 = tok).
Proof.
  cbn zeta.
  destruct (_publish_linkedin_token_step piece max_retries w) as (delta & Ht & Hp & Ha).
  destruct (_publish_linkedin_call piece max_retries w) as (_ & _ & Hcall).
  apply publish_call_one_refresh in Hcall.
  rewrite (new_actions_app _ _ _ Ht) in *.
  split; [done|]. split; [done|]. split.
  - intros Hno. destruct (presents_token_no_exchange _ _ Hno Hp) as [Hall Hsame].
    split; [done|]. by rewrite Ha.
  - intros pre rt ci cs reply post ->.
    rewrite token_replies_app in Hcall. simpl in Hcall. rewrite length_app in Hcall.
    simpl in Hcall.
    assert (token_replies pre = []) as Hpre by (destruct (token_replies pre); [done|simpl in *; lia]).
    assert (token_replies post = []) as Hpost by (destruct (token_replies post); [done|simpl in *; lia]).
    apply presents_token_app in Hp as [Hp1 Hp2].
    destruct (presents_token_no_exchange _ _ Hpre Hp1) as [Hall1 Hsame].
    split; [done|]. intros tok Hg.
    rewrite token_after_app, Hsame in Ha. rewrite Hsame in Hp2.
    simpl in Hp2, Ha. rewrite Hg in Hp2, Ha. simpl in Hp2, Ha.
    destruct (presents_token_no_exchange _ _ Hpost Hp2) as [Hall2 Hsame2].
    split; [done|]. by rewrite Ha.
Qed.

Lemma grows_offline w w' :
  grows credentials (λ a, is_linkedin_call a = false) w w' → offline w w'.
Proof. by intros H _. Qed.

Lemma along_offline_publish piece max_retries :
  along offline (_publish_linkedin piece max_retries).
Proof.
  intros w r w' H Htok. unfold _publish_linkedin in H. rewrite bind_run in H.
  unfold gets at 1 in H. unfold access_token in Htok. rewrite Htok in H.
  simpl in H. inversion H. reflexivity.
Qed.

Lemma along_offline_publish_piece cid auto piece :
  along offline (publish_piece cid auto piece).
Proof.
  unfold publish_piece, sleep, note, store_campaign_results.
  assert (∀ ev, along offline (broadcast_event ev)) as Hb.
  { intros ev. eapply along_weaken; [apply grows_offline|].
    by apply along_broadcast_event. }
  destruct auto.
  all: repeat first
    [ apply Hb
    | apply along_offline_publish
    | apply along_bind; [apply _| |intros ?]
    | apply along_ret; apply _
    | apply along_gets; apply _
    | match goal with |- along _ (if ?b then _ else _) => destruct b end
    | apply along_modify; intros ?; apply grows_offline; split; [done|];
      first [ by exists []; rewrite app_nil_r
            | eexists [_]; split; [done|]; by repeat constructor ]
    | apply along_call; intros ? ?; apply grows_offline; split; [done|];
      eexists [_]; split; [done|]; by repeat constructor ].
Qed.

Lemma along_offline_run cid pieces auto :
  along offline (PublisherAgent_run cid pieces auto).
Proof.
  unfold PublisherAgent_run, note.
  apply along_bind; [apply _| |intros ?].
  - apply along_modify. intros ?. apply grows_offline. split; [done|].
    eexists [_]. split; [done|]. by repeat constructor.
  - apply along_bind; [apply _| |intros ?; apply along_ret; apply _].
    apply along_for_each; [apply _|]. intros piece. apply along_offline_publish_piece.
Qed.

Lemma no_linkedin_call_no_success l d :
  Forall (λ a, is_linkedin_call a = false) d → has_success l d = false.
Proof.
  induction 1 as [|a d Ha Hd IH]; [done|]. simpl. rewrite IH.
  by destruct a as [| | | |? ? ? ? []| | | | | |].
Qed.

(** X8: an agent without access token publishes nothing: in either mode
    the stage sends no request to the publishing platform or its OAuth
    service, and leaves every piece and the credentials as they were. *)
Theorem no_access_token_no_publication (cid : string) (pieces : list loc) (auto : bool)
    (w : World) :
  let run := PublisherAgent_run cid pieces auto w in
  access_token w = "" →
  Forall (λ a, is_linkedin_call a = false) (new_actions w run.2) ∧
  (∀ l, heap run.2 l = heap w l) ∧
  credentials run.2 = credentials w.
Proof.
  cbn zeta. intros Htok.
  destruct (PublisherAgent_run cid pieces auto w) as [r w'] eqn:Hrun.
  pose proof (along_offline_run cid pieces auto w r w' Hrun Htok) as [Hc (delta & Ht & Hq)].
  pose proof (PublisherAgent_run_stage cid pieces auto w) as Hstage.
  cbn zeta in Hstage. rewrite Hrun in Hstage.
  destruct Hstage as (r' & (_ & _ & delta' & Ht' & Hheap & _) & _).
  simpl in *. rewrite Ht in Ht'. apply app_inv_head in Ht'. subst delta'.
  rewrite (new_actions_app _ _ _ Ht). split; [done|]. split; [|done].
  intros l. by rewrite Hheap, no_linkedin_call_no_success.
Qed.

Lemma no_access_token_no_publication_witness :
  let w := with_publisher {| _cached_user_urn := None; _access_token := "" |}
             (configured (scripted [] 201)) in
  let run := PublisherAgent_run "camp1" [0; 1] true w in
  run.1 = Returned [0; 1] ∧
  Forall (λ a, is_linkedin_call a = false) (new_actions w run.2) ∧
  published (heap run.2 0) = false.
Proof.
  cbn zeta.
  destruct (no_access_token_no_publication "camp1" [0; 1] true
              (with_publisher {| _cached_user_urn := None; _access_token := "" |}
                 (configured (scripted [] 201))))
    as (Hq & Hheap & _); [reflexivity|].
  split; [by vm_compute|]. split; [exact Hq|]. by rewrite Hheap.
Defined.

#[global] Instance stale_preorder : PreOrder stale.
Proof.
  split.
  - intros w _. reflexivity.
  - intros w1 w2 w3 H12 H23 Hno. specialize (H12 Hno).
    etrans; [exact H12|]. apply H23. destruct H12 as [-> _]. done.
Qed.

Lemma grows_stale w w' : grows settings (λ a, ¬ is_token a) w w' → stale w w'.
Proof. by intros H _. Qed.

Lemma along_stale_refresh : along stale _refresh_token.
Proof.
  intros w r w' H Hno. rewrite _refresh_token_eq in H. cbn zeta in H.
  rewrite Hno in H. inversion H. reflexivity.
Qed.

Lemma along_stale_urn : along stale _get_user_urn.
Proof.
  intros w r w' H. apply grows_stale.
  pose proof (_get_user_urn_run _ _ _ H) as (_ & _ & tu & Ht & Hur & _).
  split.
  - replace w' with (_get_user_urn w).2 by (by rewrite H).
    rewrite _get_user_urn_eq. cbn zeta. repeat (case_match; simpl; try done).
  - exists tu. split; [done|]. by apply urn_run_no_token.
Qed.

Lemma along_stale_try_body piece commentary st :
  along stale (try_body piece commentary st).
Proof.
  unfold try_body, post_rest_posts.
  repeat first
    [ apply along_stale_refresh
    | apply along_stale_urn
    | apply along_bind; [apply _| |intros ?]
    | apply along_ret; apply _
    | apply along_gets; apply _
    | apply along_call; intros ? ?; apply grows_stale; split; [done|];
      eexists [_]; split; [done|]; constructor; [by intros ?|constructor]
    | match goal with |- along _ (if ?b then _ else _) => destruct b end ].
Qed.

Lemma along_stale_loop piece max_retries commentary attempts st :
  along stale (publish_loop piece max_retries commentary attempts st).
Proof.
  revert st. induction attempts as [|k rest IH]; intros st; cbn [publish_loop].
  { apply along_ret. apply _. }
  apply along_bind; [apply _| |intros [flow st']].
  { apply along_try_except; [apply _|apply along_stale_try_body|].
    intros _. apply along_ret. apply _. }
  destruct flow; cbn [fst snd].
  - apply along_ret. apply _.
  - apply IH.
  - apply along_bind; [apply _| |intros _; apply IH].
    case_bool_decide; [|apply along_ret; apply _].
    apply along_modify. intros w. apply grows_stale. split; [done|].
    eexists [_]. split; [done|]. constructor; [by intros ?|constructor].
Qed.

Lemma along_stale_publish piece max_retries :
  along stale (_publish_linkedin piece max_retries).
Proof.
  unfold _publish_linkedin.
  repeat first
    [ apply along_stale_loop
    | apply along_stale_urn
    | apply along_bind; [apply _| |intros ?]
    | apply along_ret; apply _
    | apply along_gets; apply _
    | match goal with |- along _ (if ?b then _ else _) => destruct b end ].
Qed.

Lemma no_token_no_reply h : Forall (λ a, ¬ is_token a) h → token_replies h = [].
Proof.
  induction 1 as [|a h Ha Hh IH]; [done|]. destruct a; simpl in *; try done.
Qed.

(** X23: without a refresh token or a client id a publish call never
    asks for a token and leaves the settings and the agent's token as
    they were; and a POST answered 401 is then the last request of the
    call, which returns False. *)
Theorem unauthorized_without_refresh_credentials (piece : loc) (max_retries : nat)
    (w : World) :
  let run := _publish_linkedin piece max_retries w in
  let delta := new_actions w run.2 in
  can_refresh (settings w) = false →
  token_replies delta = [] ∧
  settings run.2 = settings w ∧
  access_token run.2 = access_token w ∧
  ∀ pre l au az c resp post,
    delta = pre ++ APost l au az c (Returned resp) :: post →
    status_code resp = 401%Z →
    post = [] ∧ run.1 = Returned false.
Proof.
  cbn zeta. intros Hno.
  destruct (_publish_linkedin piece max_retries w) as [r w'] eqn:Hrun.
  pose proof (along_stale_publish piece max_retries w r w' Hrun Hno) as [Hs (delta & Ht & Hq)].
  pose proof (_publish_linkedin_token_step piece max_retries w) as (delta' & Ht' & Hp & Ha).
  pose proof (_publish_linkedin_call piece max_retries w) as (_ & _ & Hcall).
  rewrite Hrun in Ht', Ha, Hcall. cbn [fst snd] in *.
  rewrite Ht in Ht'. apply app_inv_head in Ht'. subst delta'.
  rewrite (new_actions_app _ _ _ Ht) in *.
  pose proof (no_token_no_reply _ Hq) as Hnone.
  split; [done|]. split; [done|].
  split; [by rewrite Ha, (proj2 (presents_token_no_exchange _ _ Hnone Hp))|].
  intros pre l au az c resp post Heq H401. subst delta.
  inversion Hcall as [Hnil|tu r0 Hur Hne Htu|tu delta r0 Hur Hrun' Htu]; subst.
  - by destruct pre.
  - exfalso. apply urn_run_no_post in Hur. rewrite Forall_app in Hur.
    destruct Hur as [_ Hur]. by apply Forall_cons in Hur as [? _].
  - symmetry in Htu.
    destruct (app_split_after is_post tu pre (APost l au az c (Returned resp)) post delta)
      as (pre' & -> & <-); [by apply urn_run_no_post|done..|].
    destruct (publish_run_at _ _ _ _ _ _ _ Hrun' pre' (APost l au az c (Returned resp))
                post I eq_refl)
      as (earlier & k & rest & refreshed' & _ & _ & Hflag & Hsub).
    rewrite !token_replies_app in Hnone.
    apply app_eq_nil in Hnone as [Hn1 Hn2]. apply app_eq_nil in Hn1 as [_ Hn1].
    specialize (Hflag eq_refl Hn1). subst refreshed'.
    destruct (publish_run_head _ _ _ _ _ _ _ _ _ _ _ _ _ Hsub)
      as (_ & _ & _ & _ & _ & Hauth).
    destruct (Hauth resp eq_refl H401 eq_refl)
      as [(tr & Hrr & Hnext)|[Hrr Hne]].
    + exfalso. apply refresh_run_true in Hrr as (rt & ci & cs & reply & -> & _).
      simpl in Hn2. destruct Hnext as [(tu' & delta' & -> & _)|(tu' & e & -> & _)];
        simpl in Hn2; done.
    + inversion Hrr as [Hp' Hr|rt ci cs reply Hp' Hr]; subst; [done|].
      by simpl in Hn2.
Qed.

Lemma unauthorized_without_refresh_credentials_witness :
  let w := with_settings {| LINKEDIN_ACCESS_TOKEN := "expired-token";
                            LINKEDIN_REFRESH_TOKEN := "";
                            LINKEDIN_CLIENT_ID := "client-id";
                            LINKEDIN_CLIENT_SECRET := "client-secret" |} ∅
             (configured (scripted [401]%Z 201)) in
  let run := _publish_linkedin 0 3 w in
  run.1 = Returned false ∧ length (post_replies (new_actions w run.2)) = 1.
Proof.
  cbn zeta.
  destruct (unauthorized_without_refresh_credentials 0 3
              (with_settings {| LINKEDIN_ACCESS_TOKEN := "expired-token";
                                LINKEDIN_REFRESH_TOKEN := "";
                                LINKEDIN_CLIENT_ID := "client-id";
                                LINKEDIN_CLIENT_SECRET := "client-secret" |} ∅
                 (configured (scripted [401]%Z 201))))
    as (_ & _ & _ & H401); [reflexivity|].
  split; [|by vm_compute].
  eapply (H401 []). { by vm_compute. } done.
Defined.

(** * What is written and what is sent *)

Lemma str_take_app n s1 s2 :
  str_take n (s1 +:+ s2) =
    if decide (n ≤ String.length s1) then str_take n s1
    else s1 +:+ str_take (n - String.length s1) s2.
Proof.
  revert n. induction s1 as [|c s1 IH]; intros n.
  - simpl. destruct (decide (n ≤ 0)) as [Hn|Hn].
    + assert (n = 0) as -> by lia. by destruct s2.
    + by rewrite Nat.sub_0_r.
  - rewrite str_append_cons. destruct n as [|n]; [done|]. simpl. rewrite IH.
    destruct (decide (n ≤ String.length s1)), (decide (S n ≤ S (String.length s1)));
      try lia; done.
Qed.

Lemma str_take_all n s : String.length s ≤ n → str_take n s = s.
Proof.
  revert s. induction n as [|n IH]; intros [|c s] Hlen; simpl in *; try done; try lia.
  rewrite IH; [done|lia].
Qed.

Section Stages.
Local Arguments str_take : simpl never.

(** X9: the cut falls on the hashtags first.  A body of 3000 characters
    or more goes out as its first 3000 characters, without any hashtag; a
    shorter body goes out whole, followed by as much of the hashtag
    trailer as fits; and when body and trailer fit, nothing is lost. *)
Theorem outgoing_text_body_first (p : ContentPiece) :
  let body := content p in
  let trailer := hashtag_trailer (hashtags p) in
  (3000 ≤ String.length body → outgoing_text p = str_take 3000 body) ∧
  (String.length body < 3000 →
     outgoing_text p = body +:+ str_take (3000 - String.length body) trailer) ∧
  (String.length body + String.length trailer ≤ 3000 →
     outgoing_text p = body +:+ trailer).
Proof.
  cbn zeta. rewrite outgoing_text_eq, str_take_app.
  split; [|split].
  - intros Hlen. by rewrite decide_True.
  - intros Hlen. by rewrite decide_False by lia.
  - intros Hlen. destruct (decide (3000 ≤ String.length (content p))) as [Hle|Hgt].
    + assert (String.length (hashtag_trailer (hashtags p)) = 0) as H0 by lia.
      destruct (hashtag_trailer (hashtags p)); [|done].
      rewrite str_append_empty. apply str_take_all. lia.
    + f_equal. apply str_take_all. lia.
Qed.

(** ** The Draft stage *)

Lemma model_replies_app a h1 h2 :
  model_replies a (h1 ++ h2) = model_replies a h1 ++ model_replies a h2.
Proof. apply omap_app. Qed.

Lemma events_no_model_reply a d : Forall is_event d → model_replies a d = [].
Proof. induction 1 as [|x d Hx Hd IH]; [done|]. by destruct x. Qed.

Lemma truncate_eq n s :
  (if bool_decide (n < String.length s) then str_take n s else s) = str_take n s.
Proof. case_bool_decide; [done|]. symmetry. apply str_take_all. lia. Qed.

(** The allocation and the report that end the loop body of the writer. *)
Lemma write_piece_end cid p acc (piece : ContentPiece) msg d w r w' :
  (l ← new_piece piece;
   broadcast_event (writer_event cid COMPLETED p msg d);;
   mret (acc ++ [l])) w = (r, w') →
  r = Returned (acc ++ [next_loc w]) ∧
  env w' = env w ∧ next_loc w' = S (next_loc w) ∧
  heap w' = <[next_loc w := piece]> (heap w) ∧
  ∃ delta, trace w' = trace w ++ delta ∧ Forall is_event delta.
Proof.
  rewrite bind_run. unfold new_piece. intros H.
  apply bind_broadcast in H as (w5 & [Hk5 (d5 & Ht5 & Hq5)] & H).
  inversion H; subst r w'. clear H. unfold kept in Hk5.
  injection Hk5 as He Hh Hn _ _. split; [done|]. split; [done|]. split; [done|].
  split; [done|]. by exists d5.
Qed.

Lemma write_piece_run cid topic tone ta brief p acc w r w' :
  write_piece cid topic tone ta brief p acc w = (r, w') →
  env w' = env w ∧
  ∃ delta, trace w' = trace w ++ delta ∧
    match r with
    | Returned out =>
        out = acc ++ [next_loc w] ∧ next_loc w' = S (next_loc w) ∧
        (∀ l, l ≠ next_loc w → heap w' l = heap w l) ∧
        ∃ reply, model_replies WRITER delta = [reply] ∧
                 drafted (env w) p reply (heap w' (next_loc w))
    | Raised e => next_loc w' = next_loc w ∧ heap w' = heap w
    end.
Proof.
  unfold write_piece. intros H.
  apply bind_broadcast in H as (w1 & [Hk1 (d1 & Ht1 & Hq1)] & H).
  unfold kept in Hk1. injection Hk1 as He1 Hh1 Hn1 _ _.
  apply bind_inv in H as [([] & w2 & Hs & H)|(e & Hs & ?)]; [|done].
  inversion Hs; subst w2. clear Hs.
  apply bind_inv in H as [(result & w3 & Hi & H)|(e & Hi & ->)];
    unfold ainvoke, call in Hi; inversion Hi as [[Hreply Hw3]]; clear Hi.
  2: { split; [done|]. eexists (d1 ++ [_; _]).
       split; [cbn [trace with_trace]; rewrite Ht1; by rewrite <- !app_assoc|]. done. }
  rewrite Hreply in Hw3.
  assert (env w3 = env w ∧ next_loc w3 = next_loc w ∧ heap w3 = heap w ∧
          trace w3 = trace w ++ d1 ++ [ASleep (1 # 2); AInvoke WRITER
                [("platform_rules", LINKEDIN_RULES_style);
                 ("max_chars", pretty LINKEDIN_RULES_max_chars);
                 ("brief", brief); ("topic", topic); ("tone", tone);
                 ("target_audience", ta)] (Returned result)])
    as (He3 & Hn3 & Hh3 & Ht3).
  { subst w3. cbn [env next_loc heap trace with_trace].
    rewrite Ht1. by rewrite <- !app_assoc. }
  clear Hw3 Hreply.
  rewrite bind_run in H. unfold gets at 1 in H. rewrite He3 in H.
  destruct (parse_reply (env w) result) as [c h| |e] eqn:Hparse.
  3: { inversion H; subst r w'. split; [done|]. eexists. split; [exact Ht3|]. done. }
  all: rewrite bind_run in H; cbn [mret M_ret fst snd] in H; cbv beta iota zeta in H;
    cbn [fst snd] in H; rewrite truncate_eq in H;
    apply write_piece_end in H as (-> & He & Hn & Hh & d5 & Ht5 & Hq5);
    (split; [congruence|]); eexists; (split; [rewrite Ht5, Ht3, <- app_assoc; reflexivity|]);
    (split; [by rewrite Hn3|]); (split; [congruence|]);
    (split; [intros l Hl; rewrite Hh, Hn3, Hh3; by rewrite fn_lookup_insert_ne|]);
    exists (Returned result);
    (split; [rewrite !model_replies_app, (events_no_model_reply _ _ Hq1),
               (events_no_model_reply _ _ Hq5); done|]);
    exists result; (split; [done|]);
    rewrite Hh, Hn3, fn_lookup_insert, Hparse; done.
Qed.

Lemma write_pieces_run cid topic tone ta brief platforms acc w r w' :
  write_pieces cid topic tone ta brief platforms acc w = (r, w') →
  env w' = env w ∧ next_loc w ≤ next_loc w' ∧
  (∀ l, l < next_loc w → heap w' l = heap w l) ∧
  ∃ delta, trace w' = trace w ++ delta ∧
    ∀ out, r = Returned out →
      out = acc ++ seq (next_loc w) (length platforms) ∧
      next_loc w' = next_loc w + length platforms ∧
      length (model_replies WRITER delta) = length platforms ∧
      Forall2 (λ l pr, drafted (env w) pr.1 pr.2 (heap w' l))
        (seq (next_loc w) (length platforms))
        (zip platforms (model_replies WRITER delta)).
Proof.
  revert acc w. induction platforms as [|p rest IH]; intros acc w H.
  { inversion H; subst r w'. split; [done|]. split; [done|]. split; [done|].
    exists []. split; [by rewrite app_nil_r|]. intros out [= <-].
    simpl. rewrite app_nil_r, Nat.add_0_r. repeat split; constructor. }
  cbn [write_pieces] in H.
  apply bind_inv in H as [(out1 & w1 & Hp & H)|(e & Hp & ->)];
    apply write_piece_run in Hp as (He1 & d1 & Ht1 & Hp).
  2: { destruct Hp as [Hn Hh]. split; [done|]. split; [lia|].
       split; [intros l _; by rewrite Hh|]. exists d1. split; [done|]. done. }
  destruct Hp as (-> & Hn1 & Hh1 & reply & Hreply & Hd).
  apply IH in H as (He & Hn & Hh & d2 & Ht & Hout).
  split; [congruence|]. split; [lia|].
  split; [intros l Hl; rewrite Hh by lia; apply Hh1; lia|].
  exists (d1 ++ d2). split; [by rewrite Ht, Ht1, app_assoc|].
  intros out Hr. destruct (Hout out Hr) as (-> & Hn' & Hlen & Hall).
  rewrite model_replies_app, Hreply. cbn [length seq app zip zip_with].
  split; [by rewrite <- app_assoc, Hn1|]. split; [lia|]. split; [by rewrite Hlen|].
  constructor.
  - cbn [fst snd]. rewrite Hh by lia. done.
  - rewrite Hn1 in Hall. eapply Forall2_impl; [exact Hall|].
    intros l pr. by rewrite He1.
Qed.

Lemma drafted_length e p reply piece :
  drafted e p reply piece → String.length (content piece) ≤ 3000.
Proof.
  intros (result & _ & _ & _ & _ & H).
  destruct (parse_reply e result); [| |done]; destruct H as [-> _];
    rewrite str_take_length; lia.
Qed.

Lemma WriterAgent_run_run cid topic tone ta platforms brief w :
  let run := WriterAgent_run cid topic tone ta platforms brief w in
  let delta := new_actions w run.2 in
  env run.2 = env w ∧
  (∀ l, l < next_loc w → heap run.2 l = heap w l) ∧
  ∀ out, run.1 = Returned out →
    out = seq (next_loc w) (length platforms) ∧
    next_loc run.2 = next_loc w + length platforms ∧
    length (model_replies WRITER delta) = length platforms ∧
    Forall2 (λ l pr, drafted (env w) pr.1 pr.2 (heap run.2 l))
      out (zip platforms (model_replies WRITER delta)).
Proof.
  cbn zeta. unfold WriterAgent_run. rewrite bind_run. unfold note, modify.
  destruct (write_pieces _ _ _ _ _ _ _ _) as [r w'] eqn:H.
  apply write_pieces_run in H as (He & Hn & Hh & delta & Ht & Hout).
  cbn [fst snd env next_loc heap trace with_trace] in *.
  split; [done|]. split; [done|]. intros out Hr.
  destruct (Hout out Hr) as (-> & Hn' & Hlen & Hall).
  rewrite (new_actions_app w w' (AEnter WRITER :: delta))
    by (by rewrite Ht, <- app_assoc).
  done.
Qed.

Lemma drafted_pieces e (hp : loc → ContentPiece) ls platforms replies :
  length replies = length platforms →
  Forall2 (λ l pr, drafted e pr.1 pr.2 (hp l)) ls (zip platforms replies) →
  Forall2 (λ l p, piece_platform (hp l) = p ∧ published (hp l) = false ∧
                  scheduled_time (hp l) = None ∧
                  String.length (content (hp l)) ≤ 3000)
    ls platforms.
Proof.
  revert replies ls.
  induction platforms as [|p rest IH]; intros [|reply replies] ls Hlen Hall;
    simpl in *; try done.
  - inversion Hall. constructor.
  - inversion Hall as [|l pr ls' prs Hd Hrest]; subst. constructor.
    + pose proof (drafted_length _ _ _ _ Hd) as Hle.
      destruct Hd as (result & _ & Hp & Hpub & Hsch & _). done.
    + apply (IH replies); [lia|done].
Qed.

(** X10: the Draft stage never touches a piece that existed.  When it
    returns, it returns one new piece per requested platform, in order,
    at the addresses that follow the existing ones; each piece is for its
    platform, unpublished, unscheduled and at most 3000 characters long. *)
Theorem writer_drafts_one_piece_per_platform (cid topic tone target_audience : string)
    (platforms : list Platform) (brief : string) (w : World) :
  let run := WriterAgent_run cid topic tone target_audience platforms brief w in
  (∀ l, l < next_loc w → heap run.2 l = heap w l) ∧
  ∀ out, run.1 = Returned out →
    out = seq (next_loc w) (length platforms) ∧
    next_loc run.2 = next_loc w + length platforms ∧
    Forall2 (λ l p, piece_platform (heap run.2 l) = p ∧
                    published (heap run.2 l) = false ∧
                    scheduled_time (heap run.2 l) = None ∧
                    String.length (content (heap run.2 l)) ≤ 3000)
      out platforms.
Proof.
  cbn zeta.
  destruct (WriterAgent_run_run cid topic tone target_audience platforms brief w)
    as (_ & Hh & Hout).
  split; [done|]. intros out Hr. destruct (Hout out Hr) as (Hseq & Hn & Hlen & Hall).
  split; [done|]. split; [done|]. by eapply drafted_pieces.
Qed.

(** X11: when the Draft stage returns, the model was asked once per
    platform, and the piece of a platform is made of the reply to its
    request: the [content] field of the JSON object it parses to (or the
    whole reply when it does not parse), cut to 3000 characters, with the
    [hashtags] field, or none. *)
Theorem writer_text_is_model_text_cut (cid topic tone target_audience : string)
    (platforms : list Platform) (brief : string) (w : World) :
  let run := WriterAgent_run cid topic tone target_audience platforms brief w in
  let replies := model_replies WRITER (new_actions w run.2) in
  ∀ out, run.1 = Returned out →
    length replies = length platforms ∧
    Forall2 (λ l pr, drafted (env w) pr.1 pr.2 (heap run.2 l)) out (zip platforms replies).
Proof.
  cbn zeta.
  destruct (WriterAgent_run_run cid topic tone target_audience platforms brief w)
    as (_ & _ & Hout).
  intros out Hr. by destruct (Hout out Hr) as (_ & _ & Hlen & Hall).
Qed.

Lemma writer_text_is_model_text_cut_witness :
  let w := configured (scripted [] 201) in
  let run := WriterAgent_run "camp1" "AI trends" "professional" "tech professionals"
               [LINKEDIN] "A strategic brief." w in
  run.1 = Returned [0] ∧
  length (model_replies WRITER (new_actions w run.2)) = 1 ∧
  content (heap run.2 0) = "A strategic brief.".
Proof.
  cbn zeta.
  assert ((WriterAgent_run "camp1" "AI trends" "professional" "tech professionals"
             [LINKEDIN] "A strategic brief." (configured (scripted [] 201))).1
          = Returned [0]) as Hr by (by vm_compute).
  destruct (writer_text_is_model_text_cut "camp1" "AI trends" "professional"
              "tech professionals" [LINKEDIN] "A strategic brief."
              (configured (scripted [] 201)) [0] Hr) as [Hlen _].
  split; [exact Hr|]. split; [exact Hlen|]. by vm_compute.
Defined.

(** ** The Research stage *)

Lemma searches_app h1 h2 : searches (h1 ++ h2) = searches h1 ++ searches h2.
Proof. apply omap_app. Qed.

Lemma invocations_app a h1 h2 :
  invocations a (h1 ++ h2) = invocations a h1 ++ invocations a h2.
Proof. apply omap_app. Qed.

Lemma events_no_search d :
  Forall is_event d → searches d = [] ∧ ∀ a, invocations a d = [].
Proof.
  induction 1 as [|x d Hx Hd [IH1 IH2]]; [done|]. by destruct x.
Qed.

Lemma call_inv {A} ask (record : Outcome A → Action) w r w' :
  call ask record w = (r, w') → w' = with_trace (trace w ++ [record r]) w.
Proof. unfold call. by intros [= <- <-]. Qed.

Lemma kept_with_trace t w : kept (with_trace t w) = kept w.
Proof. done. Qed.

(** X12: the Research stage touches neither pieces nor credentials.  It
    makes one vector search, for the topic and five hits; if the search
    raises, so does the stage, and the model is not asked.  Otherwise the
    model is asked once, and the outcome of the stage is the model's: the
    brief, or the exception.  With no past content the model is told so;
    otherwise it is given one line per hit. *)
Theorem research_asks_once_and_returns_the_brief (cid topic target_audience tone : string)
    (platforms : list string) (w : World) :
  let run := TrendAgent_run cid topic target_audience tone platforms w in
  let delta := new_actions w run.2 in
  kept run.2 = kept w ∧
  ∃ found,
    searches delta = [(topic, 5, found)] ∧
    match found with
    | Raised e => run.1 = Raised e ∧ invocations TREND delta = []
    | Returned hits =>
        ∃ inputs reply,
          invocations TREND delta = [(inputs, reply)] ∧
          run.1 = reply ∧
          (hits = [] →
           ("past_content", "No past content found — this is a fresh topic.") ∈ inputs) ∧
          (hits ≠ [] →
           ("past_content", str_join newline (format_hit <$> hits)) ∈ inputs)
    end.
Proof.
  cbn zeta. destruct (TrendAgent_run _ _ _ _ _ w) as [r w'] eqn:H.
  unfold TrendAgent_run in H. rewrite bind_run in H. unfold note, modify in H.
  apply bind_broadcast in H as (w1 & [Hk1 (d1 & Ht1 & Hq1)] & H).
  apply bind_inv in H as [([] & w2 & Hs & H)|(e & Hs & ?)]; [|done].
  inversion Hs; subst w2. clear Hs.
  apply bind_inv in H as [(hits & w3 & Hi & H)|(e & Hi & ->)];
    apply call_inv in Hi as Hw3; clear Hi; symmetry in Hw3.
  2: { subst w'. cbn [fst snd].
       split; [by rewrite !kept_with_trace, Hk1|]. exists (Raised e).
       erewrite new_actions_app;
         [|cbn [trace with_trace]; rewrite Ht1; cbn [trace with_trace];
           rewrite <- !app_assoc; reflexivity].
       rewrite !searches_app, !invocations_app.
       destruct (events_no_search _ Hq1) as [-> ->]. done. }
  apply bind_broadcast in H as (w4 & [Hk4 (d4 & Ht4 & Hq4)] & H).
  apply bind_inv in H as [([] & w5 & Hs & H)|(e & Hs & ?)]; [|done].
  inversion Hs; subst w5. clear Hs.
  assert (∃ inputs reply w6,
    trace w6 = trace w4 ++ [ASleep 1; AInvoke TREND inputs reply] ∧
    kept w6 = kept w4 ∧
    (hits = [] →
       ("past_content", "No past content found — this is a fresh topic.") ∈ inputs) ∧
    (hits ≠ [] → ("past_content", str_join newline (format_hit <$> hits)) ∈ inputs) ∧
    match reply with
    | Returned brief =>
        ∃ ev, (broadcast_event ev ≫= λ _, mret brief) w6 = (r, w')
    | Raised e => r = Raised e ∧ w' = w6
    end) as (inputs & reply & w6 & Ht6 & Hk6 & Hnone & Hsome & Hrest).
  { apply bind_inv in H as [(brief & w6 & Hi & H)|(e & Hi & ->)];
      apply call_inv in Hi as Hw6; clear Hi; symmetry in Hw6.
    - eexists _, (Returned brief), w6.
      split; [subst w6; cbn [trace with_trace]; by rewrite <- app_assoc|].
      split; [subst w6; by rewrite !kept_with_trace|].
      split; [intros ->; repeat (first [by left|right])|].
      split; [|by eexists].
      intros Hne. destruct hits; [done|]. repeat (first [by left|right]).
    - eexists _, (Raised e), w'.
      split; [subst w'; cbn [trace with_trace]; by rewrite <- app_assoc|].
      split; [subst w'; by rewrite !kept_with_trace|].
      split; [intros ->; repeat (first [by left|right])|].
      split; [|done].
      intros Hne. destruct hits; [done|]. repeat (first [by left|right]). }
  assert (kept w4 = kept w ∧
          trace w4 = trace w ++ [AEnter TREND] ++ d1 ++
                       [ASleep 1; ASearch topic 5 (Returned hits)] ++ d4)
    as [Hk Ht].
  { rewrite Hk4, Ht4. subst w3. cbn [trace with_trace]. rewrite Ht1.
    cbn [trace with_trace]. split; [by rewrite !kept_with_trace, Hk1|].
    by repeat (rewrite <- ?app_assoc; cbn [app]). }
  destruct reply as [brief|e].
  - destruct Hrest as (ev & Hrest).
    apply bind_broadcast in Hrest as (w7 & [Hk7 (d7 & Ht7 & Hq7)] & Hrest).
    inversion Hrest; subst r w'. clear Hrest. cbn [fst snd].
    split; [congruence|]. exists (Returned hits).
    erewrite new_actions_app; [|rewrite Ht7, Ht6, Ht, <- !app_assoc; reflexivity].
    rewrite !searches_app, !invocations_app.
    destruct (events_no_search _ Hq1) as [-> ->].
    destruct (events_no_search _ Hq4) as [-> ->].
    destruct (events_no_search _ Hq7) as [-> ->].
    split; [done|]. by exists inputs, (Returned brief).
  - destruct Hrest as [-> ->]. cbn [fst snd].
    split; [congruence|]. exists (Returned hits).
    erewrite new_actions_app; [|rewrite Ht6, Ht, <- !app_assoc; reflexivity].
    rewrite !searches_app, !invocations_app.
    destruct (events_no_search _ Hq1) as [-> ->].
    destruct (events_no_search _ Hq4) as [-> ->].
    split; [done|]. by exists inputs, (Raised e).
Qed.

End Stages.

(** * A whole campaign *)


Lemma along_new_piece (R : relation World) p :
  (∀ w, R w (with_heap (<[next_loc w := p]> (heap w)) (S (next_loc w)) w)) →
  along R (new_piece p).
Proof. intros HR w r w' [= <- <-]. apply HR. Qed.

(** Straight-line code whose steps are broadcasts, pauses, calls and
    allocations. *)
Ltac along_steps :=
  repeat first
    [ apply along_broadcast_event; [done|done]
    | apply along_bind; [apply _| |intros ?]
    | apply along_ret; apply _
    | apply along_gets; apply _
    | apply along_raise; apply _
    | apply along_modify; intros ?; split; [done|];
      eexists [_]; split; [done|]; by repeat constructor
    | apply along_call; intros ? ?; split; [done|];
      eexists [_]; split; [done|]; by repeat constructor
    | apply along_new_piece; intros ?; split; [done|];
      exists []; split; [by rewrite app_nil_r|]; constructor
    | match goal with |- along _ (match ?x with _ => _ end) => destruct x end ].


Lemma TrendAgent_run_signed_in cid topic target_audience tone platforms :
  along (grows signed_in offstage)
    (TrendAgent_run cid topic target_audience tone platforms).
Proof.
  unfold TrendAgent_run, note, sleep, note, search_similar, ainvoke. along_steps.
Qed.











(** ** The observers of a campaign *)

#[global] Instance observed_preorder cid : PreOrder (observed cid).
Proof.
  split.
  - intros w. split; [done|]. split; [done|]. exists []. by rewrite app_nil_r.
  - intros w1 w2 w3 (Ho1 & Hs1 & d1 & Ht1 & Hq1) (Ho2 & Hs2 & d2 & Ht2 & Hq2).
    split; [intros c Hc; by rewrite Ho2, Ho1|]. split; [by etrans|].
    exists (d1 ++ d2). split; [by rewrite Ht2, Ht1, app_assoc|].
    apply Forall_app. split; [done|].
    eapply Forall_impl; [exact Hq2|]. intros a Ha. destruct a; try done.
    destruct Ha as [Hc Hin]. split; [done|].
    eapply elem_of_submseteq; [exact Hin|]. by apply sublist_submseteq.
Qed.













(** * Campaign storage *)

Lemma requests_app s s' delta :
  RedisService.trace s' = RedisService.trace s ++ delta → requests s s' = delta.
Proof. intros H. unfold requests. by rewrite H, drop_app_length. Qed.

Lemma redis_connect_run s :
  RedisService.connect s =
    let url := RedisService.REDIS_URL s in
    let opened := RedisService.from_url_reply (RedisService.env s) (RedisService.trace s) url in
    let h := RedisService.trace s ++ [RedisService.AFromUrl url opened] in
    match opened with
    | Raised _ =>
        (Returned (), RedisService.with_client None (RedisService.with_trace h s))
    | Returned c =>
        let pinged := RedisService.ping_reply (RedisService.env s) h c in
        (Returned (),
         RedisService.with_client (if is_raised pinged then None else Some c)
           (RedisService.with_trace (h ++ [RedisService.APing c pinged]) s))
    end.
Proof.
  unfold RedisService.connect, RedisService.try_except.
  cbv [mbind RedisService.R_bind mret RedisService.R_ret RedisService.gets
       RedisService.from_url RedisService.ping RedisService.call RedisService.set_client].
  cbn zeta. destruct (RedisService.from_url_reply _ _ _) as [c|e]; [|done].
  cbn [RedisService.env RedisService.trace RedisService.with_client RedisService.with_trace].
  by destruct (RedisService.ping_reply _ _ _) as [[]|e].
Qed.

(** X17: [connect] never raises.  It opens a client for the configured
    URL and pings it; the ping is not attempted when opening raises.
    Afterwards the service holds the client if both succeeded, and no
    client if either raised. *)
Theorem redis_connect_settles (s : RedisService.State) :
  let run := RedisService.connect s in
  let url := RedisService.REDIS_URL s in
  run.1 = Returned () ∧
  ∃ opened,
    match opened with
    | Raised _ =>
        requests s run.2 = [RedisService.AFromUrl url opened] ∧
        RedisService._client run.2 = None
    | Returned c =>
        ∃ pinged,
          requests s run.2 =
            [RedisService.AFromUrl url opened; RedisService.APing c pinged] ∧
          RedisService._client run.2 = if is_raised pinged then None else Some c
    end.
Proof.
  cbn zeta. rewrite redis_connect_run. cbn zeta.
  set (opened := RedisService.from_url_reply _ _ _).
  destruct opened as [c|e] eqn:Ho; (split; [done|]).
  - exists (Returned c). eexists. split; [|reflexivity].
    apply requests_app. cbn [snd RedisService.trace RedisService.with_client
                             RedisService.with_trace]. by rewrite <- app_assoc.
  - exists (Raised e). split; [by apply requests_app|done].
Qed.

Lemma degraded_silent s campaign id limit :
  degraded s →
  RedisService.store_campaign campaign s = (Returned (), s) ∧
  RedisService.get_campaign id s = (Returned None, s) ∧
  RedisService.list_campaigns limit s = (Returned [], s) ∧
  RedisService.is_healthy s = (Returned false, s) ∧
  RedisService.disconnect s = (Returned (), s).
Proof.
  unfold degraded, RedisService.store_campaign, RedisService.get_campaign,
    RedisService.list_campaigns, RedisService.is_healthy, RedisService.disconnect.
  cbv [mbind RedisService.R_bind mret RedisService.R_ret RedisService.gets].
  by intros ->.
Qed.

(** X18: after a [connect] that was refused the service has no client,
    and storing, reading, listing, the health check and [disconnect] all
    return (with nothing, None, the empty list, False, nothing) without a
    request and without changing the service. *)
Theorem redis_failed_connect_degrades (s : RedisService.State)
    (campaign : RedisService.CampaignResponse) (id : string) (limit : Z) :
  let s' := (RedisService.connect s).2 in
  Exists refused (requests s s') →
  degraded s' ∧
  RedisService.store_campaign campaign s' = (Returned (), s') ∧
  RedisService.get_campaign id s' = (Returned None, s') ∧
  RedisService.list_campaigns limit s' = (Returned [], s') ∧
  RedisService.is_healthy s' = (Returned false, s') ∧
  RedisService.disconnect s' = (Returned (), s').
Proof.
  cbn zeta. intros Hfail.
  assert (degraded (RedisService.connect s).2) as Hd.
  { revert Hfail. rewrite redis_connect_run. cbn zeta.
    destruct (RedisService.from_url_reply _ _ _) as [c|e]; [|done].
    destruct (RedisService.ping_reply _ _ _) as [[]|e]; [|done].
    rewrite (requests_app _ _ [RedisService.AFromUrl (RedisService.REDIS_URL s) (Returned c);
                               RedisService.APing c (Returned ())])
      by (cbn [snd RedisService.trace RedisService.with_client RedisService.with_trace];
          by rewrite <- app_assoc).
    intros Hfail.
    apply Exists_cons in Hfail as [[]|Hfail].
    apply Exists_cons in Hfail as [[]|Hfail]. by apply Exists_nil in Hfail. }
  split; [done|]. by apply degraded_silent.
Qed.

Lemma scan_keys_take limit yielded failure keys :
  (Z.of_nat (length keys) < limit)%Z ∨ keys = [] →
  RedisService.scan_keys limit yielded failure keys =
    let m := list_bound limit - length keys in
    if decide (length yielded < m)
    then match failure with
         | Some e => Raised e
         | None => Returned (keys ++ yielded)
         end
    else Returned (keys ++ take m yielded).
Proof.
  unfold list_bound. revert keys.
  induction yielded as [|key yielded IH]; intros keys Hkeys; cbn zeta.
  - cbn [RedisService.scan_keys length].
    destruct (decide (0 < Z.to_nat (Z.max 1 limit) - length keys)) as [Hlt|Hge].
    + by rewrite app_nil_r.
    + exfalso. destruct Hkeys as [Hk| ->]; simpl in *; lia.
  - cbn [RedisService.scan_keys]. rewrite length_app. cbn [length].
    destruct (limit <=? Z.of_nat (length keys + 1))%Z eqn:Hstop.
    + apply Z.leb_le in Hstop.
      assert (Z.to_nat (Z.max 1 limit) - length keys = 1) as ->.
      { destruct Hkeys as [Hk| ->]; simpl in *; lia. }
      rewrite decide_False by lia. done.
    + apply Z.leb_gt in Hstop.
      rewrite IH by (left; rewrite length_app; simpl; lia).
      cbn zeta. rewrite length_app. cbn [length].
      assert (∃ m, Z.to_nat (Z.max 1 limit) - length keys = S m ∧
                   Z.to_nat (Z.max 1 limit) - (length keys + 1) = m) as (m & -> & ->).
      { exists (Z.to_nat (Z.max 1 limit) - (length keys + 1)). lia. }
      destruct (decide (length yielded < m)), (decide (S (length yielded) < S m));
        try lia; by rewrite <- app_assoc.
Qed.

Lemma scan_keys_bound limit yielded failure keys :
  RedisService.scan_keys limit yielded failure [] = Returned keys →
  length keys ≤ list_bound limit ∧ keys `prefix_of` yielded ∧
  (yielded ≠ [] → keys ≠ []).
Proof.
  rewrite scan_keys_take by (by right). cbn zeta. rewrite Nat.sub_0_r.
  destruct (decide (length yielded < list_bound limit)) as [Hlt|Hge].
  - destruct failure; [done|]. intros [= <-]. split; [lia|]. done.
  - intros [= <-]. rewrite length_take. split; [lia|]. split.
    + apply prefix_take.
    + intros Hne. destruct yielded; [done|]. unfold list_bound in *.
      destruct (Z.to_nat (Z.max 1 limit)) eqn:E; [lia|done].
Qed.

Lemma fetch_run c keys campaigns s :
  let run := RedisService.fetch c keys campaigns s in
  ∃ delta,
    RedisService.trace run.2 = RedisService.trace s ++ delta ∧
    RedisService._client run.2 = RedisService._client s ∧
    keys_read delta `prefix_of` keys ∧
    ∀ out, run.1 = Returned out →
      keys_read delta = keys ∧
      length out ≤ length campaigns + length keys.
Proof.
  cbn zeta. revert campaigns s. induction keys as [|key keys IH]; intros campaigns s.
  { exists []. rewrite app_nil_r. split; [done|]. split; [done|]. split; [done|].
    intros out [= <-]. simpl. split; [done|lia]. }
  cbn [RedisService.fetch].
  cbv [mbind RedisService.R_bind mret RedisService.R_ret RedisService.get
       RedisService.call RedisService.validate].
  set (reply := RedisService.get_reply _ _ _ _).
  set (s1 := RedisService.with_trace _ s).
  assert (RedisService.trace s1 = RedisService.trace s ++ [RedisService.AGet c key reply])
    as Ht1 by done.
  assert (RedisService._client s1 = RedisService._client s) as Hc1 by done.
  assert (RedisService.env s1 = RedisService.env s) as He1 by done.
  clearbody s1. clearbody reply. destruct reply as [data|e].
  2: { exists [RedisService.AGet c key (Raised e)].
       split; [done|]. split; [done|]. split; [|done].
       simpl. by apply prefix_cons, prefix_nil. }
  destruct (truthy_opt data).
  - destruct (RedisService.model_validate_json (RedisService.env s1) (default "" data))
      as [campaign|e].
    + destruct (IH (campaigns ++ [campaign]) s1) as (delta & Ht & Hc & Hpre & Hout).
      exists (RedisService.AGet c key (Returned data) :: delta).
      split; [rewrite Ht, Ht1; by rewrite <- app_assoc|]. split; [congruence|].
      split; [simpl; by apply prefix_cons|].
      intros out Hr. destruct (Hout out Hr) as [Hk Hlen]. simpl. rewrite Hk.
      split; [done|]. rewrite length_app in Hlen. simpl in *. lia.
    + exists [RedisService.AGet c key (Returned data)].
      split; [done|]. split; [done|]. split; [|done].
      simpl. by apply prefix_cons, prefix_nil.
  - destruct (IH campaigns s1) as (delta & Ht & Hc & Hpre & Hout).
    exists (RedisService.AGet c key (Returned data) :: delta).
    split; [rewrite Ht, Ht1; by rewrite <- app_assoc|]. split; [congruence|].
    split; [simpl; by apply prefix_cons|].
    intros out Hr. destruct (Hout out Hr) as [Hk Hlen]. simpl. rewrite Hk.
    split; [done|]. simpl in *. lia.
Qed.

(** X19: [list_campaigns] reads at most [max 1 limit] campaigns: one even
    for a limit of 0, and at most [limit] for a positive one.  It never
    changes the client, returns no more campaigns than it read, and, when
    it returns, it has read the first [max 1 limit] keys the scan yields,
    in order. *)
Theorem list_campaigns_bounded (limit : Z) (s : RedisService.State) :
  let run := RedisService.list_campaigns limit s in
  let read := keys_read (requests s run.2) in
  length read ≤ list_bound limit ∧
  ((1 ≤ limit)%Z → (Z.of_nat (length read) ≤ limit)%Z) ∧
  RedisService._client run.2 = RedisService._client s ∧
  ∀ campaigns, run.1 = Returned campaigns →
    length campaigns ≤ length read ∧
    ∀ c yielded failure,
      RedisService._client s = Some c →
      RedisService.scan_reply (RedisService.env s) (RedisService.trace s) c
        "campaign:*" 100 = (yielded, failure) →
      read = take (list_bound limit) yielded.
Proof.
  cbn zeta.
  assert ((1 ≤ limit)%Z → ∀ n, n ≤ list_bound limit → (Z.of_nat n ≤ limit)%Z) as Hlim.
  { unfold list_bound. intros ? n ?. lia. }
  unfold RedisService.list_campaigns.
  cbv [mbind RedisService.R_bind mret RedisService.R_ret RedisService.gets].
  destruct (RedisService._client s) as [c|] eqn:Hclient.
  2: { unfold requests. rewrite drop_all. simpl.
       split; [lia|]. split; [lia|]. split; [done|]. intros ? [= <-]. split; [done|].
       done. }
  set (r := RedisService.scan_reply _ _ _ _ _).
  set (s1 := RedisService.with_trace _ s).
  assert (RedisService.trace s1 =
          RedisService.trace s ++ [RedisService.AScan c (RedisService.CAMPAIGN_KEY_PREFIX +:+ "*") 100 r])
    as Ht1 by done.
  destruct (RedisService.scan_keys limit r.1 r.2 []) as [keys|e] eqn:Hscan.
  2: { cbn [fst snd]. rewrite (requests_app _ _ _ Ht1). simpl.
       split; [lia|]. split; [lia|]. split; [done|]. done. }
  pose proof (scan_keys_bound _ _ _ _ Hscan) as (Hlen & Hpre & _).
  destruct (fetch_run c keys [] s1) as (delta & Ht & Hc & Hread & Hout).
  cbn zeta in *. cbn [fst snd].
  rewrite (requests_app s _ (RedisService.AScan c (RedisService.CAMPAIGN_KEY_PREFIX +:+ "*") 100 r :: delta))
    by (rewrite Ht, Ht1; by rewrite <- app_assoc).
  change (keys_read (RedisService.AScan c (RedisService.CAMPAIGN_KEY_PREFIX +:+ "*") 100 r :: delta))
    with (keys_read delta).
  assert (length (keys_read delta) ≤ length keys) as Hle by (by apply prefix_length).
  split; [lia|]. split; [intros H1; apply Hlim; [done|lia]|].
  split; [by rewrite Hc|].
  intros campaigns Hr. destruct (Hout campaigns Hr) as [Hk Hn]. rewrite Hk.
  split; [simpl in Hn; lia|].
  intros c' yielded failure [= <-] Hy. unfold r in Hscan.
  change (RedisService.CAMPAIGN_KEY_PREFIX +:+ "*") with "campaign:*" in Hscan.
  rewrite Hy in Hscan. cbn [fst snd] in Hscan.
  rewrite scan_keys_take in Hscan by (by right). cbn zeta in Hscan.
  rewrite Nat.sub_0_r in Hscan.
  destruct (decide (length yielded < list_bound limit)).
  - destruct failure; [done|]. injection Hscan as <-. rewrite take_ge; [done|lia].
  - by injection Hscan as <-.
Qed.

Lemma held_app key h1 h2 :
  held key (h1 ++ h2) = match held key h2 with Some d => Some d | None => held key h1 end.
Proof.
  induction h1 as [|a h1 IH]; simpl.
  - by destruct (held key h2).
  - destruct a as [| | |c k d ex [[]|]| |]; simpl; rewrite ?IH; try done.
    destruct (held key h2); [done|]. done.
Qed.

Lemma store_campaign_run c campaign s :
  RedisService._client s = Some c →
  RedisService.store_campaign campaign s =
    let key := "campaign:" +:+ RedisService.campaign_id campaign in
    let data := RedisService.model_dump_json (RedisService.env s) campaign in
    let reply := RedisService.set_reply (RedisService.env s) (RedisService.trace s)
                   c key data 604800 in
    (reply,
     RedisService.with_trace
       (RedisService.trace s ++ [RedisService.ASet c key data 604800 reply]) s).
Proof.
  intros Hc. unfold RedisService.store_campaign.
  cbv [mbind RedisService.R_bind mret RedisService.R_ret RedisService.gets
       RedisService.set RedisService.call].
  by rewrite Hc.
Qed.

Lemma get_campaign_run c id s :
  RedisService._client s = Some c →
  RedisService.get_campaign id s =
    let key := "campaign:" +:+ id in
    let reply := RedisService.get_reply (RedisService.env s) (RedisService.trace s) c key in
    let s1 := RedisService.with_trace
                (RedisService.trace s ++ [RedisService.AGet c key reply]) s in
    match reply with
    | Raised e => (Raised e, s1)
    | Returned data =>
        if truthy_opt data
        then match RedisService.model_validate_json (RedisService.env s) (default "" data) with
             | Returned campaign => (Returned (Some campaign), s1)
             | Raised e => (Raised e, s1)
             end
        else (Returned None, s1)
    end.
Proof.
  intros Hc. unfold RedisService.get_campaign.
  cbv [mbind RedisService.R_bind mret RedisService.R_ret RedisService.gets
       RedisService.get RedisService.call RedisService.validate].
  rewrite Hc. cbn zeta.
  destruct (RedisService.get_reply _ _ _ _) as [data|e]; [|done].
  by destruct (truthy_opt data).
Qed.

(** X20: with a server that behaves as a dictionary and a serialisation
    that reads back what it wrote, a campaign that was stored is what
    [get_campaign] returns for its identifier, provided the service holds
    a client and the serialised text is not empty. *)
Theorem redis_store_then_get (s : RedisService.State)
    (campaign : RedisService.CampaignResponse) :
  let e := RedisService.env s in
  let data := RedisService.model_dump_json e campaign in
  let saved := RedisService.store_campaign campaign s in
  remembers e →
  RedisService._client s ≠ None →
  data ≠ "" →
  RedisService.model_validate_json e data = Returned campaign →
  saved.1 = Returned () ∧
  (RedisService.get_campaign (RedisService.campaign_id campaign) saved.2).1
    = Returned (Some campaign).
Proof.
  cbn zeta. intros [Hset Hget] Hclient Hdata Hcodec.
  destruct (RedisService._client s) as [c|] eqn:Hc; [|done].
  rewrite (store_campaign_run c) by done. cbn zeta. rewrite Hset. cbn [fst snd].
  split; [done|]. rewrite (get_campaign_run c) by done. cbn zeta.
  rewrite Hget. cbn [RedisService.trace RedisService.with_trace RedisService.env].
  rewrite held_app. simpl held. rewrite decide_True by done.
  assert (truthy (RedisService.model_dump_json (RedisService.env s) campaign) = true)
    as Htruthy by (by destruct (RedisService.model_dump_json _ campaign)).
  cbn [truthy_opt default]. rewrite Htruthy.
  cbn [RedisService.env RedisService.with_trace]. unfold id. by rewrite Hcodec.
Qed.

Lemma redis_store_then_get_witness :
  let s := (RedisService.connect (fresh_service sample_store)).2 in
  (RedisService.get_campaign "test1" (RedisService.store_campaign sample_campaign s).2).1
    = Returned (Some sample_campaign).
Proof.
  cbn zeta.
  destruct (redis_store_then_get (RedisService.connect (fresh_service sample_store)).2
              sample_campaign) as [_ H]; done.
Defined.

(** X21: [disconnect] without client does nothing.  With a client it
    closes it: if closing raises, the exception goes to the caller and the
    client stays in place; otherwise the service is left without client,
    and storing a campaign is then a no-op. *)
Theorem redis_disconnect_closes_or_keeps (s : RedisService.State) :
  let run := RedisService.disconnect s in
  match RedisService._client s with
  | None => run = (Returned (), s)
  | Some c =>
      ∃ closed,
        requests s run.2 = [RedisService.AClose c closed] ∧
        run.1 = closed ∧
        (RedisService._client run.2 = if is_raised closed then Some c else None) ∧
        (is_raised closed = false → ∀ campaign,
           RedisService.store_campaign campaign run.2 = (Returned (), run.2))
  end.
Proof.
  cbn zeta. unfold RedisService.disconnect.
  cbv [mbind RedisService.R_bind mret RedisService.R_ret RedisService.gets
       RedisService.aclose RedisService.call RedisService.set_client].
  destruct (RedisService._client s) as [c|] eqn:Hc; [|done].
  set (closed := RedisService.aclose_reply _ _ _). exists closed.
  destruct closed as [[]|e]; cbn [fst snd].
  - split; [by apply requests_app|]. split; [done|]. split; [done|].
    intros _ campaign. by refine (proj1 (degraded_silent _ campaign "" 0%Z _)).
  - split; [by apply requests_app|]. split; [done|]. split; [done|]. done.
Qed.

(** X22: [is_healthy] never raises and never changes the client; it
    answers True exactly when the service holds a client and the one ping
    it sent returned. *)
Theorem redis_is_healthy_never_raises (s : RedisService.State) :
  let run := RedisService.is_healthy s in
  ∃ b,
    run.1 = Returned b ∧
    RedisService._client run.2 = RedisService._client s ∧
    (b = true ↔
     ∃ c, RedisService._client s = Some c ∧
          requests s run.2 = [RedisService.APing c (Returned ())]).
Proof.
  cbn zeta. unfold RedisService.is_healthy, RedisService.try_except.
  cbv [mbind RedisService.R_bind mret RedisService.R_ret RedisService.gets
       RedisService.ping RedisService.call].
  destruct (RedisService._client s) as [c|] eqn:Hc.
  2: { exists false. split; [done|]. split; [done|]. split; [done|]. by intros (? & ? & _). }
  set (pinged := RedisService.ping_reply _ _ _).
  destruct pinged as [[]|e] eqn:Hp; cbn [fst snd].
  - exists true. split; [done|]. split; [done|]. split; [|done].
    intros _. exists c. split; [done|]. by apply requests_app.
  - exists false. split; [done|]. split; [done|]. split; [done|].
    intros (c' & [= <-] & Hreq). rewrite (requests_app _ _ [RedisService.APing c (Raised e)]) in Hreq by done.
    by injection Hreq.
Qed.

Lemma redis_failed_connect_degrades_witness :
  let s' := (RedisService.connect (fresh_service unreachable_store)).2 in
  degraded s' ∧
  RedisService.get_campaign "test1" (RedisService.store_campaign sample_campaign s').2
    = (Returned None, s').
Proof.
  cbn zeta.
  destruct (redis_failed_connect_degrades (fresh_service unreachable_store)
              sample_campaign "test1" 20) as (Hd & Hstore & Hget & _).
  { vm_compute. apply Exists_cons_tl, Exists_cons_hd. exact I. }
  split; [exact Hd|]. rewrite Hstore. exact Hget.
Defined.

(** X24: [list_campaigns] does not catch a failure of the scan.  When
    the scan breaks off with an exception before [max 1 limit] keys were
    yielded, the call raises that exception and reads no key, not even
    the ones yielded; when that many keys had been yielded, the scan is
    never driven to its failure and the call goes on to read the first
    key. *)
Theorem list_campaigns_scan_failure (limit : Z) (s : RedisService.State)
    (c : RedisService.Client) (yielded : list string) (e : Exn) :
  let run := RedisService.list_campaigns limit s in
  RedisService._client s = Some c →
  RedisService.scan_reply (RedisService.env s) (RedisService.trace s) c
    "campaign:*" 100 = (yielded, Some e) →
  if decide (length yielded < list_bound limit)
  then run.1 = Raised e ∧ keys_read (requests s run.2) = []
  else ∃ key, head yielded = Some key ∧ head (keys_read (requests s run.2)) = Some key.
Proof.
  cbn zeta. intros Hc Hscan. unfold RedisService.list_campaigns.
  cbv [mbind RedisService.R_bind mret RedisService.R_ret RedisService.gets].
  rewrite Hc.
  change (RedisService.CAMPAIGN_KEY_PREFIX +:+ "*") with "campaign:*".
  rewrite Hscan. cbn [fst snd].
  rewrite scan_keys_take by (by right). cbn zeta. rewrite Nat.sub_0_r.
  set (s1 := RedisService.with_trace _ s).
  assert (RedisService.trace s1 = RedisService.trace s ++
            [RedisService.AScan c "campaign:*" 100 (yielded, Some e)]) as Ht1 by done.
  destruct (decide (length yielded < list_bound limit)) as [Hlt|Hge].
  { cbn [fst snd]. by rewrite (requests_app _ _ _ Ht1). }
  destruct yielded as [|key yielded]; [simpl in Hge; unfold list_bound in Hge; lia|].
  exists key. split; [done|].
  assert (∃ n, list_bound limit = S n) as [n Hn]
    by (unfold list_bound; exists (Z.to_nat (Z.max 1 limit) - 1); lia).
  rewrite Hn. cbn [take app RedisService.fetch].
  cbv [mbind RedisService.R_bind RedisService.get RedisService.call].
  set (reply := RedisService.get_reply _ _ _ _).
  set (s2 := RedisService.with_trace _ s1).
  assert (RedisService.trace s2 = RedisService.trace s ++
            [RedisService.AScan c "campaign:*" 100 (key :: yielded, Some e);
             RedisService.AGet c key reply]) as Ht2
    by (unfold s2; cbn [RedisService.trace RedisService.with_trace];
        by rewrite Ht1, <- app_assoc).
  assert (∀ m : RedisService.R (list RedisService.CampaignResponse),
            head (keys_read (requests s (m s2).2)) = Some key ∨ True) as _ by (by right).
  destruct reply as [data|e'] eqn:Hreply.
  2: { cbn [snd]. by rewrite (requests_app _ _ _ Ht2). }
  assert (∀ campaigns s3, RedisService.trace s3 = RedisService.trace s2 →
            head (keys_read (requests s
                   (RedisService.fetch c (take n yielded) campaigns s3).2)) = Some key) as Hrest.
  { intros campaigns s3 Ht3.
    destruct (fetch_run c (take n yielded) campaigns s3) as (delta & Ht & _).
    cbn zeta in Ht.
    rewrite (requests_app s _ ([RedisService.AScan c "campaign:*" 100 (key :: yielded, Some e);
                                RedisService.AGet c key (Returned data)] ++ delta))
      by (rewrite Ht, Ht3, Ht2; by rewrite <- app_assoc).
    done. }
  destruct (truthy_opt data).
  - unfold RedisService.validate.
    destruct (RedisService.model_validate_json (RedisService.env s2) (default "" data))
      as [campaign|e'].
    + by apply Hrest.
    + cbn [snd]. by rewrite (requests_app _ _ _ Ht2).
  - by apply Hrest.
Qed.

Lemma list_campaigns_scan_failure_witness :
  let e := RuntimeError "connection lost" in
  (RedisService.list_campaigns 20 (connected_service interrupted_store)).1 = Raised e ∧
  (RedisService.list_campaigns 1 (connected_service interrupted_store)).1 = Returned [].
Proof.
  cbn zeta. split; [|by vm_compute].
  refine (proj1 (list_campaigns_scan_failure 20 (connected_service interrupted_store) 7
                   ["campaign:a1"] (RuntimeError "connection lost") eq_refl eq_refl)).
Defined.

Lemma campaign_key_inj id1 id2 : "campaign:" +:+ id1 = "campaign:" +:+ id2 → id1 = id2.
Proof. intros H. by simplify_eq/=. Qed.

(** X25: with a server that behaves as a dictionary, storing a campaign
    changes what [get_campaign] returns for no other identifier; and an
    identifier under which nothing was written is not found: the read
    returns None. *)
Theorem redis_store_keeps_other_campaigns (s : RedisService.State)
    (campaign : RedisService.CampaignResponse) (id : string) :
  let saved := RedisService.store_campaign campaign s in
  remembers (RedisService.env s) →
  RedisService.campaign_id campaign ≠ id →
  (RedisService.get_campaign id saved.2).1 = (RedisService.get_campaign id s).1 ∧
  (held ("campaign:" +:+ id) (RedisService.trace s) = None →
   (RedisService.get_campaign id s).1 = Returned None).
Proof.
  cbn zeta. intros [Hset Hget] Hid.
  destruct (RedisService._client s) as [c|] eqn:Hc.
  - rewrite (store_campaign_run c) by done. cbn zeta. cbn [fst snd].
    rewrite !(get_campaign_run c) by done. cbn zeta.
    cbn [RedisService.trace RedisService.with_trace RedisService.env].
    rewrite !Hget, Hset, held_app. simpl held.
    rewrite decide_False by (intros Hk; by apply campaign_key_inj in Hk).
    split.
    + destruct (held _ (RedisService.trace s)) as [data|]; cbn [truthy_opt default].
      * destruct (truthy data); [|done].
        by destruct (RedisService.model_validate_json _ _).
      * done.
    + by intros ->.
  - assert (degraded s) as Hd by done.
    destruct (degraded_silent s campaign id 0%Z Hd) as (Hst & Hg & _).
    rewrite Hst. cbn [snd]. by rewrite Hg.
Qed.

Lemma redis_store_keeps_other_campaigns_witness :
  let s := (RedisService.connect (fresh_service sample_store)).2 in
  (RedisService.get_campaign "test2" (RedisService.store_campaign sample_campaign s).2).1
    = Returned None.
Proof.
  cbn zeta.
  destruct (redis_store_keeps_other_campaigns
              (RedisService.connect (fresh_service sample_store)).2 sample_campaign "test2")
    as [Hsame Hnone]; [by vm_compute|done|].
  rewrite Hsame. by apply Hnone.
Defined.
